(** * The advanced lines diff computer

    A shallow embedding of
    [src/vs/editor/common/diff/advancedLinesDiffComputer.ts] and the
    properties of it that its specification states.

    Conventions.
    - A JavaScript number that holds a line number, a column or an offset is
      a [Z]; an array index that has been checked to be in range is a [nat].
    - A JavaScript string is the list of its UTF-16 code units ([list N]).
    - A JavaScript array is a [list]; an array that is written by index and
      may therefore have holes is a [list (option _)], a hole being [None].
    - A call that throws (a [TypeError] on [undefined.length], a
      [BugIndicatingError] of a range constructor) returns [None]. *)

From Stdlib Require Import ZArith QArith Reals Lia Lra String Ascii.
From stdpp Require Import base option list gmap.

#[local] Open Scope Z_scope.

(** ** JavaScript strings *)

Definition char : Type := N.
Definition jsstring : Type := list char.

Definition codes (s : string) : jsstring :=
  N_of_ascii <$> list_ascii_of_string s.

(** [array.length] and [string.length] *)
Definition arrlen {A} (l : list A) : Z := Z.of_nat (length l).
Definition strlen (s : jsstring) : Z := Z.of_nat (length s).

(** [array[i]] for a JavaScript number [i]: [None] is [undefined]. *)
Definition at_index {A} (l : list A) (i : Z) : option A :=
  if i <? 0 then None else l !! Z.to_nat i.

(** [array.slice(start, end)]: an index below zero counts from the end. *)
Definition js_slice {A} (arr : list A) (s e : Z) : list A :=
  let from i := if i <? 0 then Z.max (arrlen arr + i) 0 else i in
  drop (Z.to_nat (from s)) (take (Z.to_nat (from e)) arr).

Module CharCode.
Definition Tab : char := 9%N.
Definition LineFeed : char := 10%N.
Definition CarriageReturn : char := 13%N.
Definition Space : char := 32%N.
Definition Digit0 : char := 48%N.
Definition Digit9 : char := 57%N.
Definition A : char := 65%N.
Definition Z : char := 90%N.
Definition a : char := 97%N.
Definition z : char := 122%N.
End CharCode.

(** The code units that [String.prototype.trim], [trimStart] and [trimEnd]
    strip: ECMAScript's WhiteSpace and LineTerminator. *)
Definition isWhiteSpace (c : char) : bool :=
  ((9 <=? c) && (c <=? 13) || (c =? 32) || (c =? 160) || (c =? 5760)
   || (8192 <=? c) && (c <=? 8202) || (c =? 8232) || (c =? 8233)
   || (c =? 8239) || (c =? 8287) || (c =? 12288) || (c =? 65279))%N.

Fixpoint trimStart (s : jsstring) : jsstring :=
  match s with
  | c :: s' => if isWhiteSpace c then trimStart s' else s
  | [] => []
  end.

Definition trimEnd (s : jsstring) : jsstring :=
  reverse (trimStart (reverse s)).

Definition trim (s : jsstring) : jsstring := trimEnd (trimStart s).

(** [lines.join('\n')] *)
Fixpoint join_lines (ls : list jsstring) : jsstring :=
  match ls with
  | [] => []
  | [l] => l
  | l :: ls' => l ++ CharCode.LineFeed :: join_lines ls'
  end.

(** ** Geometry: offset ranges, line ranges, positions, ranges *)

(** Modelled from the spec: [OffsetRange] (vs/editor/common/core/offsetRange
    is not part of the sources at hand): the half-open range
    [[start, endExclusive)] with [start <= endExclusive]; its constructor
    refuses any other pair. *)
Record OffsetRange := mkOffsetRange { start : Z; endExclusive : Z }.

Module OffsetRange.
Definition wf (r : OffsetRange) : Prop := start r <= endExclusive r.

Definition new (s e : Z) : option OffsetRange :=
  if e <? s then None else Some (mkOffsetRange s e).

(** [tryCreate] gives [undefined] ([None]) instead of throwing. *)
Definition tryCreate (s e : Z) : option OffsetRange :=
  if e <? s then None else Some (mkOffsetRange s e).

Definition isEmpty (r : OffsetRange) : bool := start r =? endExclusive r.
Definition length (r : OffsetRange) : Z := endExclusive r - start r.

Definition equals (r o : OffsetRange) : bool :=
  (start r =? start o) && (endExclusive r =? endExclusive o).

Definition containsRange (r o : OffsetRange) : bool :=
  (start r <=? start o) && (endExclusive o <=? endExclusive r).

(** The smallest range that holds both. The constructor's check passes as
    soon as one of the two is well formed ([join_wf] below). *)
Definition join (r o : OffsetRange) : OffsetRange :=
  mkOffsetRange (Z.min (start r) (start o))
                (Z.max (endExclusive r) (endExclusive o)).

Definition intersect (r o : OffsetRange) : option OffsetRange :=
  let s := Z.max (start r) (start o) in
  let e := Z.min (endExclusive r) (endExclusive o) in
  if s <=? e then Some (mkOffsetRange s e) else None.

(** [range.slice(arr)], which is [arr.slice(start, endExclusive)] *)
Definition slice {A} (r : OffsetRange) (arr : list A) : list A :=
  js_slice arr (start r) (endExclusive r).
End OffsetRange.

(** Modelled from the spec: [LineRange] (vs/editor/common/core/lineRange is
    not part of the sources at hand): the half-open range of 1-based line
    numbers [[startLineNumber, endLineNumberExclusive)]; its constructor
    refuses a start after the end. *)
Record LineRange := mkLineRange {
  startLineNumber : Z;
  endLineNumberExclusive : Z
}.

Module LineRange.
Definition wf (r : LineRange) : Prop :=
  startLineNumber r <= endLineNumberExclusive r.

Definition new (s e : Z) : option LineRange :=
  if e <? s then None else Some (mkLineRange s e).

Definition isEmpty (r : LineRange) : bool :=
  startLineNumber r =? endLineNumberExclusive r.

Definition length (r : LineRange) : Z :=
  endLineNumberExclusive r - startLineNumber r.

Definition delta (r : LineRange) (k : Z) : LineRange :=
  mkLineRange (startLineNumber r + k) (endLineNumberExclusive r + k).

Definition join (r o : LineRange) : LineRange :=
  mkLineRange (Z.min (startLineNumber r) (startLineNumber o))
              (Z.max (endLineNumberExclusive r) (endLineNumberExclusive o)).

Definition intersect (r o : LineRange) : option LineRange :=
  let s := Z.max (startLineNumber r) (startLineNumber o) in
  let e := Z.min (endLineNumberExclusive r) (endLineNumberExclusive o) in
  if s <=? e then Some (mkLineRange s e) else None.

Definition overlapOrTouch (r o : LineRange) : bool :=
  (startLineNumber r <=? endLineNumberExclusive o)
  && (startLineNumber o <=? endLineNumberExclusive r).

(** [toOffsetRange]: [[start - 1, end - 1)] *)
Definition toOffsetRange (r : LineRange) : OffsetRange :=
  mkOffsetRange (startLineNumber r - 1) (endLineNumberExclusive r - 1).
End LineRange.

(** Modelled from the spec: [Position] and [Range]
    (vs/editor/common/core/position and range are not part of the sources at
    hand): 1-based line and column; a range is a start and an end position
    with the start not after the end, which its constructor enforces by
    swapping the two. *)
Record Position := mkPosition { lineNumber : Z; column : Z }.

Record Range := mkRange {
  range_startLineNumber : Z;
  range_startColumn : Z;
  range_endLineNumber : Z;
  range_endColumn : Z
}.

Module Range.
Definition new (sl sc el ec : Z) : Range :=
  if (el <? sl) || (sl =? el) && (ec <? sc)
  then mkRange el ec sl sc
  else mkRange sl sc el ec.

Definition fromPositions (s e : Position) : Range :=
  new (lineNumber s) (column s) (lineNumber e) (column e).

Definition getStartPosition (r : Range) : Position :=
  mkPosition (range_startLineNumber r) (range_startColumn r).

Definition getEndPosition (r : Range) : Position :=
  mkPosition (range_endLineNumber r) (range_endColumn r).

Definition wf (r : Range) : Prop :=
  range_startLineNumber r < range_endLineNumber r
  \/ range_startLineNumber r = range_endLineNumber r
     /\ range_startColumn r <= range_endColumn r.
End Range.

(** ** Mappings *)

Record RangeMapping := mkRangeMapping {
  originalRange : Range;
  modifiedRange : Range
}.

Record LineRangeMapping := mkLineRangeMapping {
  original : LineRange;
  modified : LineRange
}.

Module LineRangeMapping.
Definition join (m o : LineRangeMapping) : LineRangeMapping :=
  mkLineRangeMapping (LineRange.join (original m) (original o))
                     (LineRange.join (modified m) (modified o)).
End LineRangeMapping.

(** A [DetailedLineRangeMapping] is a [LineRangeMapping] with its inner
    changes; [innerChanges] may be [undefined] in the class, but every value
    built here carries a list. *)
Record DetailedLineRangeMapping := mkDetailedLineRangeMapping {
  lineRangeMapping :> LineRangeMapping;
  innerChanges : list RangeMapping
}.

Definition newDetailedLineRangeMapping (o m : LineRange)
    (inner : list RangeMapping) : DetailedLineRangeMapping :=
  mkDetailedLineRangeMapping (mkLineRangeMapping o m) inner.

Record MovedText := mkMovedText {
  moved_lineRangeMapping : LineRangeMapping;
  moved_changes : list DetailedLineRangeMapping
}.

Record LinesDiff := mkLinesDiff {
  changes : list DetailedLineRangeMapping;
  moves : list MovedText;
  hitTimeout : bool
}.

(** Modelled from the spec: [SequenceDiff]
    (vs/editor/common/diff/algorithms/diffAlgorithm is not part of the
    sources at hand): a pair of offset ranges over the two sequences. *)
Record SequenceDiff := mkSequenceDiff {
  seq1Range : OffsetRange;
  seq2Range : OffsetRange
}.

Module SequenceDiff.
Definition join (d o : SequenceDiff) : SequenceDiff :=
  mkSequenceDiff (OffsetRange.join (seq1Range d) (seq1Range o))
                 (OffsetRange.join (seq2Range d) (seq2Range o)).
End SequenceDiff.

(** ** Arrays *)

(** [checkAdjacentItems]: every two neighbours of the array are related. *)
Fixpoint checkAdjacentItems {A} (R : A -> A -> Prop) (l : list A) : Prop :=
  match l with
  | a :: (b :: _) as t => R a b /\ checkAdjacentItems R t
  | _ => True
  end.

(** [result[result.length - 1] = x] *)
Definition set_last {A} (l : list A) (x : A) : list A :=
  match l with
  | [] => []
  | _ => removelast l ++ [x]
  end.

(** ** [mergeSequenceDiffs] *)

(** One pass of the body after [next] has been taken off its array. *)
Definition mergeSequenceDiffs_push (result : list SequenceDiff)
    (next : SequenceDiff) : list SequenceDiff :=
  match last result with
  | Some l =>
      if endExclusive (seq1Range l) >=? start (seq1Range next)
      then set_last result (SequenceDiff.join l next)
      else result ++ [next]
  | None => result ++ [next]
  end.

(** The [while] loop: it ends when both arrays are empty, and each pass
    shifts one element off one of them. *)
Fixpoint mergeSequenceDiffs_loop (sequenceDiffs1 : list SequenceDiff) :
    list SequenceDiff -> list SequenceDiff -> list SequenceDiff :=
  fix from2 (sequenceDiffs2 result : list SequenceDiff) : list SequenceDiff :=
    match sequenceDiffs1, sequenceDiffs2 with
    | [], [] => result
    | sd1 :: rest1, [] =>
        mergeSequenceDiffs_loop rest1 [] (mergeSequenceDiffs_push result sd1)
    | sd1 :: rest1, sd2 :: rest2 =>
        if start (seq1Range sd1) <? start (seq1Range sd2)
        then mergeSequenceDiffs_loop rest1 sequenceDiffs2
               (mergeSequenceDiffs_push result sd1)
        else from2 rest2 (mergeSequenceDiffs_push result sd2)
    | [], sd2 :: rest2 => from2 rest2 (mergeSequenceDiffs_push result sd2)
    end.

Definition mergeSequenceDiffs (sequenceDiffs1 sequenceDiffs2 : list SequenceDiff)
    : list SequenceDiff :=
  mergeSequenceDiffs_loop sequenceDiffs1 sequenceDiffs2 [].

(** Modelled from the spec: [groupAdjacentBy] (vs/base/common/arrays is not
    part of the sources at hand): the array cut into its maximal runs of
    neighbours that [shouldBeGrouped] relates, in order. *)
Fixpoint groupAdjacentBy {A} (shouldBeGrouped : A -> A -> bool)
    (items : list A) {struct items} : list (list A) :=
  match items with
  | [] => []
  | item :: rest =>
      match groupAdjacentBy shouldBeGrouped rest with
      | group :: groups =>
          match head rest with
          | Some next =>
              if shouldBeGrouped item next
              then (item :: group) :: groups
              else [item] :: group :: groups
          | None => [[item]]
          end
      | [] => [[item]]
      end
  end.

(** [for (const x of xs) { ... }] over a body that may throw. *)
Fixpoint forEachM {S A} (body : S -> A -> option S) (s : S) (xs : list A)
    : option S :=
  match xs with
  | [] => Some s
  | x :: xs' => s' ← body s x; forEachM body s' xs'
  end.

(** ** [getLineRangeMapping] *)

Definition getLineRangeMapping (rangeMapping : RangeMapping)
    (originalLines modifiedLines : list jsstring)
    : option DetailedLineRangeMapping :=
  let o := originalRange rangeMapping in
  let m := modifiedRange rangeMapping in
  let lineStartDelta := 0 in
  let lineEndDelta :=
    if (range_endColumn m =? 1) && (range_endColumn o =? 1)
       && (range_startLineNumber o + lineStartDelta <=? range_endLineNumber o)
       && (range_startLineNumber m + lineStartDelta <=? range_endLineNumber m)
    then -1 else 0 in
  modifiedStartLine ← at_index modifiedLines (range_startLineNumber m - 1);
  startsPastEndOfLine ←
    (if range_startColumn m - 1 >=? strlen modifiedStartLine
     then originalStartLine ← at_index originalLines (range_startLineNumber o - 1);
          Some ((range_startColumn o - 1 >=? strlen originalStartLine)
                && (range_startLineNumber o <=? range_endLineNumber o + lineEndDelta)
                && (range_startLineNumber m <=? range_endLineNumber m + lineEndDelta))
     else Some false);
  let lineStartDelta := if startsPastEndOfLine : bool then 1 else lineStartDelta in
  originalLineRange ←
    LineRange.new (range_startLineNumber o + lineStartDelta)
                  (range_endLineNumber o + 1 + lineEndDelta);
  modifiedLineRange ←
    LineRange.new (range_startLineNumber m + lineStartDelta)
                  (range_endLineNumber m + 1 + lineEndDelta);
  Some (newDetailedLineRangeMapping originalLineRange modifiedLineRange
          [rangeMapping]).

(** ** [lineRangeMappingFromRangeMappings] *)

Definition shouldBeGrouped (a1 a2 : DetailedLineRangeMapping) : bool :=
  LineRange.overlapOrTouch (original a1) (original a2)
  || LineRange.overlapOrTouch (modified a1) (modified a2).

(** The mapping pushed for one group [g] ([None] for an empty group, which
    [groupAdjacentBy] never yields). *)
Definition changeOfGroup (g : list DetailedLineRangeMapping)
    : option DetailedLineRangeMapping :=
  first ← head g;
  lastOfGroup ← last g;
  inner ← mapM (fun a => head (innerChanges a)) g;
  Some (newDetailedLineRangeMapping
          (LineRange.join (original (lineRangeMapping first))
                          (original (lineRangeMapping lastOfGroup)))
          (LineRange.join (modified (lineRangeMapping first))
                          (modified (lineRangeMapping lastOfGroup)))
          inner).

(** The condition that the function hands to [assertFn].

    Modelled from the spec: [assertFn] (vs/base/common/assert is not part of
    the sources) is a debug-time check: a failed assertion is reported and
    does not change what the function returns. *)
Definition lineBoundaryInvariant (m1 m2 : LineRangeMapping) : Prop :=
  startLineNumber (original m2) - endLineNumberExclusive (original m1)
  = startLineNumber (modified m2) - endLineNumberExclusive (modified m1)
  /\ endLineNumberExclusive (original m1) < startLineNumber (original m2)
  /\ endLineNumberExclusive (modified m1) < startLineNumber (modified m2).

Definition lineRangeMappingFromRangeMappings (alignments : list RangeMapping)
    (originalLines modifiedLines : list jsstring)
    (dontAssertStartLine : bool) : option (list DetailedLineRangeMapping) :=
  mapped ← mapM (fun a => getLineRangeMapping a originalLines modifiedLines)
              alignments;
  mapM changeOfGroup (groupAdjacentBy shouldBeGrouped mapped).

(** ** Arrays that are written by index *)

(** [arr[i] = v]: a write past the end extends the array and leaves holes. *)
Definition arr_set {A} (arr : list (option A)) (i : nat) (v : A)
    : list (option A) :=
  if (i <? length arr)%nat then <[i := Some v]> arr
  else arr ++ replicate (i - length arr) None ++ [Some v].

(** [arr[i]] of such an array: a hole reads as [undefined], as does an index
    outside of it. *)
Definition arr_get {A} (arr : list (option A)) (i : Z) : option A :=
  mjoin (at_index arr i).

(** Modelled from the spec: [findLastIdxMonotonous] (vs/base/common/arraysFind
    is not part of the sources at hand): a binary search for the greatest
    index whose item satisfies [predicate], which has to hold on a prefix of
    the array and nowhere else; [-1] when no item satisfies it. A pass of the
    loop halves [j - i], so that [length array] passes are more than enough
    and [fuel] never runs out ([findLastIdxMonotonous_loop_fuel]). *)
Fixpoint findLastIdxMonotonous_loop {A} (fuel : nat) (array : list A)
    (predicate : option A -> bool) (i j : Z) : Z :=
  match fuel with
  | O => i - 1
  | S fuel' =>
      if i <? j then
        let k := (i + j) / 2 in
        if predicate (at_index array k)
        then findLastIdxMonotonous_loop fuel' array predicate (k + 1) j
        else findLastIdxMonotonous_loop fuel' array predicate i k
      else i - 1
  end.

Definition findLastIdxMonotonous {A} (array : list A)
    (predicate : option A -> bool) : Z :=
  findLastIdxMonotonous_loop (S (length array)) array predicate
    0 (Z.of_nat (length array)).

(** Modelled from the spec: [findLastMonotonous] and
    [MonotonousArray.findLastMonotonous]: the last item that satisfies
    [predicate], [undefined] when there is none. *)
Definition findLastMonotonous {A} (array : list A)
    (predicate : option A -> bool) : option A :=
  at_index array (findLastIdxMonotonous array predicate).

(** Modelled from the spec: [findFirstMonotonous]: the first item that
    satisfies [predicate], which has to hold on a suffix of the array and
    nowhere else. *)
Definition findFirstMonotonous {A} (array : list A)
    (predicate : option A -> bool) : option A :=
  at_index array
    (findLastIdxMonotonous array (fun x => negb (predicate x)) + 1).

(** ** [LinesSliceCharSequence] *)

Record LinesSliceCharSequence := mkLinesSliceCharSequence {
  slice_lines : list jsstring;
  lineRange : OffsetRange;
  considerWhitespaceChanges : bool;
  elements : list char;
  firstCharOffsetByLine : list (option Z);
  additionalOffsetByLine : list Z
}.

(** What the constructor's [for] loop changes. *)
Record SliceBuild := mkSliceBuild {
  build_elements : list char;
  build_firstCharOffsetByLine : list (option Z);
  build_additionalOffsetByLine : list Z;
  build_trimFirstLineFully : bool
}.

(** The body of the loop for line [i]; [start] is [this.lineRange.start]. *)
Definition LinesSliceCharSequence_line (lines : list jsstring) (start : Z)
    (considerWhitespaceChanges : bool) (b : SliceBuild) (i : Z)
    : option SliceBuild :=
  line ← at_index lines i;
  let '(line', offset) :=
    if build_trimFirstLineFully b then ([], strlen line)
    else if negb considerWhitespaceChanges then
      let trimmedStartLine := trimStart line in
      (trimEnd trimmedStartLine, strlen line - strlen trimmedStartLine)
    else (line, 0) in
  let additional := build_additionalOffsetByLine b ++ [offset] in
  let elems := build_elements b ++ line' in
  if i <? arrlen lines - 1 then
    let elems' := elems ++ [CharCode.LineFeed] in
    Some (mkSliceBuild elems'
            (arr_set (build_firstCharOffsetByLine b)
                     (Z.to_nat (i - start + 1)) (arrlen elems'))
            additional false)
  else
    Some (mkSliceBuild elems (build_firstCharOffsetByLine b) additional false).

(** [new LinesSliceCharSequence(lines, lineRange, considerWhitespaceChanges)];
    [None] when a line of the range does not exist. *)
Definition newLinesSliceCharSequence (lines : list jsstring)
    (lineRange : OffsetRange) (considerWhitespaceChanges : bool)
    : option LinesSliceCharSequence :=
  let trimFirstLineFully :=
    (start lineRange >? 0) && (endExclusive lineRange >=? arrlen lines) in
  let lineRange :=
    if trimFirstLineFully
    then mkOffsetRange (start lineRange - 1) (endExclusive lineRange)
    else lineRange in
  b ← forEachM
        (LinesSliceCharSequence_line lines (start lineRange)
           considerWhitespaceChanges)
        (mkSliceBuild [] (arr_set [] 0 0) [] trimFirstLineFully)
        (seqZ (start lineRange) (endExclusive lineRange - start lineRange));
  Some (mkLinesSliceCharSequence lines lineRange considerWhitespaceChanges
          (build_elements b) (build_firstCharOffsetByLine b)
          (build_additionalOffsetByLine b ++ [0])).

Module LinesSliceCharSequence.
Definition getElement (s : LinesSliceCharSequence) (offset : Z)
    : option char :=
  at_index (elements s) offset.

Definition length (s : LinesSliceCharSequence) : Z := arrlen (elements s).

Definition getText (s : LinesSliceCharSequence) (range : OffsetRange)
    : jsstring :=
  OffsetRange.slice range (elements s).

(** [None] stands for a position whose column is not a number, which is
    what the arithmetic gives when an index falls outside of the tables. *)
Definition translateOffset (s : LinesSliceCharSequence) (offset : Z)
    : option Position :=
  if OffsetRange.isEmpty (lineRange s)
  then Some (mkPosition (start (lineRange s) + 1) 1)
  else
    let i :=
      findLastIdxMonotonous (firstCharOffsetByLine s)
        (fun value =>
           match value with
           | Some (Some value) => value <=? offset
           | _ => false
           end) in
    first ← arr_get (firstCharOffsetByLine s) i;
    additional ← at_index (additionalOffsetByLine s) i;
    Some (mkPosition (start (lineRange s) + i + 1)
                     (offset - first + additional + 1)).

Definition translateRange (s : LinesSliceCharSequence) (range : OffsetRange)
    : option Range :=
  p1 ← translateOffset s (start range);
  p2 ← translateOffset s (endExclusive range);
  Some (Range.fromPositions p1 p2).

Definition isStronglyEqual (s : LinesSliceCharSequence) (offset1 offset2 : Z)
    : bool :=
  bool_decide (at_index (elements s) offset1 = at_index (elements s) offset2).

Definition countLinesIn (s : LinesSliceCharSequence) (range : OffsetRange)
    : option Z :=
  p2 ← translateOffset s (endExclusive range);
  p1 ← translateOffset s (start range);
  Some (lineNumber p2 - lineNumber p1).
End LinesSliceCharSequence.

(** ** Time *)

(** An [ITimeout] is known by the answers that its [isValid()] gives, one
    poll after the other: [timeout n] answers the poll that [n] polls went
    before. The functions here that poll it count their polls. *)
Definition Timeout : Type := nat -> bool.

(** [InfiniteTimeout.instance] *)
Definition InfiniteTimeout : Timeout := fun _ => true.

(** ** [LineRangeFragment] *)

(** [chrKeys], the map of the module that numbers the characters in the
    order in which [getKey] first sees them, is passed in and out. *)
Definition getKey (chrKeys : gmap char nat) (chr : char)
    : nat * gmap char nat :=
  match chrKeys !! chr with
  | Some key => (key, chrKeys)
  | None => let key := size chrKeys in (key, <[chr := key]> chrKeys)
  end.

Record LineRangeFragment := mkLineRangeFragment {
  fragment_range : LineRange;
  fragment_lines : list jsstring;
  (** the place in [changes] of the change that the fragment comes from,
      which stands for that object *)
  fragment_source : nat;
  totalCount : Z;
  histogram : list (option Z)
}.

(** What the constructor's loops change. *)
Record FragmentBuild := mkFragmentBuild {
  build_chrKeys : gmap char nat;
  build_counter : Z;
  build_histogram : list (option Z)
}.

(** [const key = getKey(chr);
     this.histogram[key] = (this.histogram[key] || 0) + 1;] *)
Definition histogram_count (b : FragmentBuild) (chr : char) : FragmentBuild :=
  let '(key, chrKeys) := getKey (build_chrKeys b) chr in
  mkFragmentBuild chrKeys (build_counter b)
    (arr_set (build_histogram b) key
       (default 0 (arr_get (build_histogram b) (Z.of_nat key)) + 1)).

(** The body of the outer loop for the line [line]. *)
Definition LineRangeFragment_line (b : FragmentBuild) (line : jsstring)
    : FragmentBuild :=
  let b :=
    foldl (fun b chr =>
             histogram_count
               (mkFragmentBuild (build_chrKeys b) (build_counter b + 1)
                  (build_histogram b)) chr)
          b line in
  histogram_count
    (mkFragmentBuild (build_chrKeys b) (build_counter b + 1)
       (build_histogram b)) CharCode.LineFeed.

(** [new LineRangeFragment(range, lines, source)] with the map of keys it
    leaves; [None] when a line of the range does not exist. *)
Definition newLineRangeFragment (chrKeys : gmap char nat) (range : LineRange)
    (lines : list jsstring) (source : nat)
    : option (LineRangeFragment * gmap char nat) :=
  b ← forEachM
        (fun b i => line ← at_index lines i; Some (LineRangeFragment_line b line))
        (mkFragmentBuild chrKeys 0 [])
        (seqZ (startLineNumber range - 1)
              (endLineNumberExclusive range - startLineNumber range));
  Some (mkLineRangeFragment range lines source (build_counter b)
          (build_histogram b),
        build_chrKeys b).

(** [for (let i = 0; i < maxLength; i++) sumDifferences += ...] *)
Definition sumDifferences (h1 h2 : list (option Z)) : Z :=
  foldl (fun sum i =>
           sum + Z.abs (default 0 (arr_get h1 (Z.of_nat i))
                        - default 0 (arr_get h2 (Z.of_nat i))))
        0 (seq 0 (Nat.max (length h1) (length h2))).

(** The numbers are the quotients of integers that the code divides, taken
    exactly. [None] stands for the result of a division by zero ([NaN] or
    [-Infinity]), which no comparison of the caller finds greater than what
    it holds. *)
Definition computeSimilarity (this other : LineRangeFragment) : option Q :=
  if totalCount this + totalCount other =? 0 then None
  else Some (1 - inject_Z (sumDifferences (histogram this) (histogram other))
                 / inject_Z (totalCount this + totalCount other))%Q.

(** ** [computeMovesFromSimpleDeletionsToSimpleInsertions] *)

Definition Qgtb (x y : Q) : bool := negb (Qle_bool x y).

(** The inner loop over the set [insertions], which is kept in the order of
    insertion: the highest similarity and the insertion that has it, with
    its place in the set. *)
Fixpoint bestInsertion (deletion : LineRangeFragment)
    (insertions : list LineRangeFragment) (place : nat)
    (highestSimilarity : Q) (best : option (nat * LineRangeFragment))
    : Q * option (nat * LineRangeFragment) :=
  match insertions with
  | [] => (highestSimilarity, best)
  | insertion :: rest =>
      match computeSimilarity deletion insertion with
      | Some similarity =>
          if Qgtb similarity highestSimilarity
          then bestInsertion deletion rest (S place) similarity
                 (Some (place, insertion))
          else bestInsertion deletion rest (S place) highestSimilarity best
      | None => bestInsertion deletion rest (S place) highestSimilarity best
      end
  end.

(** The insertion that a deletion is paired with, if any:
    [highestSimilarity > 0.90 && best]. *)
Definition pairedInsertion (deletion : LineRangeFragment)
    (insertions : list LineRangeFragment) : option (nat * LineRangeFragment) :=
  let '(highestSimilarity, best) :=
    bestInsertion deletion insertions 0 (-1) None in
  if Qgtb highestSimilarity (9 # 10) then best else None.

Record SimpleMoves := mkSimpleMoves {
  simple_moves : list LineRangeMapping;
  simple_excludedChanges : list nat
}.

(** The loop over the deletions; [polls] counts the polls of the timeout. *)
Fixpoint simpleMoves_loop (timeout : Timeout) (polls : nat)
    (deletions insertions : list LineRangeFragment) (acc : SimpleMoves)
    : SimpleMoves * nat :=
  match deletions with
  | [] => (acc, polls)
  | deletion :: rest =>
      let '(insertions, acc) :=
        match pairedInsertion deletion insertions with
        | Some (place, best) =>
            (delete place insertions,
             mkSimpleMoves
               (simple_moves acc
                ++ [mkLineRangeMapping (fragment_range deletion)
                      (fragment_range best)])
               (simple_excludedChanges acc
                ++ [fragment_source deletion; fragment_source best]))
        | None => (insertions, acc)
        end in
      if negb (timeout polls) then (acc, S polls)
      else simpleMoves_loop timeout (S polls) rest insertions acc
  end.

(** [changes.filter(keep).map(d => new LineRangeFragment(side(d), lines, d))],
    the changes taken with their places in [changes]. *)
Fixpoint fragmentsOf (chrKeys : gmap char nat)
    (keep : DetailedLineRangeMapping -> bool)
    (side : DetailedLineRangeMapping -> LineRange) (lines : list jsstring)
    (changes : list (nat * DetailedLineRangeMapping))
    : option (list LineRangeFragment * gmap char nat) :=
  match changes with
  | [] => Some ([], chrKeys)
  | (source, c) :: rest =>
      if keep c then
        '(fragment, chrKeys) ← newLineRangeFragment chrKeys (side c) lines source;
        '(fragments, chrKeys) ← fragmentsOf chrKeys keep side lines rest;
        Some (fragment :: fragments, chrKeys)
      else fragmentsOf chrKeys keep side lines rest
  end.

(** [changes] with the place of each of its items. *)
Definition indexed {A} (l : list A) : list (nat * A) := zip (seq 0 (length l)) l.

(** [c.modified.isEmpty && c.original.length >= 3] *)
Definition isSimpleDeletion (c : DetailedLineRangeMapping) : bool :=
  LineRange.isEmpty (modified c) && (LineRange.length (original c) >=? 3).

(** [c.original.isEmpty && c.modified.length >= 3] *)
Definition isSimpleInsertion (c : DetailedLineRangeMapping) : bool :=
  LineRange.isEmpty (original c) && (LineRange.length (modified c) >=? 3).

Definition computeMovesFromSimpleDeletionsToSimpleInsertions
    (chrKeys : gmap char nat) (changes : list DetailedLineRangeMapping)
    (originalLines modifiedLines : list jsstring)
    (timeout : Timeout) (polls : nat) : option (SimpleMoves * nat) :=
  '(deletions, chrKeys) ←
    fragmentsOf chrKeys isSimpleDeletion (fun d => original d) originalLines
      (indexed changes);
  '(insertions, _) ←
    fragmentsOf chrKeys isSimpleInsertion (fun d => modified d) modifiedLines
      (indexed changes);
  Some (simpleMoves_loop timeout polls deletions insertions
          (mkSimpleMoves [] [])).

(** ** [LineSequence] *)

Record LineSequence := mkLineSequence {
  trimmedHash : list Z;
  sequence_lines : list jsstring
}.

(** The [while] loop of [getIndentation] leaves the index of the first
    character that is neither a space nor a tab. *)
Fixpoint getIndentation (str : jsstring) : Z :=
  match str with
  | c :: str' =>
      if (c =? CharCode.Space)%N || (c =? CharCode.Tab)%N
      then 1 + getIndentation str'
      else 0
  | [] => 0
  end.

Module LineSequence.
Definition getElement (s : LineSequence) (offset : Z) : option Z :=
  at_index (trimmedHash s) offset.

Definition length (s : LineSequence) : Z := arrlen (trimmedHash s).

Definition getBoundaryScore (s : LineSequence) (length : Z) : option Z :=
  indentationBefore ←
    (if length =? 0 then Some 0
     else getIndentation <$> at_index (sequence_lines s) (length - 1));
  indentationAfter ←
    (if length =? arrlen (sequence_lines s) then Some 0
     else getIndentation <$> at_index (sequence_lines s) length);
  Some (1000 - (indentationBefore + indentationAfter)).

Definition getText (s : LineSequence) (range : OffsetRange) : jsstring :=
  join_lines (OffsetRange.slice range (sequence_lines s)).

Definition isStronglyEqual (s : LineSequence) (offset1 offset2 : Z) : bool :=
  bool_decide (at_index (sequence_lines s) offset1
               = at_index (sequence_lines s) offset2).
End LineSequence.

(** ** Character categories and the boundary score of a slice *)

Definition isWordChar (charCode : char) : bool :=
  ((CharCode.a <=? charCode) && (charCode <=? CharCode.z)
   || (CharCode.A <=? charCode) && (charCode <=? CharCode.Z)
   || (CharCode.Digit0 <=? charCode) && (charCode <=? CharCode.Digit9))%N.

Inductive CharBoundaryCategory :=
  | WordLower | WordUpper | WordNumber | End | Other | Space
  | LineBreakCR | LineBreakLF.

#[global] Instance CharBoundaryCategory_eq_dec : EqDecision CharBoundaryCategory.
Proof. solve_decision. Defined.

Definition getCategoryBoundaryScore (category : CharBoundaryCategory) : Z :=
  match category with
  | WordLower | WordUpper | WordNumber => 0
  | End => 10
  | Other => 2
  | Space => 3
  | LineBreakCR | LineBreakLF => 10
  end.

Definition isSpace (charCode : char) : bool :=
  ((charCode =? CharCode.Space) || (charCode =? CharCode.Tab))%N.

(** [getCategory]; a char code that is [undefined] falls through every
    comparison. *)
Definition getCategory (charCode : option Z) : CharBoundaryCategory :=
  match charCode with
  | Some c =>
      if c =? Z.of_N CharCode.LineFeed then LineBreakLF
      else if c =? Z.of_N CharCode.CarriageReturn then LineBreakCR
      else if (c =? Z.of_N CharCode.Space) || (c =? Z.of_N CharCode.Tab)
      then Space
      else if (Z.of_N CharCode.a <=? c) && (c <=? Z.of_N CharCode.z)
      then WordLower
      else if (Z.of_N CharCode.A <=? c) && (c <=? Z.of_N CharCode.Z)
      then WordUpper
      else if (Z.of_N CharCode.Digit0 <=? c) && (c <=? Z.of_N CharCode.Digit9)
      then WordNumber
      else if c =? -1 then End
      else Other
  | None => Other
  end.

Definition LinesSliceCharSequence_getBoundaryScore
    (s : LinesSliceCharSequence) (length : Z) : Z :=
  let prevCategory :=
    getCategory (if length >? 0
                 then Z.of_N <$> at_index (elements s) (length - 1)
                 else Some (-1)) in
  let nextCategory :=
    getCategory (if length <? arrlen (elements s)
                 then Z.of_N <$> at_index (elements s) length
                 else Some (-1)) in
  if bool_decide (prevCategory = LineBreakCR)
     && bool_decide (nextCategory = LineBreakLF)
  then 0
  else
    let score :=
      if bool_decide (prevCategory <> nextCategory)
      then 10 + (if bool_decide (nextCategory = WordUpper) then 1 else 0)
      else 0 in
    score + getCategoryBoundaryScore prevCategory
    + getCategoryBoundaryScore nextCategory.

(** ** [findWordContaining] and [extendToFullLines] *)

Definition isWordCharAt (elements : list char) (offset : Z) : bool :=
  from_option isWordChar false (at_index elements offset).

(** [while (start > 0 && isWordChar(this.elements[start - 1])) start--;]
    which takes at most [start] passes. *)
Fixpoint findWordStart (elements : list char) (fuel : nat) (start : Z) : Z :=
  match fuel with
  | O => start
  | S fuel' =>
      if (start >? 0) && isWordCharAt elements (start - 1)
      then findWordStart elements fuel' (start - 1)
      else start
  end.

(** [while (end < this.elements.length && isWordChar(this.elements[end]))
    end++;] which takes at most [elements.length - end] passes. *)
Fixpoint findWordEnd (elements : list char) (fuel : nat) (end_ : Z) : Z :=
  match fuel with
  | O => end_
  | S fuel' =>
      if (end_ <? arrlen elements) && isWordCharAt elements end_
      then findWordEnd elements fuel' (end_ + 1)
      else end_
  end.

Definition findWordContaining (s : LinesSliceCharSequence) (offset : Z)
    : option OffsetRange :=
  if (offset <? 0) || (offset >=? arrlen (elements s)) then None
  else if negb (isWordCharAt (elements s) offset) then None
  else
    Some (mkOffsetRange
            (findWordStart (elements s) (Z.to_nat offset) offset)
            (findWordEnd (elements s)
               (Z.to_nat (arrlen (elements s) - offset)) offset)).

Definition extendToFullLines (s : LinesSliceCharSequence)
    (range : OffsetRange) : OffsetRange :=
  let start_ :=
    default 0
      (mjoin (findLastMonotonous (firstCharOffsetByLine s)
                (fun x => match x with
                          | Some (Some x) => x <=? start range
                          | _ => false
                          end))) in
  let end_ :=
    default (arrlen (elements s))
      (mjoin (findFirstMonotonous (firstCharOffsetByLine s)
                (fun x => match x with
                          | Some (Some x) => endExclusive range <=? x
                          | _ => false
                          end))) in
  mkOffsetRange start_ end_.

(** ** [coverFullWords] *)

Record ModifiedWord := mkModifiedWord {
  added : Z;
  deleted : Z;
  count : Z;
  s1Range : OffsetRange;
  s2Range : OffsetRange
}.

(** The variables that the closures of [coverFullWords] share. *)
Record WordCover := mkWordCover {
  additional : list SequenceDiff;
  lastModifiedWord : option ModifiedWord
}.

Definition maybePushWordToAdditional (st : WordCover) : WordCover :=
  match lastModifiedWord st with
  | None => st
  | Some w =>
      let originalLength1 := OffsetRange.length (s1Range w) - deleted w in
      mkWordCover
        (if Z.max (deleted w) (added w) + (count w - 1) >? originalLength1
         then additional st ++ [mkSequenceDiff (s1Range w) (s2Range w)]
         else additional st)
        None
  end.

Definition rangeLengthOr0 (r : option OffsetRange) : Z :=
  from_option OffsetRange.length 0 r.

(** [processWord] inside the loop over the diff [s]. *)
Definition processWord (s : SequenceDiff) (st : WordCover)
    (s1Range' s2Range' : OffsetRange) : WordCover :=
  let '(additional', w) :=
    match lastModifiedWord st with
    | Some w =>
        if negb (OffsetRange.containsRange (s1Range w) s1Range')
           || negb (OffsetRange.containsRange (s2Range w) s2Range')
        then
          if negb ((endExclusive (s1Range w) <? start s1Range')
                   && (endExclusive (s2Range w) <? start s2Range'))
          then
            let s1Added :=
              OffsetRange.tryCreate (endExclusive (s1Range w)) (start s1Range') in
            let s2Added :=
              OffsetRange.tryCreate (endExclusive (s2Range w)) (start s2Range') in
            (additional st,
             mkModifiedWord (added w + rangeLengthOr0 s2Added)
               (deleted w + rangeLengthOr0 s1Added) (count w)
               (OffsetRange.join (s1Range w) s1Range')
               (OffsetRange.join (s2Range w) s2Range'))
          else
            (additional (maybePushWordToAdditional st),
             mkModifiedWord 0 0 0 s1Range' s2Range')
        else (additional st, w)
    | None => (additional st, mkModifiedWord 0 0 0 s1Range' s2Range')
    end in
  let changedS1 := OffsetRange.intersect s1Range' (seq1Range s) in
  let changedS2 := OffsetRange.intersect s2Range' (seq2Range s) in
  mkWordCover additional'
    (Some (mkModifiedWord (added w + rangeLengthOr0 changedS2)
             (deleted w + rangeLengthOr0 changedS1) (count w + 1)
             (s1Range w) (s2Range w))).

(** The body of the loop of [coverFullWords] for the diff [s]. *)
Definition coverFullWords_diff (sequence1 sequence2 : LinesSliceCharSequence)
    (st : WordCover) (s : SequenceDiff) : WordCover :=
  let w1Before := findWordContaining sequence1 (start (seq1Range s) - 1) in
  let w2Before := findWordContaining sequence2 (start (seq2Range s) - 1) in
  let w1After := findWordContaining sequence1 (endExclusive (seq1Range s)) in
  let w2After := findWordContaining sequence2 (endExclusive (seq2Range s)) in
  match w1Before, w1After, w2Before, w2After with
  | Some b1, Some a1, Some b2, Some a2 =>
      if OffsetRange.equals b1 a1 && OffsetRange.equals b2 a2
      then processWord s st b1 b2
      else processWord s (processWord s st b1 b2) a1 a2
  | _, _, _, _ =>
      let st :=
        match w1Before, w2Before with
        | Some b1, Some b2 => processWord s st b1 b2
        | _, _ => st
        end in
      match w1After, w2After with
      | Some a1, Some a2 => processWord s st a1 a2
      | _, _ => st
      end
  end.

Definition coverFullWords (sequence1 sequence2 : LinesSliceCharSequence)
    (sequenceDiffs : list SequenceDiff) : list SequenceDiff :=
  let st :=
    foldl (coverFullWords_diff sequence1 sequence2) (mkWordCover [] None)
      sequenceDiffs in
  mergeSequenceDiffs sequenceDiffs (additional (maybePushWordToAdditional st)).

(** ** The collaborators *)

(** The sequences that the diff algorithms are given: the two classes here
    that implement [ISequence]. *)
Inductive ISequence :=
  | ofLineSequence (s : LineSequence)
  | ofLinesSliceCharSequence (s : LinesSliceCharSequence).

Definition ISequence_length (s : ISequence) : Z :=
  match s with
  | ofLineSequence s => LineSequence.length s
  | ofLinesSliceCharSequence s => LinesSliceCharSequence.length s
  end.

(** The values of the equality score that [computeDiff] hands to the dynamic
    programming: [0.99], [0.1] and [1 + Math.log(1 + length)]. *)
Inductive EqualityScore :=
  | ScoreDifferent
  | ScoreEqualEmpty
  | ScoreEqual (length : Z).

Definition EqualityScore_value (s : EqualityScore) : R :=
  match s with
  | ScoreDifferent => 99 / 100
  | ScoreEqualEmpty => 1 / 10
  | ScoreEqual length => 1 + ln (1 + IZR length)
  end%R.

Record DiffAlgorithmResult := mkDiffAlgorithmResult {
  result_diffs : list SequenceDiff;
  result_hitTimeout : bool
}.

(** Modelled from the spec: the external collaborators, which are not part
    of the sources at hand: the two diff kernels ([SequenceDiffer.compute],
    the equality score and the timeout being optional), the four
    post-processors over raw diffs, and the clock behind a [DateTimeout].
    Nothing is assumed of what they return. *)
Record Collaborators := mkCollaborators {
  dynamicProgrammingDiffing_compute :
    ISequence -> ISequence -> Timeout ->
    option (Z -> Z -> option EqualityScore) -> DiffAlgorithmResult;
  myersDiffingAlgorithm_compute :
    ISequence -> ISequence -> option Timeout -> DiffAlgorithmResult;
  optimizeSequenceDiffs :
    ISequence -> ISequence -> list SequenceDiff -> list SequenceDiff;
  removeRandomLineMatches :
    ISequence -> ISequence -> list SequenceDiff -> list SequenceDiff;
  smoothenSequenceDiffs :
    ISequence -> ISequence -> list SequenceDiff -> list SequenceDiff;
  removeRandomMatches :
    ISequence -> ISequence -> list SequenceDiff -> list SequenceDiff;
  newDateTimeout : Z -> Timeout
}.

(** ** [refineDiff] *)

Record RefinedDiff := mkRefinedDiff {
  mappings : list RangeMapping;
  refined_hitTimeout : bool
}.

(** The diffs of two slices: the result of the kernel that their size
    chooses, after the four post-processors. *)
Definition refinedSequenceDiffs (K : Collaborators)
    (slice1 slice2 : LinesSliceCharSequence) (timeout : Timeout)
    : list SequenceDiff * bool :=
  let sequence1 := ofLinesSliceCharSequence slice1 in
  let sequence2 := ofLinesSliceCharSequence slice2 in
  let diffResult :=
    if LinesSliceCharSequence.length slice1
       + LinesSliceCharSequence.length slice2 <? 500
    then dynamicProgrammingDiffing_compute K sequence1 sequence2 timeout None
    else myersDiffingAlgorithm_compute K sequence1 sequence2 (Some timeout) in
  let diffs := result_diffs diffResult in
  let diffs := optimizeSequenceDiffs K sequence1 sequence2 diffs in
  let diffs := coverFullWords slice1 slice2 diffs in
  let diffs := smoothenSequenceDiffs K sequence1 sequence2 diffs in
  let diffs := removeRandomMatches K sequence1 sequence2 diffs in
  (diffs, result_hitTimeout diffResult).

(** [new RangeMapping(slice1.translateRange(d.seq1Range),
    slice2.translateRange(d.seq2Range))] *)
Definition translateDiff (slice1 slice2 : LinesSliceCharSequence)
    (d : SequenceDiff) : option RangeMapping :=
  r1 ← LinesSliceCharSequence.translateRange slice1 (seq1Range d);
  r2 ← LinesSliceCharSequence.translateRange slice2 (seq2Range d);
  Some (mkRangeMapping r1 r2).

Definition refineDiff (K : Collaborators)
    (originalLines modifiedLines : list jsstring) (diff : SequenceDiff)
    (timeout : Timeout) (considerWhitespaceChanges : bool)
    : option RefinedDiff :=
  slice1 ← newLinesSliceCharSequence originalLines (seq1Range diff)
             considerWhitespaceChanges;
  slice2 ← newLinesSliceCharSequence modifiedLines (seq2Range diff)
             considerWhitespaceChanges;
  let '(diffs, hitTimeout) := refinedSequenceDiffs K slice1 slice2 timeout in
  result ← mapM (translateDiff slice1 slice2) diffs;
  Some (mkRefinedDiff result hitTimeout).

(** ** Sorting *)

(** [array.sort(compareBy(key, numberComparator))], which is stable: the
    items in ascending order of their keys, those of equal keys in the order
    that they had. *)
Fixpoint sort_insert {A} (key : A -> Z) (x : A) (l : list A) : list A :=
  match l with
  | [] => [x]
  | y :: l' => if key x <=? key y then x :: l else y :: sort_insert key x l'
  end.

Definition sortBy {A} (key : A -> Z) (l : list A) : list A :=
  foldr (sort_insert key) [] l.

(** ** [LineRangeSet] *)

(** Modelled from the spec: [LineRangeSet] (vs/editor/common/core/lineRange
    is not part of the sources at hand): a set of line numbers kept as its
    ranges in ascending order, no two of which touch. *)
Module LineRangeSet.
(** [addRange]: the union, touching ranges coalesced. *)
Fixpoint addRange (ranges : list LineRange) (r : LineRange)
    : list LineRange :=
  match ranges with
  | [] => if LineRange.isEmpty r then [] else [r]
  | x :: rest =>
      if LineRange.isEmpty r then ranges
      else if endLineNumberExclusive x <? startLineNumber r
      then x :: addRange rest r
      else if endLineNumberExclusive r <? startLineNumber x
      then r :: ranges
      else addRange rest (LineRange.join x r)
  end.

(** [subtractFrom(r)]: the part of [r] that is not yet in the set. *)
Fixpoint subtractFrom (ranges : list LineRange) (r : LineRange)
    : list LineRange :=
  match ranges with
  | [] => if LineRange.isEmpty r then [] else [r]
  | x :: rest =>
      if endLineNumberExclusive r <=? startLineNumber r then []
      else if endLineNumberExclusive x <=? startLineNumber r
      then subtractFrom rest r
      else if endLineNumberExclusive r <=? startLineNumber x
      then [r]
      else
        (if startLineNumber r <? startLineNumber x
         then [mkLineRange (startLineNumber r) (startLineNumber x)]
         else [])
        ++ subtractFrom rest
             (mkLineRange
                (Z.min (endLineNumberExclusive x) (endLineNumberExclusive r))
                (endLineNumberExclusive r))
  end.

(** [getWithDelta(k)]: every range shifted by [k]. *)
Definition getWithDelta (ranges : list LineRange) (k : Z) : list LineRange :=
  (fun r => LineRange.delta r k) <$> ranges.

(** [getIntersection(other)]: the lines that are in both sets. *)
Definition getIntersection (ranges other : list LineRange)
    : list LineRange :=
  r1 ← ranges;
  omap (fun r2 =>
          match LineRange.intersect r1 r2 with
          | Some i => if LineRange.isEmpty i then None else Some i
          | None => None
          end) other.
End LineRangeSet.

(** ** [computeUnchangedMoves] *)

(** The key of three lines: the template string of their three hashes, a
    hash that does not exist reading [undefined]. *)
Definition HashKey : Type := option Z * option Z * option Z.

Definition threeLineKey (hashedLines : list Z) (i : Z) : HashKey :=
  (at_index hashedLines (i - 1), at_index hashedLines (i + 1 - 1),
   at_index hashedLines (i + 2 - 1)).

(** Modelled from the spec: [SetMap] (vs/base/common/collections is not part
    of the sources at hand): a multi-map; the values of a key are kept in
    the order in which they were added. *)
Definition SetMap_add (m : gmap HashKey (list LineRange)) (key : HashKey)
    (value : LineRange) : gmap HashKey (list LineRange) :=
  <[key := default [] (m !! key) ++ [value]]> m.

Definition SetMap_get (m : gmap HashKey (list LineRange)) (key : HashKey)
    : list LineRange :=
  default [] (m !! key).

(** The first loop: the windows of three lines of the original side of
    every change. *)
Definition original3LineHashes (changes : list DetailedLineRangeMapping)
    (hashedOriginalLines : list Z) : gmap HashKey (list LineRange) :=
  foldl (fun m (change : DetailedLineRangeMapping) =>
           foldl (fun m i =>
                    SetMap_add m (threeLineKey hashedOriginalLines i)
                      (mkLineRange i (i + 3)))
                 m
                 (seqZ (startLineNumber (original change))
                       (endLineNumberExclusive (original change) - 2
                        - startLineNumber (original change))))
        ∅ changes.

Record PossibleMapping := mkPossibleMapping {
  modifiedLineRange : LineRange;
  originalLineRange : LineRange
}.

(** [possibleMappings] holds the mapping objects; [lastMappings] and
    [nextMappings] hold places in it, since a mapping that is extended is
    changed where it lies. *)
Record TrigramSweep := mkTrigramSweep {
  possibleMappings : list PossibleMapping;
  nextMappings : list nat
}.

(** The place of the first of [lastMappings] that the windows extend. *)
Fixpoint findExtended (possible : list PossibleMapping)
    (lastMappings : list nat) (range currentModifiedRange : LineRange)
    : option (nat * PossibleMapping) :=
  match lastMappings with
  | [] => None
  | place :: rest =>
      match possible !! place with
      | Some lastMapping =>
          if (endLineNumberExclusive (originalLineRange lastMapping) + 1
              =? endLineNumberExclusive range)
             && (endLineNumberExclusive (modifiedLineRange lastMapping) + 1
                 =? endLineNumberExclusive currentModifiedRange)
          then Some (place, lastMapping)
          else findExtended possible rest range currentModifiedRange
      | None => findExtended possible rest range currentModifiedRange
      end
  end.

(** The callback of [original3LineHashes.forEach(key, ...)]. *)
Definition matchTrigram (lastMappings : list nat)
    (currentModifiedRange : LineRange) (st : TrigramSweep) (range : LineRange)
    : TrigramSweep :=
  match findExtended (possibleMappings st) lastMappings range
          currentModifiedRange with
  | Some (place, lastMapping) =>
      mkTrigramSweep
        (<[place :=
             mkPossibleMapping
               (mkLineRange (startLineNumber (modifiedLineRange lastMapping))
                            (endLineNumberExclusive currentModifiedRange))
               (mkLineRange (startLineNumber (originalLineRange lastMapping))
                            (endLineNumberExclusive range))]>
           (possibleMappings st))
        (nextMappings st ++ [place])
  | None =>
      mkTrigramSweep
        (possibleMappings st ++ [mkPossibleMapping currentModifiedRange range])
        (nextMappings st ++ [length (possibleMappings st)])
  end.

(** The inner loop over the windows of the modified side of one change:
    the mappings, and [lastMappings] for the next window. *)
Definition sweepChange (hashes : gmap HashKey (list LineRange))
    (hashedModifiedLines : list Z) (possible : list PossibleMapping)
    (change : DetailedLineRangeMapping) : list PossibleMapping :=
  fst
    (foldl
       (fun '(possible, lastMappings) i =>
          let key := threeLineKey hashedModifiedLines i in
          let currentModifiedRange := mkLineRange i (i + 3) in
          let st :=
            foldl (matchTrigram lastMappings currentModifiedRange)
              (mkTrigramSweep possible [])
              (SetMap_get hashes key) in
          (possibleMappings st, nextMappings st))
       (possible, [])
       (seqZ (startLineNumber (modified change))
             (endLineNumberExclusive (modified change) - 2
              - startLineNumber (modified change)))).

(** The second loop, which polls the timeout after every change; [None]
    when the timeout has run out. *)
Fixpoint sweepChanges (hashes : gmap HashKey (list LineRange))
    (hashedModifiedLines : list Z) (timeout : Timeout) (polls : nat)
    (changes : list DetailedLineRangeMapping)
    (possible : list PossibleMapping)
    : option (list PossibleMapping) * nat :=
  match changes with
  | [] => (Some possible, polls)
  | change :: rest =>
      let possible :=
        sweepChange hashes hashedModifiedLines possible change in
      if negb (timeout polls) then (None, S polls)
      else sweepChanges hashes hashedModifiedLines timeout (S polls) rest
             possible
  end.

Record TakenLines := mkTakenLines {
  unchanged_moves : list LineRangeMapping;
  modifiedSet : list LineRange;
  originalSet : list LineRange
}.

(** The body of the last loop, for one possible mapping. *)
Definition takeMapping (st : TakenLines) (mapping : PossibleMapping)
    : TakenLines :=
  let diffOrigToMod :=
    startLineNumber (modifiedLineRange mapping)
    - startLineNumber (originalLineRange mapping) in
  let modifiedSections :=
    LineRangeSet.subtractFrom (modifiedSet st) (modifiedLineRange mapping) in
  let originalTranslatedSections :=
    LineRangeSet.getWithDelta
      (LineRangeSet.subtractFrom (originalSet st) (originalLineRange mapping))
      diffOrigToMod in
  let modifiedIntersectedSections :=
    LineRangeSet.getIntersection modifiedSections originalTranslatedSections in
  foldl (fun st s =>
           if LineRange.length s <? 3 then st
           else
             let modifiedLineRange := s in
             let originalLineRange := LineRange.delta s (- diffOrigToMod) in
             mkTakenLines
               (unchanged_moves st
                ++ [mkLineRangeMapping originalLineRange modifiedLineRange])
               (LineRangeSet.addRange (modifiedSet st) modifiedLineRange)
               (LineRangeSet.addRange (originalSet st) originalLineRange))
        st modifiedIntersectedSections.

Definition computeUnchangedMoves (changes : list DetailedLineRangeMapping)
    (hashedOriginalLines hashedModifiedLines : list Z)
    (timeout : Timeout) (polls : nat) : list LineRangeMapping * nat :=
  let hashes := original3LineHashes changes hashedOriginalLines in
  let changes :=
    sortBy (fun c : DetailedLineRangeMapping => startLineNumber (modified c))
      changes in
  match sweepChanges hashes hashedModifiedLines timeout polls changes [] with
  | (None, polls) => ([], polls)
  | (Some possible, polls) =>
      let possible :=
        sortBy (fun m => - LineRange.length (modifiedLineRange m)) possible in
      (unchanged_moves (foldl takeMapping (mkTakenLines [] [] []) possible),
       polls)
  end.

(** ** [computeMoves] *)

(** The body of the loop that joins the moves, for the move [current]. *)
Definition joinMove (originalLines : list jsstring)
    (joinedMoves : list LineRangeMapping) (current : LineRangeMapping)
    : list LineRangeMapping :=
  match last joinedMoves with
  | None => joinedMoves
  | Some last =>
      let originalDist :=
        startLineNumber (original current)
        - endLineNumberExclusive (original last) in
      let modifiedDist :=
        startLineNumber (modified current)
        - endLineNumberExclusive (modified last) in
      let currentMoveAfterLast := (originalDist >=? 0) && (modifiedDist >=? 0) in
      if currentMoveAfterLast && (originalDist + modifiedDist <=? 2)
      then set_last joinedMoves (LineRangeMapping.join last current)
      else
        let originalText :=
          join_lines
            (trim <$> OffsetRange.slice
                        (LineRange.toOffsetRange (original current))
                        originalLines) in
        if strlen originalText <=? 10
        then joinedMoves
        else joinedMoves ++ [current]
  end.

(** The filter that drops the moves that are none. *)
Definition isMove (changes : list DetailedLineRangeMapping)
    (m : LineRangeMapping) : bool :=
  let diffBeforeOriginalMove :=
    default (mkLineRangeMapping (mkLineRange 1 1) (mkLineRange 1 1))
      (lineRangeMapping
         <$> findLastMonotonous changes
               (fun c => match c with
                         | Some c =>
                             endLineNumberExclusive (original c)
                             <=? startLineNumber (original m)
                         | None => false
                         end)) in
  let modifiedDistToPrevDiff :=
    startLineNumber (modified m)
    - endLineNumberExclusive (modified diffBeforeOriginalMove) in
  let originalDistToPrevDiff :=
    startLineNumber (original m)
    - endLineNumberExclusive (original diffBeforeOriginalMove) in
  negb (modifiedDistToPrevDiff =? originalDistToPrevDiff).

(** The moves after joining and filtering, before they are refined. *)
Definition joinedMoves (changes : list DetailedLineRangeMapping)
    (originalLines : list jsstring) (moves : list LineRangeMapping)
    : list LineRangeMapping :=
  match sortBy (fun m => startLineNumber (original m)) moves with
  | [] => []
  | first :: rest =>
      filter (fun m => isMove changes m = true)
        (foldl (joinMove originalLines) [first] rest)
  end.

Definition computeMoves (K : Collaborators) (chrKeys : gmap char nat)
    (changes : list DetailedLineRangeMapping)
    (originalLines modifiedLines : list jsstring)
    (hashedOriginalLines hashedModifiedLines : list Z)
    (timeout : Timeout) (considerWhitespaceChanges : bool)
    : option (list MovedText) :=
  '(simple, polls) ←
    computeMovesFromSimpleDeletionsToSimpleInsertions chrKeys changes
      originalLines modifiedLines timeout 0;
  if negb (timeout polls) then Some []
  else
    let '(unchangedMoves, _) :=
      computeUnchangedMoves
        (snd <$> filter (fun c => c.1 ∉ simple_excludedChanges simple)
                   (indexed changes))
        hashedOriginalLines hashedModifiedLines timeout (S polls) in
    let moves := simple_moves simple ++ unchangedMoves in
    mapM (fun m =>
            moveChanges ←
              refineDiff K originalLines modifiedLines
                (mkSequenceDiff (LineRange.toOffsetRange (original m))
                                (LineRange.toOffsetRange (modified m)))
                timeout considerWhitespaceChanges;
            mappings ←
              lineRangeMappingFromRangeMappings (mappings moveChanges)
                originalLines modifiedLines true;
            Some (mkMovedText m mappings))
         (joinedMoves changes originalLines moves).

(** ** [computeDiff] *)

Record ILinesDiffComputerOptions := mkOptions {
  ignoreTrimWhitespace : bool;
  maxComputationTimeMs : Z;
  option_computeMoves : bool
}.

(** [getOrCreateHash]; [perfectHashes] is passed in and out. *)
Definition getOrCreateHash (perfectHashes : gmap jsstring nat) (text : jsstring)
    : Z * gmap jsstring nat :=
  match perfectHashes !! text with
  | Some hash => (Z.of_nat hash, perfectHashes)
  | None =>
      let hash := size perfectHashes in
      (Z.of_nat hash, <[text := hash]> perfectHashes)
  end.

(** [lines.map((l) => getOrCreateHash(l.trim()))] *)
Fixpoint hashLines (perfectHashes : gmap jsstring nat) (lines : list jsstring)
    : list Z * gmap jsstring nat :=
  match lines with
  | [] => ([], perfectHashes)
  | l :: lines' =>
      let '(hash, perfectHashes) := getOrCreateHash perfectHashes (trim l) in
      let '(hashes, perfectHashes) := hashLines perfectHashes lines' in
      (hash :: hashes, perfectHashes)
  end.

(** The equality score that the dynamic programming is given; [None] when
    it throws (both lines missing). *)
Definition equalityScore (originalLines modifiedLines : list jsstring)
    (offset1 offset2 : Z) : option EqualityScore :=
  if bool_decide (at_index originalLines offset1
                  = at_index modifiedLines offset2)
  then
    line ← at_index modifiedLines offset2;
    Some (if strlen line =? 0 then ScoreEqualEmpty
          else ScoreEqual (strlen line))
  else Some ScoreDifferent.

Definition lineAlignmentResult (K : Collaborators)
    (sequence1 sequence2 : LineSequence)
    (originalLines modifiedLines : list jsstring) (timeout : Timeout)
    : DiffAlgorithmResult :=
  if LineSequence.length sequence1 + LineSequence.length sequence2 <? 1700
  then
    dynamicProgrammingDiffing_compute K (ofLineSequence sequence1)
      (ofLineSequence sequence2) timeout
      (Some (equalityScore originalLines modifiedLines))
  else
    myersDiffingAlgorithm_compute K (ofLineSequence sequence1)
      (ofLineSequence sequence2) None.

(** The line alignments: the diffs of the kernel after [optimizeSequenceDiffs]
    and [removeRandomLineMatches]. *)
Definition lineAlignments (K : Collaborators)
    (sequence1 sequence2 : LineSequence) (diffs : list SequenceDiff)
    : list SequenceDiff :=
  removeRandomLineMatches K (ofLineSequence sequence1)
    (ofLineSequence sequence2)
    (optimizeSequenceDiffs K (ofLineSequence sequence1)
       (ofLineSequence sequence2) diffs).

(** What the walk over the line alignments changes. *)
Record Walk := mkWalk {
  walk_alignments : list RangeMapping;
  walk_hitTimeout : bool;
  seq1LastStart : Z;
  seq2LastStart : Z
}.

(** The body of the loop of [scanForWhitespaceChanges] for the [i]th of the
    equal lines. *)
Definition scanLine (K : Collaborators)
    (originalLines modifiedLines : list jsstring) (timeout : Timeout)
    (considerWhitespaceChanges : bool) (w : Walk) (i : Z) : option Walk :=
  let seq1Offset := seq1LastStart w + i in
  let seq2Offset := seq2LastStart w + i in
  if bool_decide (at_index originalLines seq1Offset
                  <> at_index modifiedLines seq2Offset)
  then
    characterDiffs ←
      refineDiff K originalLines modifiedLines
        (mkSequenceDiff (mkOffsetRange seq1Offset (seq1Offset + 1))
                        (mkOffsetRange seq2Offset (seq2Offset + 1)))
        timeout considerWhitespaceChanges;
    Some (mkWalk (walk_alignments w ++ mappings characterDiffs)
            (walk_hitTimeout w || refined_hitTimeout characterDiffs)
            (seq1LastStart w) (seq2LastStart w))
  else Some w.

(** [scanForWhitespaceChanges(equalLinesCount)] *)
Definition scanForWhitespaceChanges (K : Collaborators)
    (originalLines modifiedLines : list jsstring) (timeout : Timeout)
    (considerWhitespaceChanges : bool) (w : Walk) (equalLinesCount : Z)
    : option Walk :=
  if negb considerWhitespaceChanges then Some w
  else
    forEachM
      (scanLine K originalLines modifiedLines timeout considerWhitespaceChanges)
      w (seqZ 0 equalLinesCount).

(** The body of the loop over the line alignments. *)
Definition walkDiff (K : Collaborators)
    (originalLines modifiedLines : list jsstring) (timeout : Timeout)
    (considerWhitespaceChanges : bool) (w : Walk) (diff : SequenceDiff)
    : option Walk :=
  let equalLinesCount := start (seq1Range diff) - seq1LastStart w in
  w ← scanForWhitespaceChanges K originalLines modifiedLines timeout
        considerWhitespaceChanges w equalLinesCount;
  characterDiffs ←
    refineDiff K originalLines modifiedLines diff timeout
      considerWhitespaceChanges;
  Some (mkWalk (walk_alignments w ++ mappings characterDiffs)
          (walk_hitTimeout w || refined_hitTimeout characterDiffs)
          (endExclusive (seq1Range diff)) (endExclusive (seq2Range diff))).

(** [computeDiff(originalLines, modifiedLines, options)], given the
    collaborators and the state of the map [chrKeys] of the module. *)
Definition computeDiff (K : Collaborators) (chrKeys : gmap char nat)
    (originalLines modifiedLines : list jsstring)
    (options : ILinesDiffComputerOptions) : option LinesDiff :=
  if (arrlen originalLines <=? 1)
     && bool_decide (originalLines = modifiedLines)
  then Some (mkLinesDiff [] [] false)
  else if (arrlen originalLines =? 1)
          && from_option (fun l => strlen l =? 0) false
               (at_index originalLines 0)
          || (arrlen modifiedLines =? 1)
             && from_option (fun l => strlen l =? 0) false
                  (at_index modifiedLines 0)
  then
    original ← LineRange.new 1 (arrlen originalLines + 1);
    modified ← LineRange.new 1 (arrlen modifiedLines + 1);
    originalLine0 ← at_index originalLines 0;
    modifiedLine0 ← at_index modifiedLines 0;
    Some (mkLinesDiff
            [newDetailedLineRangeMapping original modified
               [mkRangeMapping
                  (Range.new 1 1 (arrlen originalLines)
                     (strlen originalLine0 + 1))
                  (Range.new 1 1 (arrlen modifiedLines)
                     (strlen modifiedLine0 + 1))]]
            [] false)
  else
    let timeout :=
      if maxComputationTimeMs options =? 0 then InfiniteTimeout
      else newDateTimeout K (maxComputationTimeMs options) in
    let considerWhitespaceChanges := negb (ignoreTrimWhitespace options) in
    let '(srcDocLines, perfectHashes) := hashLines ∅ originalLines in
    let '(tgtDocLines, _) := hashLines perfectHashes modifiedLines in
    let sequence1 := mkLineSequence srcDocLines originalLines in
    let sequence2 := mkLineSequence tgtDocLines modifiedLines in
    let result :=
      lineAlignmentResult K sequence1 sequence2 originalLines modifiedLines
        timeout in
    w ← forEachM
          (walkDiff K originalLines modifiedLines timeout
             considerWhitespaceChanges)
          (mkWalk [] (result_hitTimeout result) 0 0)
          (lineAlignments K sequence1 sequence2 (result_diffs result));
    w ← scanForWhitespaceChanges K originalLines modifiedLines timeout
          considerWhitespaceChanges w (arrlen originalLines - seq1LastStart w);
    changes ← lineRangeMappingFromRangeMappings (walk_alignments w)
                originalLines modifiedLines false;
    moves ←
      (if option_computeMoves options
       then computeMoves K chrKeys changes originalLines modifiedLines
              srcDocLines tgtDocLines timeout considerWhitespaceChanges
       else Some []);
    Some (mkLinesDiff changes moves (walk_hitTimeout w)).

(** The check that [computeDiff] hands to [assertFn] before it returns
    ("make sure all ranges are valid"); as above, a failed assertion is
    reported and does not change the result. *)
Definition validatePosition (pos : Position) (lines : list jsstring) : bool :=
  if (lineNumber pos <? 1) || (lineNumber pos >? arrlen lines) then false
  else
    match at_index lines (lineNumber pos - 1) with
    | Some line =>
        if (column pos <? 1) || (column pos >? strlen line + 1) then false
        else true
    | None => false
    end.

Definition validateRange (range : LineRange) (lines : list jsstring) : bool :=
  if (startLineNumber range <? 1) || (startLineNumber range >? arrlen lines + 1)
  then false
  else if (endLineNumberExclusive range <? 1)
          || (endLineNumberExclusive range >? arrlen lines + 1)
  then false
  else true.

Definition rangesAreValid (changes : list DetailedLineRangeMapping)
    (originalLines modifiedLines : list jsstring) : bool :=
  forallb
    (fun c : DetailedLineRangeMapping =>
       forallb
         (fun ic =>
            validatePosition (Range.getStartPosition (modifiedRange ic))
              modifiedLines
            && validatePosition (Range.getEndPosition (modifiedRange ic))
                 modifiedLines
            && validatePosition (Range.getStartPosition (originalRange ic))
                 originalLines
            && validatePosition (Range.getEndPosition (originalRange ic))
                 originalLines)
         (innerChanges c)
       && validateRange (modified c) modifiedLines
       && validateRange (original c) originalLines)
    changes.

(** ** Notions that the properties are stated with *)

(** The range a slice is built over: the given one, or the one that the
    edge rule extends it to. *)
Definition effectiveLineRange (lines : list jsstring) (range : OffsetRange)
    : OffsetRange :=
  if (start range >? 0) && (endExclusive range >=? arrlen lines)
  then mkOffsetRange (start range - 1) (endExclusive range)
  else range.

(** The number of line feeds in an array of code units. *)
Definition countLineFeeds (l : list char) : Z :=
  arrlen (filter (fun c => c = CharCode.LineFeed) l).

(** A line of a document holds no line feed. *)
Definition noLineFeed (line : jsstring) : Prop :=
  Forall (fun c => c <> CharCode.LineFeed) line.

(** The text that a fragment counts: each line of its range, followed by a
    line feed. *)
Definition fragmentText (f : LineRangeFragment) : list char :=
  flat_map (fun i => default [] (at_index (fragment_lines f) i)
                     ++ [CharCode.LineFeed])
    (seqZ (startLineNumber (fragment_range f) - 1)
          (endLineNumberExclusive (fragment_range f)
           - startLineNumber (fragment_range f))).

(** The histogram of a text under a map of keys: how many of its characters
    have the key [key]. *)
Definition keyCount (chrKeys : gmap char nat) (text : list char) (key : nat)
    : Z :=
  arrlen (filter (fun c => chrKeys !! c = Some key) text).

(** [g 0 + ... + g (n - 1)] *)
Fixpoint Zsum (g : nat -> Z) (n : nat) : Z :=
  match n with
  | O => 0
  | S n' => Zsum g n' + g n'
  end.

(** The similarity of two texts in the words of the specification: one
    minus the sum over all character keys of the absolute differences of the
    histograms, divided by the sum of the two character counts. *)
Definition similarity (chrKeys : gmap char nat) (text1 text2 : list char) : Q :=
  (1 - inject_Z (Zsum (fun key => Z.abs (keyCount chrKeys text1 key
                                       - keyCount chrKeys text2 key))
                      (size chrKeys))
       / inject_Z (arrlen text1 + arrlen text2))%Q.

(** Every key of the map is less than the number of its keys, as it is when
    [getKey] has made the map. *)
Definition keys_wf (chrKeys : gmap char nat) : Prop :=
  forall c key, chrKeys !! c = Some key -> (key < size chrKeys)%nat.

(** A fragment holds the histogram and the count of its text under the
    keys of [chrKeys]. *)
Definition fragment_ok (chrKeys : gmap char nat) (f : LineRangeFragment)
    : Prop :=
  totalCount f = arrlen (fragmentText f)
  /\ (length (histogram f) <= size chrKeys)%nat
  /\ forall key : nat,
       default 0 (arr_get (histogram f) (Z.of_nat key))
       = keyCount chrKeys (fragmentText f) key.

(** Two consecutive line range mappings as the mappings of a diff follow
    one another: the later one is well formed and does not start or end
    before the earlier one, and the two are as far apart on the original side
    as on the modified side. *)
Definition inSequence (a1 a2 : LineRangeMapping) : Prop :=
  LineRange.wf (original a2) /\ LineRange.wf (modified a2)
  /\ startLineNumber (original a1) <= startLineNumber (original a2)
  /\ endLineNumberExclusive (original a1) <= endLineNumberExclusive (original a2)
  /\ startLineNumber (modified a1) <= startLineNumber (modified a2)
  /\ endLineNumberExclusive (modified a1) <= endLineNumberExclusive (modified a2)
  /\ startLineNumber (original a2) - endLineNumberExclusive (original a1)
     = startLineNumber (modified a2) - endLineNumberExclusive (modified a1).

(** ** What the loops keep true *)

Definition seq1Start (d : SequenceDiff) : Z := start (seq1Range d).
Definition seq1End (d : SequenceDiff) : Z := endExclusive (seq1Range d).

Definition sortedBySeq1Start : list SequenceDiff -> Prop :=
  checkAdjacentItems (fun a b => seq1Start a <= seq1Start b).

Definition separatedOnSeq1 : list SequenceDiff -> Prop :=
  checkAdjacentItems (fun a b => seq1End a < seq1Start b).

(** What the loop keeps true of [result] while it still has to take the
    diffs whose starts are at least [lo]. *)
Definition merge_inv (lo : Z) (result : list SequenceDiff) : Prop :=
  sortedBySeq1Start result /\ separatedOnSeq1 result
  /\ forall l, last result = Some l -> seq1Start l <= lo.

(** The bound an array still to be merged puts on the start of what comes
    next: the start of its head (everything when it is empty). *)
Definition head_at_least (lo : Z) (l : list SequenceDiff) : Prop :=
  forall d, head l = Some d -> lo <= seq1Start d.

(** What holds of the first group and of the first change while the groups
    are built from the back: the change runs from the start of the first
    item of the group to the end of its last item. *)
Definition firstGroup (a : DetailedLineRangeMapping)
    (g : list DetailedLineRangeMapping) (c : DetailedLineRangeMapping) : Prop :=
  exists l,
    head g = Some a /\ last g = Some l
    /\ Forall (fun a => is_Some (head (innerChanges a))) g
    /\ startLineNumber (original a) <= startLineNumber (original l)
    /\ endLineNumberExclusive (original a) <= endLineNumberExclusive (original l)
    /\ startLineNumber (modified a) <= startLineNumber (modified l)
    /\ endLineNumberExclusive (modified a) <= endLineNumberExclusive (modified l)
    /\ original c = mkLineRange (startLineNumber (original a))
                      (endLineNumberExclusive (original l))
    /\ modified c = mkLineRange (startLineNumber (modified a))
                      (endLineNumberExclusive (modified l)).

(** A table of offsets without holes that starts at 0 and grows strictly. *)
Definition increasing (fs : list Z) : Prop :=
  forall (x y : nat) fx fy,
    (x < y)%nat -> fs !! x = Some fx -> fs !! y = Some fy -> fx < fy.

Definition tables_inv (b : SliceBuild) (t : nat) : Prop :=
  exists fs,
    build_firstCharOffsetByLine b = Some <$> fs
    /\ length fs = S t
    /\ increasing fs
    /\ fs !! 0%nat = Some 0
    /\ (forall f, f ∈ fs -> f <= arrlen (build_elements b))
    /\ length (build_additionalOffsetByLine b) = t.

Definition tables_post (b : SliceBuild) (t : nat) : Prop :=
  exists fs,
    build_firstCharOffsetByLine b = Some <$> fs
    /\ (length fs <= S t)%nat
    /\ increasing fs
    /\ fs !! 0%nat = Some 0
    /\ length (build_additionalOffsetByLine b) = t.

Definition countChar (b : FragmentBuild) (chr : char) : FragmentBuild :=
  histogram_count
    (mkFragmentBuild (build_chrKeys b) (build_counter b + 1)
       (build_histogram b)) chr.

(** What the loops of the constructor keep true, [text] being the
    characters counted so far and [counter0] the counter they started at. *)
Definition histogram_inv (counter0 : Z) (b : FragmentBuild) (text : list char)
    : Prop :=
  keys_wf (build_chrKeys b)
  /\ (forall c, c ∈ text -> is_Some (build_chrKeys b !! c))
  /\ (length (build_histogram b) <= size (build_chrKeys b))%nat
  /\ (forall key : nat,
        default 0 (arr_get (build_histogram b) (Z.of_nat key))
        = keyCount (build_chrKeys b) text key)
  /\ build_counter b = counter0 + arrlen text.

(** [r] is the greatest index of [array] whose item satisfies [predicate],
    or [-1]. *)
Definition isLastIdx {A} (array : list A) (predicate : option A -> bool)
    (r : Z) : Prop :=
  -1 <= r < arrlen array
  /\ (forall idx, 0 <= idx <= r -> predicate (at_index array idx) = true)
  /\ (forall idx, r < idx < arrlen array ->
        predicate (at_index array idx) = false).

(** ** The layout of a slice *)

(** [slice.text] *)
Definition LinesSliceCharSequence_text (s : LinesSliceCharSequence)
    : jsstring :=
  LinesSliceCharSequence.getText s
    (mkOffsetRange 0 (LinesSliceCharSequence.length s)).

(** The order of the positions of a document. *)
Definition Position_le (p q : Position) : Prop :=
  lineNumber p < lineNumber q
  \/ lineNumber p = lineNumber q /\ column p <= column q.

(** Where the text of row [j] of a slice ends: before the line feed that
    precedes the next row, or with the elements when there is no next row. *)
Definition rowEnd (es : list char) (fs : list Z) (j : nat) : Z :=
  match fs !! S j with
  | Some f' => f' - 1
  | None => arrlen es
  end.

(** Row [j] of a slice over the lines from [start0] on, [fs] being the table
    of first offsets and [adds] that of the additional offsets: at the
    offsets from [fs j] to the end of the row lie the characters of the line
    [start0 + j] of the document from column [adds j] on, and the row is
    followed by a line feed when another row follows. *)
Definition row_ok (lines : list jsstring) (start0 : Z) (es : list char)
    (fs adds : list Z) (j : nat) : Prop :=
  exists line fj aj,
    fs !! j = Some fj /\ adds !! j = Some aj
    /\ at_index lines (start0 + Z.of_nat j) = Some line
    /\ 0 <= aj /\ 0 <= fj <= rowEnd es fs j /\ rowEnd es fs j <= arrlen es
    /\ rowEnd es fs j - fj + aj <= strlen line
    /\ (forall x, 0 <= x < rowEnd es fs j - fj ->
          at_index es (fj + x) = at_index line (aj + x))
    /\ (forall f', fs !! S j = Some f' ->
          at_index es (f' - 1) = Some CharCode.LineFeed).

(** What the loop of the constructor keeps true as long as every line it
    has taken is followed by a line feed; [t] is the number of lines taken. *)
Definition layout_inv (lines : list jsstring) (start0 : Z) (b : SliceBuild)
    (t : nat) : Prop :=
  exists fs,
    build_firstCharOffsetByLine b = Some <$> fs
    /\ length fs = S t
    /\ fs !! t = Some (arrlen (build_elements b))
    /\ length (build_additionalOffsetByLine b) = t
    /\ (t = 0%nat \/ start0 + Z.of_nat t < arrlen lines)
    /\ forall j, (j < t)%nat ->
         row_ok lines start0 (build_elements b) fs
           (build_additionalOffsetByLine b) j.

(** What holds when the loop has ended: the last line taken may be the last
    line of the document, which no line feed follows. *)
Definition layout_post (lines : list jsstring) (start0 : Z) (b : SliceBuild)
    (t : nat) : Prop :=
  exists fs,
    build_firstCharOffsetByLine b = Some <$> fs
    /\ length (build_additionalOffsetByLine b) = t
    /\ (length fs = S t /\ fs !! t = Some (arrlen (build_elements b))
        /\ (t = 0%nat \/ start0 + Z.of_nat t < arrlen lines)
        \/ length fs = t)
    /\ forall j, (j < t)%nat ->
         row_ok lines start0 (build_elements b) fs
           (build_additionalOffsetByLine b) j.

(** The layout of a slice that the constructor has built over [lines]. *)
Definition slice_layout (lines : list jsstring) (s : LinesSliceCharSequence)
    (fs : list Z) (t : nat) : Prop :=
  firstCharOffsetByLine s = Some <$> fs
  /\ increasing fs /\ fs !! 0%nat = Some 0
  /\ Z.of_nat t = endExclusive (lineRange s) - start (lineRange s)
  /\ 0 <= start (lineRange s)
  /\ length (additionalOffsetByLine s) = S t
  /\ additionalOffsetByLine s !! t = Some 0
  /\ (length fs = S t /\ fs !! t = Some (arrlen (elements s))
      /\ (t = 0%nat \/ start (lineRange s) + Z.of_nat t < arrlen lines)
      \/ length fs = t)
  /\ forall j, (j < t)%nat ->
       row_ok lines (start (lineRange s)) (elements s) fs
         (additionalOffsetByLine s) j.

(** [k] is the row of the offset [o]: the last row that starts at or before
    [o]. *)
Definition rowOf (fs : list Z) (o : Z) (k : nat) : Prop :=
  (exists fk, fs !! k = Some fk /\ fk <= o)
  /\ forall f', fs !! S k = Some f' -> o < f'.

(** The offset [o] starts a line of the slice: it is the first offset, or
    the element before it is a line feed. *)
Definition isLineStart (es : list char) (o : Z) : Prop :=
  o = 0 \/ at_index es (o - 1) = Some CharCode.LineFeed.

(** The text of a line as a slice holds it: the line itself, or the line
    trimmed when white space is not considered. *)
Definition sliceLine (cws : bool) (line : jsstring) : jsstring :=
  if cws then line else trim line.

(** ** Words *)

(** [r] is a word of [es]: a run of word characters that is not empty and
    that no word character precedes or follows. *)
Definition isWord (es : list char) (r : OffsetRange) : Prop :=
  0 <= start r < endExclusive r /\ endExclusive r <= arrlen es
  /\ (forall i, start r <= i < endExclusive r -> isWordCharAt es i = true)
  /\ isWordCharAt es (start r - 1) = false
  /\ isWordCharAt es (endExclusive r) = false.

(** ** Numberings *)

(** A map numbers its keys when no two keys have the same number and every
    number is less than the number of keys. *)
Definition numbering `{Countable K} (m : gmap K nat) : Prop :=
  (forall k h, m !! k = Some h -> (h < size m)%nat)
  /\ forall k1 k2 h, m !! k1 = Some h -> m !! k2 = Some h -> k1 = k2.

(** The keys that successive calls of [getKey] return for the characters
    [chrs], and the map that they leave. *)
Fixpoint getKeys (chrKeys : gmap char nat) (chrs : list char)
    : list nat * gmap char nat :=
  match chrs with
  | [] => ([], chrKeys)
  | chr :: chrs' =>
      let '(key, chrKeys) := getKey chrKeys chr in
      let '(keys, chrKeys) := getKeys chrKeys chrs' in
      (key :: keys, chrKeys)
  end.

(** ** Covering *)

(** The diff [d'] covers the diff [d]: on both sequences its range contains
    that of [d]. *)
Definition covers (d' d : SequenceDiff) : Prop :=
  OffsetRange.containsRange (seq1Range d') (seq1Range d) = true
  /\ OffsetRange.containsRange (seq2Range d') (seq2Range d) = true.

Definition coveredBy (l : list SequenceDiff) (d : SequenceDiff) : Prop :=
  exists d', d' ∈ l /\ covers d' d.

(** The order in which the loop of [mergeSequenceDiffs] takes the diffs off
    the two arrays. *)
Fixpoint mergeOrder (sequenceDiffs1 : list SequenceDiff) :
    list SequenceDiff -> list SequenceDiff :=
  fix from2 (sequenceDiffs2 : list SequenceDiff) : list SequenceDiff :=
    match sequenceDiffs1, sequenceDiffs2 with
    | [], [] => []
    | sd1 :: rest1, [] => sd1 :: mergeOrder rest1 []
    | sd1 :: rest1, sd2 :: rest2 =>
        if start (seq1Range sd1) <? start (seq1Range sd2)
        then sd1 :: mergeOrder rest1 sequenceDiffs2
        else sd2 :: from2 rest2
    | [], sd2 :: rest2 => sd2 :: from2 rest2
    end.

(** ** Simple moves *)

(** The move [mv] pairs the changes at the places [p.1] and [p.2] of
    [changes]: the first is a simple deletion, whose original lines are
    those of the move, and the second a simple insertion, whose modified
    lines are those of the move. *)
Definition pairsChanges (changes : list DetailedLineRangeMapping)
    (p : nat * nat) (mv : LineRangeMapping) : Prop :=
  exists deletion insertion,
    changes !! p.1 = Some deletion /\ changes !! p.2 = Some insertion
    /\ isSimpleDeletion deletion = true /\ isSimpleInsertion insertion = true
    /\ original mv = original deletion /\ modified mv = modified insertion.

(** The fragment [f] is that of a change of [changes] that [keep] keeps,
    over the side [side] of it. *)
Definition fragmentOf (changes : list DetailedLineRangeMapping)
    (keep : DetailedLineRangeMapping -> bool)
    (side : DetailedLineRangeMapping -> LineRange) (f : LineRangeFragment)
    : Prop :=
  exists c, changes !! fragment_source f = Some c /\ keep c = true
            /\ fragment_range f = side c.

(** ** Unchanged moves *)

(** The lines of the original in the range [o] and those of the modified in
    the range [m] have the same hashes, line by line (a line that does not
    exist has the hash [undefined]). *)
Definition sameHashes (hashedOriginalLines hashedModifiedLines : list Z)
    (o m : LineRange) : Prop :=
  LineRange.length o = LineRange.length m
  /\ forall k, 0 <= k < LineRange.length m ->
       at_index hashedOriginalLines (startLineNumber o - 1 + k)
       = at_index hashedModifiedLines (startLineNumber m - 1 + k).

(** The line range [x] lies within the line range [r]. *)
Definition within (x r : LineRange) : Prop :=
  startLineNumber r <= startLineNumber x
  /\ endLineNumberExclusive x <= endLineNumberExclusive r.

(** ** Validity *)

(** What [computeDiff] asserts of an inner change: its four positions are
    positions of the documents. *)
Definition validRangeMapping (originalLines modifiedLines : list jsstring)
    (ic : RangeMapping) : bool :=
  validatePosition (Range.getStartPosition (modifiedRange ic)) modifiedLines
  && validatePosition (Range.getEndPosition (modifiedRange ic)) modifiedLines
  && validatePosition (Range.getStartPosition (originalRange ic)) originalLines
  && validatePosition (Range.getEndPosition (originalRange ic)) originalLines.

(** The diff [d] lies within two sequences of the lengths [n1] and [n2]. *)
Definition diffWithin (n1 n2 : Z) (d : SequenceDiff) : Prop :=
  (0 <= start (seq1Range d) <= endExclusive (seq1Range d)
   /\ endExclusive (seq1Range d) <= n1)
  /\ 0 <= start (seq2Range d) <= endExclusive (seq2Range d)
  /\ endExclusive (seq2Range d) <= n2.

(** What the walk of [computeDiff] over the line alignments keeps true: the
    alignments collected so far are valid, and the two line counters are not
    negative. *)
Definition walk_valid (originalLines modifiedLines : list jsstring)
    (w : Walk) : Prop :=
  Forall (fun a => validRangeMapping originalLines modifiedLines a = true)
    (walk_alignments w)
  /\ 0 <= seq1LastStart w /\ 0 <= seq2LastStart w.

(** ** Values for the examples *)

Definition sd (s1 e1 s2 e2 : Z) : SequenceDiff :=
  mkSequenceDiff (mkOffsetRange s1 e1) (mkOffsetRange s2 e2).

Definition rm (osl osc oel oec msl msc mel mec : Z) : RangeMapping :=
  mkRangeMapping (mkRange osl osc oel oec) (mkRange msl msc mel mec).

Definition lrm (os oe ms me : Z) : LineRangeMapping :=
  mkLineRangeMapping (mkLineRange os oe) (mkLineRange ms me).

Definition chg (os oe ms me : Z) : DetailedLineRangeMapping :=
  mkDetailedLineRangeMapping (lrm os oe ms me) [].

Definition noFragment : LineRangeFragment :=
  mkLineRangeFragment (mkLineRange 1 1) [] 0 0 [].

(** Three lines that have moved up past a fourth. *)
Module MovedUp.
Definition originalLines : list jsstring :=
  [codes "x"; codes "abc"; codes "def"; codes "ghi"; codes "y"].
Definition modifiedLines : list jsstring :=
  [codes "abc"; codes "def"; codes "ghi"; codes "x"; codes "y"].
Definition changes : list DetailedLineRangeMapping :=
  [chg 1 1 1 4; chg 2 5 5 5].

Definition deletions : list LineRangeFragment * gmap char nat :=
  default ([], ∅)
    (fragmentsOf ∅ isSimpleDeletion (fun d => original d) originalLines
       (indexed changes)).
Definition insertions : list LineRangeFragment * gmap char nat :=
  default ([], ∅)
    (fragmentsOf deletions.2 isSimpleInsertion (fun d => modified d)
       modifiedLines (indexed changes)).
Definition deletion : LineRangeFragment := default noFragment (head deletions.1).
Definition insertion : LineRangeFragment :=
  default noFragment (head insertions.1).
End MovedUp.

(** Collaborators that find no difference and leave the diffs as they
    are. *)
Definition noDifference : Collaborators :=
  mkCollaborators
    (fun _ _ _ _ => mkDiffAlgorithmResult [] false)
    (fun _ _ _ => mkDiffAlgorithmResult [] false)
    (fun _ _ diffs => diffs) (fun _ _ diffs => diffs)
    (fun _ _ diffs => diffs) (fun _ _ diffs => diffs)
    (fun _ => InfiniteTimeout).

(** Three short lines that have moved up past a fourth. *)
Module ShortMove.
Definition originalLines : list jsstring :=
  [codes "x"; codes "a"; codes "b"; codes "c"; codes "y"].
Definition modifiedLines : list jsstring :=
  [codes "a"; codes "b"; codes "c"; codes "x"; codes "y"].
Definition changes : list DetailedLineRangeMapping :=
  [chg 1 1 1 4; chg 2 5 5 5].
Definition hashedOriginalLines : list Z := (hashLines ∅ originalLines).1.
Definition hashedModifiedLines : list Z :=
  (hashLines (hashLines ∅ originalLines).2 modifiedLines).1.
End ShortMove.

(** Three lines that are deleted and that come back further down, the
    second of them cut in two. *)
Module SplitMove.
Definition originalLines : list jsstring :=
  [codes "header"; codes "aaaa"; codes "bbbb"; codes "cccc";
   codes "middle"; codes "footer"].
Definition modifiedLines : list jsstring :=
  [codes "header"; codes "middle"; codes "aaaa"; codes "bb"; codes "bb";
   codes "cccc"; codes "footer"].
Definition changes : list DetailedLineRangeMapping :=
  [chg 2 5 2 2; chg 6 6 3 7].
Definition hashedOriginalLines : list Z := (hashLines ∅ originalLines).1.
Definition hashedModifiedLines : list Z :=
  (hashLines (hashLines ∅ originalLines).2 modifiedLines).1.
End SplitMove.

(** *** Collaborators that return a shortest edit script *)

Inductive EditOp := Keep | Delete | Insert.

Fixpoint editCost (ops : list EditOp) : nat :=
  match ops with
  | [] => 0
  | Keep :: ops' => editCost ops'
  | _ :: ops' => S (editCost ops')
  end.

(** A shortest sequence of edits from [l1] to [l2]: equal heads are kept,
    and of deleting the head of [l1] and inserting the head of [l2] the
    cheaper one is taken, the deletion when they cost the same. *)
Fixpoint editOps (l1 : list Z) : list Z -> list EditOp :=
  fix from2 (l2 : list Z) : list EditOp :=
    match l1, l2 with
    | [], _ => (fun _ => Insert) <$> l2
    | _, [] => (fun _ => Delete) <$> l1
    | x :: l1', y :: l2' =>
        if x =? y then Keep :: editOps l1' l2'
        else
          let deleted := Delete :: editOps l1' l2 in
          let inserted := Insert :: from2 l2' in
          if (editCost deleted <=? editCost inserted)%nat
          then deleted else inserted
    end.

(** The runs of deletions and insertions, as diffs; [run] is where the run
    that [i] and [j] are in has started. *)
Fixpoint diffsOfOps (ops : list EditOp) (i j : Z) (run : option (Z * Z))
    : list SequenceDiff :=
  match ops with
  | [] =>
      match run with
      | Some (i0, j0) => [mkSequenceDiff (mkOffsetRange i0 i) (mkOffsetRange j0 j)]
      | None => []
      end
  | Keep :: ops' =>
      match run with
      | Some (i0, j0) =>
          mkSequenceDiff (mkOffsetRange i0 i) (mkOffsetRange j0 j)
          :: diffsOfOps ops' (i + 1) (j + 1) None
      | None => diffsOfOps ops' (i + 1) (j + 1) None
      end
  | Delete :: ops' =>
      diffsOfOps ops' (i + 1) j (Some (default (i, j) run))
  | Insert :: ops' =>
      diffsOfOps ops' i (j + 1) (Some (default (i, j) run))
  end.

Definition shortestEditScript (l1 l2 : list Z) : list SequenceDiff :=
  diffsOfOps (editOps l1 l2) 0 0 None.

Definition elementsOf (s : ISequence) : list Z :=
  match s with
  | ofLineSequence s => trimmedHash s
  | ofLinesSliceCharSequence s => Z.of_N <$> elements s
  end.

(** Kernels that return a shortest edit script, and post-processors that
    leave it as it is. *)
Definition shortestEdits : Collaborators :=
  mkCollaborators
    (fun s1 s2 _ _ =>
       mkDiffAlgorithmResult
         (shortestEditScript (elementsOf s1) (elementsOf s2)) false)
    (fun s1 s2 _ =>
       mkDiffAlgorithmResult
         (shortestEditScript (elementsOf s1) (elementsOf s2)) false)
    (fun _ _ diffs => diffs) (fun _ _ diffs => diffs)
    (fun _ _ diffs => diffs) (fun _ _ diffs => diffs)
    (fun _ => InfiniteTimeout).

Definition noSlice : LinesSliceCharSequence :=
  mkLinesSliceCharSequence [] (mkOffsetRange 0 0) true [] [] [].

(** A change of the first line, a change of the white space of the last
    line of the original, and a line added after it. *)
Module LastLineWhitespace.
Definition originalLines : list jsstring :=
  [codes "x"; codes "a"; codes "b"; codes " c"].
Definition modifiedLines : list jsstring :=
  [codes "y"; codes "a"; codes "b"; codes "c"; codes "d"].
Definition options : ILinesDiffComputerOptions := mkOptions false 0 false.

Definition sequence1 : LineSequence :=
  mkLineSequence (hashLines ∅ originalLines).1 originalLines.
Definition sequence2 : LineSequence :=
  mkLineSequence (hashLines (hashLines ∅ originalLines).2 modifiedLines).1
    modifiedLines.

(** The slices of the three refinements: of the first lines, of the fourth
    lines, and of the line added at the end. *)
Definition slice (lines : list jsstring) (s e : Z) : LinesSliceCharSequence :=
  default noSlice (newLinesSliceCharSequence lines (mkOffsetRange s e) true).
End LastLineWhitespace.

(** A line of three words. *)
Module ThreeWords.
Definition lines : list jsstring := [codes "let x1 = foo"].
Definition slice : LinesSliceCharSequence :=
  default noSlice (newLinesSliceCharSequence lines (mkOffsetRange 0 1) true).
End ThreeWords.

(** Kernels that have run out of time: they return the one diff of
    everything against everything, as a kernel does when its timeout is
    over, and say that they have hit the timeout. *)
Definition trivialTimedOut (s1 s2 : ISequence) : DiffAlgorithmResult :=
  mkDiffAlgorithmResult
    [mkSequenceDiff (mkOffsetRange 0 (ISequence_length s1))
       (mkOffsetRange 0 (ISequence_length s2))]
    true.

Definition timedOut : Collaborators :=
  mkCollaborators
    (fun s1 s2 _ _ => trivialTimedOut s1 s2)
    (fun s1 s2 _ => trivialTimedOut s1 s2)
    (fun _ _ diffs => diffs) (fun _ _ diffs => diffs)
    (fun _ _ diffs => diffs) (fun _ _ diffs => diffs)
    (fun _ _ => false).

(** * Properties *)

(** ** Reading arrays *)

Lemma at_index_nat {A} (l : list A) (i : nat) : at_index l (Z.of_nat i) = l !! i.
Proof.
  unfold at_index. destruct (Z.ltb_spec (Z.of_nat i) 0); [lia|].
  by rewrite Nat2Z.id.
Qed.

Lemma at_index_Some {A} (l : list A) (i : Z) x :
  at_index l i = Some x -> 0 <= i < arrlen l /\ l !! Z.to_nat i = Some x.
Proof.
  unfold at_index, arrlen. destruct (Z.ltb_spec i 0) as [|Hi]; [discriminate|].
  intros Hx. split; [|exact Hx]. apply lookup_lt_Some in Hx. lia.
Qed.

Lemma at_index_is_Some {A} (l : list A) (i : Z) :
  0 <= i < arrlen l -> is_Some (at_index l i).
Proof.
  unfold at_index, arrlen. intros Hi. destruct (Z.ltb_spec i 0); [lia|].
  apply lookup_lt_is_Some. lia.
Qed.

Lemma seqZ_succ a (n : nat) :
  seqZ a (Z.of_nat (S n)) = a :: seqZ (a + 1) (Z.of_nat n).
Proof.
  rewrite seqZ_cons by lia. f_equal. f_equal; lia.
Qed.


(** ** Loops and options *)

Lemma bind_Some {A B} (x : A) (f : A -> option B) : Some x ≫= f = f x.
Proof. reflexivity. Qed.

Lemma forEachM_cons {S A} (body : S -> A -> option S) s x xs :
  forEachM body s (x :: xs) = body s x ≫= fun s' => forEachM body s' xs.
Proof. reflexivity. Qed.

Lemma forEachM_app {S A} (body : S -> A -> option S) xs ys : forall s,
  forEachM body s (xs ++ ys)
  = forEachM body s xs ≫= fun s' => forEachM body s' ys.
Proof.
  induction xs as [|x xs IH]; intros s; [reflexivity|].
  simpl. destruct (body s x); simpl; [apply IH | reflexivity].
Qed.

(** ** Arrays *)

Lemma checkAdjacentItems_cons {A} (R : A -> A -> Prop) a b l :
  checkAdjacentItems R (a :: b :: l) <-> R a b /\ checkAdjacentItems R (b :: l).
Proof. reflexivity. Qed.

Lemma checkAdjacentItems_snoc {A} (R : A -> A -> Prop) l x :
  checkAdjacentItems R (l ++ [x]) <->
  checkAdjacentItems R l /\ (forall y, last l = Some y -> R y x).
Proof.
  induction l as [|a [|b l] IH]; simpl.
  - split; [intros _; split; [exact I | discriminate] | tauto].
  - split.
    + intros [H _]. split; [exact I|]. intros y [= <-]. exact H.
    + intros [_ H]. split; [apply H; reflexivity | exact I].
  - simpl in IH. rewrite IH. tauto.
Qed.

Lemma set_last_snoc {A} (l : list A) y x : set_last (l ++ [y]) x = l ++ [x].
Proof.
  unfold set_last. destruct (l ++ [y]) eqn:E.
  - destruct l; discriminate.
  - rewrite <- E, removelast_last. reflexivity.
Qed.

Lemma last_Some_snoc {A} (l : list A) y :
  last l = Some y -> exists l', l = l' ++ [y].
Proof.
  intros H. destruct (decide (l = [])) as [->|Hne]; [discriminate|].
  destruct (exists_last Hne) as [l' [z ->]].
  rewrite last_snoc in H. injection H as ->. eauto.
Qed.

(** ** [mergeSequenceDiffs] *)

Lemma merge_inv_weaken lo lo' result :
  lo <= lo' -> merge_inv lo result -> merge_inv lo' result.
Proof.
  intros Hle (Hs & Hp & Hl). repeat split; auto.
  intros l Hlast. specialize (Hl l Hlast). lia.
Qed.

Lemma mergeSequenceDiffs_push_inv result next :
  merge_inv (seq1Start next) result ->
  merge_inv (seq1Start next) (mergeSequenceDiffs_push result next).
Proof.
  intros (Hs & Hp & Hl). unfold mergeSequenceDiffs_push.
  destruct (last result) as [l|] eqn:Hlast.
  - specialize (Hl l eq_refl).
    destruct (last_Some_snoc _ _ Hlast) as [pre ->].
    destruct (Z.geb_spec (endExclusive (seq1Range l)) (start (seq1Range next)))
      as [Hge|Hlt].
    + rewrite set_last_snoc.
      assert (Hst : seq1Start (SequenceDiff.join l next) = seq1Start l).
      { unfold seq1Start in *. simpl. lia. }
      unfold merge_inv, sortedBySeq1Start, separatedOnSeq1 in *.
      rewrite checkAdjacentItems_snoc in Hs, Hp.
      rewrite !checkAdjacentItems_snoc.
      repeat split.
      * tauto.
      * intros y Hy. rewrite Hst. apply Hs, Hy.
      * tauto.
      * intros y Hy. rewrite Hst. apply Hp, Hy.
      * intros l'. rewrite last_snoc. intros [= <-]. lia.
    + unfold merge_inv, sortedBySeq1Start, separatedOnSeq1 in *.
      repeat split.
      * rewrite checkAdjacentItems_snoc. split; [assumption|].
        intros y Hy. rewrite Hlast in Hy. injection Hy as <-. exact Hl.
      * rewrite checkAdjacentItems_snoc. split; [assumption|].
        intros y Hy. rewrite Hlast in Hy. injection Hy as <-.
        unfold seq1End, seq1Start. lia.
      * intros l'. rewrite last_snoc. intros [= <-]. lia.
  - destruct result as [|a result]; [|destruct (last_is_Some (a :: result)) as [_ H];
      destruct H as [x Hx]; [discriminate | congruence]].
    repeat split; simpl; auto. intros l [= <-]. lia.
Qed.

Lemma sortedBySeq1Start_tail d l :
  sortedBySeq1Start (d :: l) -> sortedBySeq1Start l.
Proof. destruct l; simpl; [auto | unfold sortedBySeq1Start; simpl; tauto]. Qed.

Lemma sortedBySeq1Start_head d d' l :
  sortedBySeq1Start (d :: d' :: l) -> seq1Start d <= seq1Start d'.
Proof. unfold sortedBySeq1Start. simpl. tauto. Qed.

Lemma head_at_least_tail d l :
  sortedBySeq1Start (d :: l) -> head_at_least (seq1Start d) l.
Proof.
  intros Hs d' Hd'. destruct l as [|x l]; [discriminate|].
  injection Hd' as <-. eapply sortedBySeq1Start_head, Hs.
Qed.

Lemma mergeSequenceDiffs_loop_inv l1 : forall l2 result lo,
  sortedBySeq1Start l1 -> sortedBySeq1Start l2 ->
  head_at_least lo l1 -> head_at_least lo l2 ->
  merge_inv lo result ->
  exists lo', merge_inv lo' (mergeSequenceDiffs_loop l1 l2 result).
Proof.
  induction l1 as [|sd1 rest1 IH1].
  - induction l2 as [|sd2 rest2 IH2]; intros result lo Hs1 Hs2 Hh1 Hh2 Hinv.
    + simpl. eauto.
    + simpl. apply (IH2 _ (seq1Start sd2)).
      * exact I.
      * eapply sortedBySeq1Start_tail, Hs2.
      * intros d [=].
      * apply head_at_least_tail, Hs2.
      * apply mergeSequenceDiffs_push_inv.
        eapply merge_inv_weaken; [|exact Hinv]. apply Hh2. reflexivity.
  - induction l2 as [|sd2 rest2 IH2]; intros result lo Hs1 Hs2 Hh1 Hh2 Hinv.
    + simpl. apply (IH1 _ _ (seq1Start sd1)).
      * eapply sortedBySeq1Start_tail, Hs1.
      * exact I.
      * apply head_at_least_tail, Hs1.
      * intros d [=].
      * apply mergeSequenceDiffs_push_inv.
        eapply merge_inv_weaken; [|exact Hinv]. apply Hh1. reflexivity.
    + simpl.
      destruct (Z.ltb_spec (start (seq1Range sd1)) (start (seq1Range sd2)))
        as [Hlt|Hge].
      * apply (IH1 _ _ (seq1Start sd1)).
        -- eapply sortedBySeq1Start_tail, Hs1.
        -- exact Hs2.
        -- apply head_at_least_tail, Hs1.
        -- intros d [= <-]. unfold seq1Start. lia.
        -- apply mergeSequenceDiffs_push_inv.
           eapply merge_inv_weaken; [|exact Hinv]. apply Hh1. reflexivity.
      * apply (IH2 _ (seq1Start sd2)).
        -- exact Hs1.
        -- eapply sortedBySeq1Start_tail, Hs2.
        -- intros d [= <-]. unfold seq1Start. lia.
        -- apply head_at_least_tail, Hs2.
        -- apply mergeSequenceDiffs_push_inv.
           eapply merge_inv_weaken; [|exact Hinv]. apply Hh2. reflexivity.
Qed.

(** C10: for two arrays of sequence diffs that are each sorted by
    [seq1Range.start], the output of [mergeSequenceDiffs] is sorted by
    [seq1Range.start], and of any two neighbours of it the earlier one's
    [seq1Range.endExclusive] is strictly less than the later one's
    [seq1Range.start]. *)
Theorem mergeSequenceDiffs_sorted_separated
    (sequenceDiffs1 sequenceDiffs2 : list SequenceDiff) :
  sortedBySeq1Start sequenceDiffs1 -> sortedBySeq1Start sequenceDiffs2 ->
  sortedBySeq1Start (mergeSequenceDiffs sequenceDiffs1 sequenceDiffs2)
  /\ separatedOnSeq1 (mergeSequenceDiffs sequenceDiffs1 sequenceDiffs2).
Proof.
  intros Hs1 Hs2. unfold mergeSequenceDiffs.
  set (lo := match sequenceDiffs1, sequenceDiffs2 with
             | d1 :: _, d2 :: _ => Z.min (seq1Start d1) (seq1Start d2)
             | d1 :: _, [] => seq1Start d1
             | [], d2 :: _ => seq1Start d2
             | [], [] => 0
             end).
  destruct (mergeSequenceDiffs_loop_inv sequenceDiffs1 sequenceDiffs2 [] lo)
    as (lo' & Hs & Hp & _); auto.
  - intros d Hd. subst lo. destruct sequenceDiffs1; [discriminate|].
    injection Hd as <-. destruct sequenceDiffs2; lia.
  - intros d Hd. subst lo. destruct sequenceDiffs2; [discriminate|].
    injection Hd as <-. destruct sequenceDiffs1; lia.
  - repeat split; simpl; auto. intros l [=].
Qed.

Lemma mergeSequenceDiffs_sorted_separated_witness :
  mergeSequenceDiffs [sd 0 2 0 1; sd 7 8 6 9] [sd 2 4 1 1; sd 6 6 3 5]
  = [sd 0 4 0 1; sd 6 6 3 5; sd 7 8 6 9]
  /\ sortedBySeq1Start (mergeSequenceDiffs [sd 0 2 0 1; sd 7 8 6 9]
                                            [sd 2 4 1 1; sd 6 6 3 5])
  /\ separatedOnSeq1 (mergeSequenceDiffs [sd 0 2 0 1; sd 7 8 6 9]
                                          [sd 2 4 1 1; sd 6 6 3 5]).
Proof.
  split; [reflexivity|].
  apply (mergeSequenceDiffs_sorted_separated
           [sd 0 2 0 1; sd 7 8 6 9] [sd 2 4 1 1; sd 6 6 3 5]);
    unfold sortedBySeq1Start, seq1Start; simpl; lia.
Defined.

(** ** [getLineRangeMapping] *)

Lemma LineRange_new_Some s e :
  s <= e -> LineRange.new s e = Some (mkLineRange s e).
Proof.
  intros H. unfold LineRange.new.
  destruct (Z.ltb_spec e s); [lia | reflexivity].
Qed.

(** C9: when the original and the modified range of a range mapping both end
    at column 1 and the range is not empty (on each side the start line is
    not after the end line), [getLineRangeMapping] returns line ranges whose
    [endLineNumberExclusive] is one less than the default [endLine + 1]. *)
Theorem getLineRangeMapping_trailing_newline
    (rangeMapping : RangeMapping) (originalLines modifiedLines : list jsstring) :
  range_endColumn (modifiedRange rangeMapping) = 1 ->
  range_endColumn (originalRange rangeMapping) = 1 ->
  range_startLineNumber (originalRange rangeMapping)
    <= range_endLineNumber (originalRange rangeMapping) ->
  range_startLineNumber (modifiedRange rangeMapping)
    <= range_endLineNumber (modifiedRange rangeMapping) ->
  is_Some (at_index originalLines
             (range_startLineNumber (originalRange rangeMapping) - 1)) ->
  is_Some (at_index modifiedLines
             (range_startLineNumber (modifiedRange rangeMapping) - 1)) ->
  exists r,
    getLineRangeMapping rangeMapping originalLines modifiedLines = Some r
    /\ endLineNumberExclusive (original r)
       = range_endLineNumber (originalRange rangeMapping) + 1 - 1
    /\ endLineNumberExclusive (modified r)
       = range_endLineNumber (modifiedRange rangeMapping) + 1 - 1.
Proof.
  destruct rangeMapping as [[osl osc oel oec] [msl msc mel mec]]; simpl.
  intros -> -> Ho Hm [ol Hol] [ml Hml].
  unfold getLineRangeMapping; simpl.
  rewrite Hml; simpl.
  replace (osl + 0 <=? oel) with true by (symmetry; apply Z.leb_le; lia).
  replace (msl + 0 <=? mel) with true by (symmetry; apply Z.leb_le; lia).
  simpl.
  destruct (msc - 1 >=? strlen ml); simpl.
  - rewrite Hol; simpl.
    destruct (osc - 1 >=? strlen ol); simpl.
    + destruct (Z.leb_spec osl (oel + -1)); simpl.
      * destruct (Z.leb_spec msl (mel + -1)); simpl.
        -- rewrite !LineRange_new_Some by lia. simpl.
           eexists; split; [reflexivity|]. simpl. lia.
        -- rewrite !LineRange_new_Some by lia. simpl.
           eexists; split; [reflexivity|]. simpl. lia.
      * rewrite !LineRange_new_Some by lia. simpl.
        eexists; split; [reflexivity|]. simpl. lia.
    + rewrite !LineRange_new_Some by lia. simpl.
      eexists; split; [reflexivity|]. simpl. lia.
  - rewrite !LineRange_new_Some by lia. simpl.
    eexists; split; [reflexivity|]. simpl. lia.
Qed.

Lemma getLineRangeMapping_trailing_newline_witness :
  exists r,
    getLineRangeMapping (rm 2 1 3 1 2 1 3 1)
      [codes "a"; codes "b"; codes "c"] [codes "a"; codes "x"; codes "c"]
    = Some r
    /\ endLineNumberExclusive (original r) = 3 + 1 - 1
    /\ endLineNumberExclusive (modified r) = 3 + 1 - 1.
Proof.
  apply (getLineRangeMapping_trailing_newline (rm 2 1 3 1 2 1 3 1)
           [codes "a"; codes "b"; codes "c"] [codes "a"; codes "x"; codes "c"]);
    simpl; try lia; eexists; reflexivity.
Defined.

(** ** [lineRangeMappingFromRangeMappings] *)

Lemma getLineRangeMapping_inner rangeMapping originalLines modifiedLines r :
  getLineRangeMapping rangeMapping originalLines modifiedLines = Some r ->
  innerChanges r = [rangeMapping].
Proof.
  unfold getLineRangeMapping. intros H.
  repeat match type of H with
         | (?x ≫= _) = Some _ =>
             destruct x eqn:?; simpl in H; [|discriminate H]
         end.
  by injection H as <-.
Qed.

Lemma mapM_cons_bind {A B} (f : A -> option B) x l :
  mapM f (x :: l) = y ← f x; k ← mapM f l; Some (y :: k).
Proof. reflexivity. Qed.

Lemma changeOfGroup_firstGroup a g l :
  head g = Some a -> last g = Some l ->
  Forall (fun a => is_Some (head (innerChanges a))) g ->
  startLineNumber (original a) <= startLineNumber (original l) ->
  endLineNumberExclusive (original a) <= endLineNumberExclusive (original l) ->
  startLineNumber (modified a) <= startLineNumber (modified l) ->
  endLineNumberExclusive (modified a) <= endLineNumberExclusive (modified l) ->
  exists c, changeOfGroup g = Some c /\ firstGroup a g c.
Proof.
  intros Hhead Hlast Hinner Hos Hoe Hms Hme. unfold changeOfGroup.
  rewrite Hhead, Hlast. simpl.
  destruct (proj2 (mapM_is_Some (fun a => head (innerChanges a)) g) Hinner)
    as [inner ->].
  simpl. eexists; split; [reflexivity|].
  exists l. repeat split; auto; simpl; unfold LineRange.join; f_equal; lia.
Qed.

Lemma groupAdjacentBy_changes (mapped : list DetailedLineRangeMapping) :
  Forall (fun a => is_Some (head (innerChanges a))) mapped ->
  checkAdjacentItems inSequence (lineRangeMapping <$> mapped) ->
  exists changes,
    mapM changeOfGroup (groupAdjacentBy shouldBeGrouped mapped) = Some changes
    /\ checkAdjacentItems lineBoundaryInvariant (lineRangeMapping <$> changes)
    /\ match mapped with
       | [] => changes = []
       | a :: _ =>
           exists g gs c cs,
             groupAdjacentBy shouldBeGrouped mapped = g :: gs
             /\ changes = c :: cs /\ firstGroup a g c
       end.
Proof.
  induction mapped as [|a rest IH]; intros Hinner Hseq.
  - exists []. repeat split.
  - apply Forall_cons in Hinner as [Ha Hrest].
    destruct rest as [|b rest'].
    + simpl.
      destruct (changeOfGroup_firstGroup a [a] a) as (c & Hc & Hfirst);
        [reflexivity | reflexivity | by repeat constructor
        | lia | lia | lia | lia |].
      rewrite Hc. simpl. exists [c]. repeat split.
      exists [a], [], c, []. auto.
    + rewrite !fmap_cons in Hseq. apply checkAdjacentItems_cons in Hseq
        as [Hab Hseq]. rewrite <- fmap_cons in Hseq.
      destruct (IH Hrest Hseq)
        as (changes & Hchanges & Hinv & g & gs & c & cs & Hg & -> & Hfirst).
      destruct Hab as (Hwfo & Hwfm & Hos & Hoe & Hms & Hme & Hgap).
      destruct Hfirst
        as (l & Hhead & Hlast & Hing & Hlos & Hloe & Hlms & Hlme & Hco & Hcm).
      change (groupAdjacentBy shouldBeGrouped (a :: b :: rest'))
        with (match groupAdjacentBy shouldBeGrouped (b :: rest') with
              | group :: groups =>
                  if shouldBeGrouped a b
                  then (a :: group) :: groups
                  else [a] :: group :: groups
              | [] => [[a]]
              end).
      rewrite Hg in *. rewrite mapM_cons_bind in Hchanges.
      destruct (changeOfGroup g) as [c0|] eqn:Hc0; [|discriminate].
      simpl in Hchanges.
      destruct (mapM changeOfGroup gs) as [cs0|] eqn:Hcs0; [|discriminate].
      simpl in Hchanges. injection Hchanges as <- <-.
      destruct (shouldBeGrouped a b) eqn:Hgrouped.
      * assert (Hlast' : last (a :: g) = Some l).
        { destruct g; [discriminate | exact Hlast]. }
        destruct (changeOfGroup_firstGroup a (a :: g) l)
          as (c' & Hc' & Hfirst');
          [reflexivity | exact Hlast' | by constructor | lia | lia | lia | lia |].
        rewrite mapM_cons_bind, Hc', Hcs0. simpl.
        exists (c' :: cs0). split; [reflexivity|]. split.
        -- destruct Hfirst' as (l' & _ & Hl' & _ & _ & _ & _ & _ & Hco' & Hcm').
           rewrite Hlast' in Hl'. injection Hl' as <-.
           destruct cs0 as [|c2 cs0]; [exact I|].
           rewrite !fmap_cons in Hinv |- *.
           apply checkAdjacentItems_cons in Hinv as [Hc02 Hinv].
           apply checkAdjacentItems_cons. split; [|exact Hinv].
           unfold lineBoundaryInvariant in *.
           rewrite Hco', Hcm'. rewrite Hco, Hcm in Hc02. exact Hc02.
        -- exists (a :: g), gs, c', cs0. auto.
      * destruct (changeOfGroup_firstGroup a [a] a) as (c' & Hc' & Hfirst');
          [reflexivity | reflexivity | by repeat constructor
          | lia | lia | lia | lia |].
        rewrite !mapM_cons_bind, Hc', Hc0, Hcs0. simpl.
        exists (c' :: c0 :: cs0). split; [reflexivity|]. split.
        -- rewrite !fmap_cons. apply checkAdjacentItems_cons.
           split; [|by rewrite <- fmap_cons].
           destruct Hfirst' as (l' & _ & [= <-] & _ & _ & _ & _ & _ & Hco' & Hcm').
           unfold lineBoundaryInvariant. rewrite Hco', Hcm', Hco, Hcm. simpl.
           unfold shouldBeGrouped, LineRange.overlapOrTouch in Hgrouped.
           apply orb_false_iff in Hgrouped as [Ho Hm].
           apply andb_false_iff in Ho, Hm.
           unfold LineRange.wf in *.
           repeat split; [lia | |].
           ++ destruct Ho as [Ho|Ho]; apply Z.leb_gt in Ho; lia.
           ++ destruct Hm as [Hm|Hm]; apply Z.leb_gt in Hm; lia.
        -- exists [a], (g :: gs), c', (c0 :: cs0). auto.
Qed.

(** The changes that [lineRangeMappingFromRangeMappings] returns satisfy the
    line boundary invariant that it asserts, when the line range mappings
    that [getLineRangeMapping] derives from the alignments follow one
    another as those of a diff do. *)
Theorem lineRangeMappingFromRangeMappings_invariant
    (alignments : list RangeMapping) (originalLines modifiedLines : list jsstring)
    (dontAssertStartLine : bool) (mapped : list DetailedLineRangeMapping) :
  mapM (fun a => getLineRangeMapping a originalLines modifiedLines) alignments
  = Some mapped ->
  checkAdjacentItems inSequence (lineRangeMapping <$> mapped) ->
  exists changes,
    lineRangeMappingFromRangeMappings alignments originalLines modifiedLines
      dontAssertStartLine = Some changes
    /\ checkAdjacentItems lineBoundaryInvariant (lineRangeMapping <$> changes).
Proof.
  intros Hmapped Hseq. unfold lineRangeMappingFromRangeMappings.
  rewrite Hmapped. simpl.
  destruct (groupAdjacentBy_changes mapped) as (changes & -> & Hinv & _);
    [|exact Hseq|eauto].
  apply mapM_Some in Hmapped. rewrite Forall_forall. intros r Hr.
  apply list_elem_of_lookup in Hr as [i Hi].
  destruct (Forall2_lookup_r _ _ _ _ _ Hmapped Hi) as (a & _ & Ha).
  apply getLineRangeMapping_inner in Ha. rewrite Ha. by eexists.
Qed.

Lemma lineRangeMappingFromRangeMappings_invariant_witness :
  exists changes,
    lineRangeMappingFromRangeMappings
      [rm 1 1 1 2 1 1 1 2; rm 3 1 3 2 3 1 3 3]
      [codes "a"; codes "b"; codes "c"] [codes "x"; codes "b"; codes "yz"]
      false = Some changes
    /\ checkAdjacentItems lineBoundaryInvariant (lineRangeMapping <$> changes).
Proof.
  apply (lineRangeMappingFromRangeMappings_invariant
           [rm 1 1 1 2 1 1 1 2; rm 3 1 3 2 3 1 3 3]
           [codes "a"; codes "b"; codes "c"] [codes "x"; codes "b"; codes "yz"]
           false
           [newDetailedLineRangeMapping (mkLineRange 1 2) (mkLineRange 1 2)
              [rm 1 1 1 2 1 1 1 2];
            newDetailedLineRangeMapping (mkLineRange 3 4) (mkLineRange 3 4)
              [rm 3 1 3 2 3 1 3 3]]).
  - vm_compute. reflexivity.
  - simpl. unfold inSequence, LineRange.wf. simpl. lia.
Defined.

(** ** Binary search *)

Section BinarySearch.
Context {A : Type} (array : list A) (predicate : option A -> bool).

(** [predicate] holds on a prefix of [array] and nowhere else. *)
Hypothesis monotonous : forall x y,
  0 <= x <= y -> y < arrlen array ->
  predicate (at_index array y) = true -> predicate (at_index array x) = true.

Lemma findLastIdxMonotonous_loop_fuel fuel : forall i j,
  0 <= i <= j -> j <= arrlen array -> j - i <= Z.of_nat fuel ->
  (forall idx, 0 <= idx < i -> predicate (at_index array idx) = true) ->
  (forall idx, j <= idx < arrlen array ->
     predicate (at_index array idx) = false) ->
  isLastIdx array predicate
  (findLastIdxMonotonous_loop fuel array predicate i j).
Proof.
  induction fuel as [|fuel IH]; intros i j Hij Hj Hfuel Hlo Hhi; simpl.
  - assert (i = j) as -> by lia.
    repeat split; try lia.
    + intros idx ?. apply Hlo. lia.
    + intros idx ?. apply Hhi. lia.
  - destruct (Z.ltb_spec i j) as [Hlt|Hge].
    + assert (Hk : i <= (i + j) / 2 < j).
      { split; [apply Z.div_le_lower_bound | apply Z.div_lt_upper_bound]; lia. }
      destruct (predicate (at_index array ((i + j) / 2))) eqn:Hp.
      * apply IH; try lia; [|exact Hhi].
        intros idx Hidx. apply (monotonous idx ((i + j) / 2)); [lia | lia | exact Hp].
      * apply IH; try lia; [exact Hlo|].
        intros idx Hidx.
        destruct (predicate (at_index array idx)) eqn:Hp'; [|reflexivity].
        rewrite <- Hp. symmetry.
        apply (monotonous ((i + j) / 2) idx); [lia | lia | exact Hp'].
    + assert (i = j) as -> by lia.
      repeat split; try lia.
      * intros idx ?. apply Hlo. lia.
      * intros idx ?. apply Hhi. lia.
Qed.

Lemma findLastIdxMonotonous_spec :
  isLastIdx array predicate (findLastIdxMonotonous array predicate).
Proof.
  unfold findLastIdxMonotonous.
  apply findLastIdxMonotonous_loop_fuel; unfold arrlen; try lia.
Qed.
End BinarySearch.

(** ** [LinesSliceCharSequence]: the offset tables *)

Lemma increasing_snoc fs v :
  increasing fs -> (forall f, f ∈ fs -> f < v) -> increasing (fs ++ [v]).
Proof.
  intros Hinc Hv x y fx fy Hxy Hx Hy.
  destruct (decide (y < length fs)%nat) as [Hy'|Hy'].
  - rewrite lookup_app_l in Hx, Hy by lia. eauto.
  - assert (y = length fs) as ->.
    { apply lookup_lt_Some in Hy. rewrite length_app in Hy. simpl in Hy. lia. }
    rewrite lookup_app_l in Hx by lia.
    rewrite lookup_app_r, Nat.sub_diag in Hy by lia. injection Hy as <-.
    apply Hv. eapply list_elem_of_lookup_2, Hx.
Qed.

Lemma arr_set_snoc {A} (arr : list (option A)) (v : A) :
  arr_set arr (length arr) v = arr ++ [Some v].
Proof.
  unfold arr_set. destruct (Nat.ltb_spec (length arr) (length arr)); [lia|].
  by rewrite Nat.sub_diag.
Qed.

Lemma tables_inv_post b t : tables_inv b t -> tables_post b t.
Proof.
  intros (fs & ? & ? & ? & ? & ? & ?). exists fs. repeat split; auto; lia.
Qed.

Lemma LinesSliceCharSequence_line_inv lines start0 cws b t i :
  tables_inv b t -> i = start0 + Z.of_nat t -> 0 <= start0 ->
  i < arrlen lines - 1 ->
  exists b', LinesSliceCharSequence_line lines start0 cws b i = Some b'
             /\ tables_inv b' (S t).
Proof.
  intros (fs & Hfs & Hlen & Hinc & H0 & Hle & Hadd) -> Hs Hi.
  unfold LinesSliceCharSequence_line.
  destruct (at_index_is_Some lines (start0 + Z.of_nat t)) as [line ->];
    [lia|]. simpl.
  destruct (if build_trimFirstLineFully b then _ else _) as [line' offset].
  destruct (Z.ltb_spec (start0 + Z.of_nat t) (arrlen lines - 1)); [|lia].
  eexists; split; [reflexivity|].
  exists (fs ++ [arrlen ((build_elements b ++ line') ++ [CharCode.LineFeed])]).
  simpl. repeat split.
  - replace (Z.to_nat (start0 + Z.of_nat t - start0 + 1)) with (S t) by lia.
    rewrite Hfs, fmap_app. simpl.
    replace (S t) with (length (Some <$> fs)) by (rewrite length_fmap; lia).
    apply arr_set_snoc.
  - rewrite length_app. simpl. lia.
  - apply increasing_snoc; [exact Hinc|].
    intros f Hf. specialize (Hle f Hf). unfold arrlen in *.
    rewrite !length_app. simpl. lia.
  - rewrite lookup_app_l by lia. exact H0.
  - intros f Hf. apply elem_of_app in Hf as [Hf|Hf].
    + specialize (Hle f Hf). unfold arrlen in *. rewrite !length_app. lia.
    + apply list_elem_of_singleton in Hf as ->. lia.
  - rewrite length_app. simpl. lia.
Qed.

Lemma LinesSliceCharSequence_line_last lines start0 cws b t i :
  tables_inv b t -> i = arrlen lines - 1 -> 0 <= i ->
  exists b', LinesSliceCharSequence_line lines start0 cws b i = Some b'
             /\ tables_post b' (S t)
             /\ build_firstCharOffsetByLine b' = build_firstCharOffsetByLine b.
Proof.
  intros (fs & Hfs & Hlen & Hinc & H0 & Hle & Hadd) -> Hi.
  unfold LinesSliceCharSequence_line.
  destruct (at_index_is_Some lines (arrlen lines - 1)) as [line ->];
    [lia|]. simpl.
  destruct (if build_trimFirstLineFully b then _ else _) as [line' offset].
  destruct (Z.ltb_spec (arrlen lines - 1) (arrlen lines - 1)); [lia|].
  eexists; split; [reflexivity|]. split; [|reflexivity].
  exists fs. simpl. repeat split; auto; try lia.
  rewrite length_app. simpl. lia.
Qed.

Lemma LinesSliceCharSequence_loop_tables lines start0 cws (n : nat) :
  forall a b t,
    tables_inv b t -> a = start0 + Z.of_nat t -> 0 <= start0 ->
    a + Z.of_nat n <= arrlen lines ->
    exists b',
      forEachM (LinesSliceCharSequence_line lines start0 cws) b
        (seqZ a (Z.of_nat n)) = Some b'
      /\ tables_post b' (t + n).
Proof.
  induction n as [|n IH]; intros a b t Hinv Ha Hs Hn.
  - simpl. exists b. split; [reflexivity|].
    rewrite Nat.add_0_r. by apply tables_inv_post.
  - rewrite seqZ_succ. simpl.
    destruct (decide (a < arrlen lines - 1)) as [Hlt|Hge].
    + destruct (LinesSliceCharSequence_line_inv lines start0 cws b t a)
        as (b1 & -> & Hinv1); auto.
      simpl. destruct (IH (a + 1) b1 (S t)) as (b' & -> & Hpost); auto; try lia.
      exists b'. split; [reflexivity|].
      by replace (t + S n)%nat with (S t + n)%nat by lia.
    + assert (n = 0%nat) as -> by lia.
      destruct (LinesSliceCharSequence_line_last lines start0 cws b t a)
        as (b1 & -> & Hpost & _); auto; try lia.
      simpl. exists b1. split; [reflexivity|].
      by replace (t + 1)%nat with (S t) by lia.
Qed.

Lemma newLinesSliceCharSequence_tables lines range cws :
  0 <= start range <= endExclusive range -> endExclusive range <= arrlen lines ->
  exists s fs,
    newLinesSliceCharSequence lines range cws = Some s
    /\ lineRange s = effectiveLineRange lines range
    /\ firstCharOffsetByLine s = Some <$> fs
    /\ increasing fs
    /\ fs !! 0%nat = Some 0
    /\ (length fs <= length (additionalOffsetByLine s))%nat.
Proof.
  intros Hr Hle. unfold newLinesSliceCharSequence.
  fold (effectiveLineRange lines range).
  set (r := effectiveLineRange lines range).
  assert (Hr' : 0 <= start r <= endExclusive r /\ endExclusive r <= arrlen lines).
  { subst r. unfold effectiveLineRange.
    destruct (Z.gtb_spec (start range) 0); simpl; [|lia].
    destruct (endExclusive range >=? arrlen lines); simpl; lia. }
  destruct (LinesSliceCharSequence_loop_tables lines (start r) cws
              (Z.to_nat (endExclusive r - start r)) (start r)
              (mkSliceBuild [] (arr_set [] 0 0) []
                 ((start range >? 0) && (endExclusive range >=? arrlen lines)))
              0%nat)
    as (b & Hb & fs & Hfs & Hlen & Hinc & H0 & Hadd); try lia.
  - exists [0]. simpl. repeat split; auto.
    + intros x y fx fy Hxy Hx Hy. apply lookup_lt_Some in Hy. simpl in Hy. lia.
    + intros f Hf. apply list_elem_of_singleton in Hf as ->. unfold arrlen; simpl; lia.
  - rewrite Z2Nat.id in Hb by lia. rewrite Hb. simpl.
    eexists; exists fs. split; [reflexivity|]. simpl.
    repeat split; auto. rewrite length_app. simpl. lia.
Qed.

(** C7: on a slice built by the constructor, for every offset [o >= 0] (so
    for every offset in bounds), [translateOffset o] is the position of line
    [ls + k + 1] and column
    [o - firstCharOffsetByLine[k] + additionalOffsetByLine[k] + 1], where [k]
    is the greatest index with [firstCharOffsetByLine[k] <= o] and [ls] the
    start of the slice's effective line range; on an empty line range it is
    the position [(ls + 1, 1)]. *)
Theorem translateOffset_spec (lines : list jsstring) (range : OffsetRange)
    (cws : bool) (offset : Z) :
  0 <= start range <= endExclusive range -> endExclusive range <= arrlen lines ->
  0 <= offset ->
  exists s,
    newLinesSliceCharSequence lines range cws = Some s
    /\ lineRange s = effectiveLineRange lines range
    /\ if OffsetRange.isEmpty (lineRange s)
       then LinesSliceCharSequence.translateOffset s offset
            = Some (mkPosition (start (lineRange s) + 1) 1)
       else exists k first additional,
         arr_get (firstCharOffsetByLine s) k = Some first
         /\ at_index (additionalOffsetByLine s) k = Some additional
         /\ first <= offset
         /\ (forall k' first', arr_get (firstCharOffsetByLine s) k' = Some first'
               -> first' <= offset -> k' <= k)
         /\ LinesSliceCharSequence.translateOffset s offset
            = Some (mkPosition (start (lineRange s) + k + 1)
                               (offset - first + additional + 1)).
Proof.
  intros Hr Hle Ho.
  destruct (newLinesSliceCharSequence_tables lines range cws Hr Hle)
    as (s & fs & Hs & Hrange & Hfs & Hinc & H0 & Hlen).
  exists s. split; [exact Hs|]. split; [exact Hrange|].
  unfold LinesSliceCharSequence.translateOffset.
  destruct (OffsetRange.isEmpty (lineRange s)); [reflexivity|].
  set (p := fun value : option (option Z) =>
              match value with
              | Some (Some value) => value <=? offset
              | _ => false
              end).
  assert (Hget : forall (x : nat) fx, fs !! x = Some fx ->
                 at_index (firstCharOffsetByLine s) (Z.of_nat x) = Some (Some fx)).
  { intros x fx Hx. rewrite at_index_nat, Hfs, list_lookup_fmap, Hx. reflexivity. }
  assert (Hget' : forall x v, at_index (firstCharOffsetByLine s) x = Some v ->
                  exists fx, v = Some fx /\ fs !! Z.to_nat x = Some fx /\ 0 <= x).
  { intros x v Hx. apply at_index_Some in Hx as [Hx1 Hx2].
    rewrite Hfs, list_lookup_fmap in Hx2.
    destruct (fs !! Z.to_nat x) as [fx|]; [|discriminate].
    injection Hx2 as <-. exists fx. repeat split; lia. }
  assert (Hmono : forall x y, 0 <= x <= y -> y < arrlen (firstCharOffsetByLine s) ->
            p (at_index (firstCharOffsetByLine s) y) = true ->
            p (at_index (firstCharOffsetByLine s) x) = true).
  { intros x y Hxy Hy Hp.
    destruct (at_index (firstCharOffsetByLine s) y) as [vy|] eqn:Ey; [|discriminate].
    destruct (Hget' _ _ Ey) as (fy & -> & Hfy & _). simpl in Hp.
    destruct (at_index_is_Some (firstCharOffsetByLine s) x) as [vx Ex]; [lia|].
    rewrite Ex. destruct (Hget' _ _ Ex) as (fx & -> & Hfx & _). simpl.
    apply Z.leb_le in Hp. apply Z.leb_le.
    destruct (decide (x = y)) as [->|Hne]; [congruence|].
    assert (fx < fy); [|lia].
    apply (Hinc (Z.to_nat x) (Z.to_nat y)); [lia | assumption | assumption]. }
  destruct (findLastIdxMonotonous_spec (firstCharOffsetByLine s) p Hmono)
    as (Hb & Htrue & Hfalse).
  set (k := findLastIdxMonotonous (firstCharOffsetByLine s) p) in *.
  assert (Hk0 : 0 <= k).
  { destruct (Z.le_gt_cases 0 k) as [|Hneg]; [assumption|].
    specialize (Hfalse 0). pose proof (Hget 0%nat 0 H0) as Hg0.
    change (Z.of_nat 0) with 0 in Hg0.
    rewrite Hg0 in Hfalse. simpl in Hfalse.
    assert (Hlt : k < 0 < arrlen (firstCharOffsetByLine s)).
    { split; [lia|]. unfold arrlen. rewrite Hfs, length_fmap.
      apply lookup_lt_Some in H0. lia. }
    specialize (Hfalse Hlt). apply Z.leb_gt in Hfalse. lia. }
  destruct (at_index_is_Some (firstCharOffsetByLine s) k) as [vk Ek]; [lia|].
  destruct (Hget' _ _ Ek) as (fk & -> & Hfk & _).
  assert (Hpk : fk <= offset).
  { specialize (Htrue k). rewrite Ek in Htrue. simpl in Htrue.
    apply Z.leb_le, Htrue. lia. }
  destruct (at_index_is_Some (additionalOffsetByLine s) k) as [ak Eak].
  { unfold arrlen in *. rewrite Hfs, length_fmap in Hb. lia. }
  exists k, fk, ak. unfold arr_get. rewrite Ek, Eak. simpl.
  repeat split; auto.
  intros k' fk' Hk' Hle'.
  destruct (at_index (firstCharOffsetByLine s) k') as [v|] eqn:Ek'; [|discriminate].
  simpl in Hk'. subst v. destruct (Hget' _ _ Ek') as (? & [= <-] & Hfk' & Hk'0).
  destruct (Z.le_gt_cases k' k) as [|Hgt]; [assumption|].
  pose proof (at_index_Some _ _ _ Ek') as [Hb' _].
  specialize (Hfalse k'). rewrite Ek' in Hfalse. simpl in Hfalse.
  assert (Hf : (fk' <=? offset) = false) by (apply Hfalse; lia).
  apply Z.leb_gt in Hf. lia.
Qed.

Lemma translateOffset_spec_witness :
  exists s,
    newLinesSliceCharSequence [codes "ab"; codes "  cd "; codes "e"]
      (mkOffsetRange 1 2) false = Some s
    /\ lineRange s
       = effectiveLineRange [codes "ab"; codes "  cd "; codes "e"]
           (mkOffsetRange 1 2)
    /\ if OffsetRange.isEmpty (lineRange s)
       then LinesSliceCharSequence.translateOffset s 1
            = Some (mkPosition (start (lineRange s) + 1) 1)
       else exists k first additional,
         arr_get (firstCharOffsetByLine s) k = Some first
         /\ at_index (additionalOffsetByLine s) k = Some additional
         /\ first <= 1
         /\ (forall k' first', arr_get (firstCharOffsetByLine s) k' = Some first'
               -> first' <= 1 -> k' <= k)
         /\ LinesSliceCharSequence.translateOffset s 1
            = Some (mkPosition (start (lineRange s) + k + 1)
                               (1 - first + additional + 1)).
Proof.
  apply (translateOffset_spec [codes "ab"; codes "  cd "; codes "e"]
           (mkOffsetRange 1 2) false 1); unfold arrlen; simpl; lia.
Defined.

(** ** [LinesSliceCharSequence]: the line feeds of a slice *)

Lemma countLineFeeds_app l1 l2 :
  countLineFeeds (l1 ++ l2) = countLineFeeds l1 + countLineFeeds l2.
Proof.
  unfold countLineFeeds, arrlen. rewrite filter_app, length_app. lia.
Qed.

Lemma countLineFeeds_noLineFeed l : noLineFeed l -> countLineFeeds l = 0.
Proof.
  unfold noLineFeed, countLineFeeds, arrlen. induction 1 as [|c l Hc _ IH].
  - reflexivity.
  - rewrite filter_cons_False by assumption. exact IH.
Qed.

Lemma trimStart_noLineFeed l : noLineFeed l -> noLineFeed (trimStart l).
Proof.
  unfold noLineFeed. induction 1 as [|c l Hc Hl IH]; simpl.
  - constructor.
  - destruct (isWhiteSpace c); [exact IH | by constructor].
Qed.

Lemma trimEnd_noLineFeed l : noLineFeed l -> noLineFeed (trimEnd l).
Proof.
  unfold trimEnd, noLineFeed. intros H.
  apply Forall_reverse. apply trimStart_noLineFeed. by apply Forall_reverse.
Qed.

Lemma LinesSliceCharSequence_line_lineFeeds lines start0 cws b i :
  Forall noLineFeed lines -> 0 <= i < arrlen lines ->
  exists b', LinesSliceCharSequence_line lines start0 cws b i = Some b'
    /\ countLineFeeds (build_elements b')
       = countLineFeeds (build_elements b)
         + (if i <? arrlen lines - 1 then 1 else 0).
Proof.
  intros Hlines Hi. unfold LinesSliceCharSequence_line.
  destruct (at_index_is_Some lines i Hi) as [line Hline]. rewrite Hline. simpl.
  assert (Hnl : noLineFeed line).
  { apply at_index_Some in Hline as [_ Hline].
    eapply Forall_lookup_1 in Hlines; eauto. }
  assert (Hnl' : forall line' offset,
            (if build_trimFirstLineFully b then ([], strlen line)
             else if negb cws
                  then (trimEnd (trimStart line),
                        strlen line - strlen (trimStart line))
                  else (line, 0)) = (line', offset) -> noLineFeed line').
  { intros line' offset.
    destruct (build_trimFirstLineFully b); [intros [= <- _]; constructor|].
    destruct (negb cws); intros [= <- _]; [|assumption].
    by apply trimEnd_noLineFeed, trimStart_noLineFeed. }
  destruct (if build_trimFirstLineFully b then _ else _) as [line' offset].
  specialize (Hnl' line' offset eq_refl).
  destruct (i <? arrlen lines - 1); eexists; (split; [reflexivity|]); simpl.
  - rewrite !countLineFeeds_app, (countLineFeeds_noLineFeed line') by assumption.
    change (countLineFeeds [CharCode.LineFeed]) with 1. lia.
  - rewrite !countLineFeeds_app, (countLineFeeds_noLineFeed line') by assumption.
    lia.
Qed.

Lemma LinesSliceCharSequence_loop_lineFeeds lines start0 cws (n : nat) :
  forall a b,
    Forall noLineFeed lines -> 0 <= a -> a + Z.of_nat n <= arrlen lines ->
    exists b',
      forEachM (LinesSliceCharSequence_line lines start0 cws) b
        (seqZ a (Z.of_nat n)) = Some b'
      /\ countLineFeeds (build_elements b')
         = countLineFeeds (build_elements b)
           + Z.max 0 (Z.min (a + Z.of_nat n) (arrlen lines - 1) - a).
Proof.
  induction n as [|n IH]; intros a b Hlines Ha Hn.
  - simpl. exists b. split; [reflexivity | lia].
  - rewrite seqZ_succ. simpl.
    destruct (LinesSliceCharSequence_line_lineFeeds lines start0 cws b a)
      as (b1 & -> & Hb1); auto; try lia.
    simpl. destruct (IH (a + 1) b1) as (b' & -> & Hb'); auto; try lia.
    exists b'. split; [reflexivity|]. rewrite Hb', Hb1.
    destruct (Z.ltb_spec a (arrlen lines - 1)); lia.
Qed.

(** C8: on a document of at least one line, none of which holds a line feed,
    the slice over the whole document [[0, lines.length)] has exactly
    [lines.length - 1] line feeds among its elements, and a slice over any
    other range [[ls, le)] of the document has exactly [le - ls] of them
    (the edge rule included). *)
Theorem LinesSliceCharSequence_lineFeeds (lines : list jsstring)
    (range : OffsetRange) (cws : bool) :
  lines <> [] -> Forall noLineFeed lines ->
  0 <= start range <= endExclusive range -> endExclusive range <= arrlen lines ->
  exists s,
    newLinesSliceCharSequence lines range cws = Some s
    /\ (start range = 0 /\ endExclusive range = arrlen lines ->
        countLineFeeds (elements s) = arrlen lines - 1)
    /\ (~ (start range = 0 /\ endExclusive range = arrlen lines) ->
        countLineFeeds (elements s) = endExclusive range - start range).
Proof.
  intros Hne Hlines Hr Hle. unfold newLinesSliceCharSequence.
  assert (Hlen : 0 < arrlen lines).
  { destruct lines; [done | unfold arrlen; simpl; lia]. }
  fold (effectiveLineRange lines range).
  set (r := effectiveLineRange lines range).
  assert (Hr' : 0 <= start r <= endExclusive r /\ endExclusive r = endExclusive range
                /\ (start r = start range
                    \/ start r = start range - 1 /\ 0 < start range
                       /\ endExclusive range = arrlen lines)).
  { subst r. unfold effectiveLineRange.
    destruct (Z.gtb_spec (start range) 0); simpl; [|lia].
    destruct (Z.geb_spec (endExclusive range) (arrlen lines)); simpl; lia. }
  assert (Hedge : start r = start range ->
                  0 < start range -> endExclusive range < arrlen lines).
  { subst r. unfold effectiveLineRange.
    destruct (Z.gtb_spec (start range) 0); simpl; [|lia].
    destruct (Z.geb_spec (endExclusive range) (arrlen lines)); simpl; lia. }
  destruct (LinesSliceCharSequence_loop_lineFeeds lines (start r) cws
              (Z.to_nat (endExclusive r - start r)) (start r)
              (mkSliceBuild [] (arr_set [] 0 0) []
                 ((start range >? 0) && (endExclusive range >=? arrlen lines))))
    as (b & Hb & Hcount); auto; try lia.
  rewrite Z2Nat.id in Hb, Hcount by lia. rewrite Hb. simpl in *.
  eexists; split; [reflexivity|]. simpl. rewrite Hcount.
  change (countLineFeeds []) with 0.
  split; intros Hwhole; lia.
Qed.

Lemma LinesSliceCharSequence_lineFeeds_witness :
  exists s,
    newLinesSliceCharSequence [codes "ab"; codes "  cd "; codes "e"]
      (mkOffsetRange 1 3) false = Some s
    /\ (1 = 0 /\ 3 = arrlen [codes "ab"; codes "  cd "; codes "e"] ->
        countLineFeeds (elements s)
        = arrlen [codes "ab"; codes "  cd "; codes "e"] - 1)
    /\ (~ (1 = 0 /\ 3 = arrlen [codes "ab"; codes "  cd "; codes "e"]) ->
        countLineFeeds (elements s) = 3 - 1).
Proof.
  apply (LinesSliceCharSequence_lineFeeds
           [codes "ab"; codes "  cd "; codes "e"] (mkOffsetRange 1 3) false).
  - discriminate.
  - repeat constructor; discriminate.
  - simpl; lia.
  - unfold arrlen; simpl; lia.
Defined.

(** ** Arrays that are written by index *)

Lemma arr_get_nat {A} (arr : list (option A)) (i : nat) :
  arr_get arr (Z.of_nat i) = mjoin (arr !! i).
Proof. unfold arr_get. by rewrite at_index_nat. Qed.

Lemma arr_set_length {A} (arr : list (option A)) i (v : A) :
  length (arr_set arr i v) = Nat.max (length arr) (S i).
Proof.
  unfold arr_set. destruct (Nat.ltb_spec i (length arr)).
  - rewrite length_insert. lia.
  - rewrite !length_app, length_replicate. simpl. lia.
Qed.

Lemma arr_set_lookup {A} (arr : list (option A)) i (v : A) :
  mjoin (arr_set arr i v !! i) = Some v.
Proof.
  unfold arr_set. destruct (Nat.ltb_spec i (length arr)).
  - by rewrite list_lookup_insert_eq.
  - rewrite lookup_app_r by lia.
    rewrite lookup_app_r by (rewrite length_replicate; lia).
    rewrite length_replicate, Nat.sub_diag. reflexivity.
Qed.

Lemma arr_set_lookup_ne {A} (arr : list (option A)) i j (v : A) :
  i <> j -> mjoin (arr_set arr i v !! j) = mjoin (arr !! j).
Proof.
  intros Hne. unfold arr_set. destruct (Nat.ltb_spec i (length arr)).
  - by rewrite list_lookup_insert_ne.
  - destruct (decide (j < length arr)%nat).
    + by rewrite lookup_app_l.
    + rewrite lookup_app_r by lia.
      rewrite (lookup_ge_None_2 arr j) by lia.
      destruct (decide (j - length arr < i - length arr)%nat).
      * rewrite lookup_app_l by (rewrite length_replicate; lia).
        rewrite lookup_replicate_2 by lia. reflexivity.
      * rewrite lookup_app_r by (rewrite length_replicate; lia).
        rewrite length_replicate.
        rewrite lookup_ge_None_2 by (simpl; lia). reflexivity.
Qed.

(** ** [getKey] and the histogram of a fragment *)

Lemma keys_wf_empty : keys_wf ∅.
Proof. intros c key. by rewrite lookup_empty. Qed.

Lemma getKey_spec (chrKeys : gmap char nat) chr :
  chrKeys ⊆ (getKey chrKeys chr).2
  /\ (getKey chrKeys chr).2 !! chr = Some (getKey chrKeys chr).1
  /\ (keys_wf chrKeys -> keys_wf (getKey chrKeys chr).2).
Proof.
  unfold getKey. destruct (chrKeys !! chr) as [key|] eqn:E; simpl.
  - auto.
  - repeat split.
    + by apply insert_subseteq.
    + by rewrite lookup_insert_eq.
    + intros Hwf c key. rewrite map_size_insert_None by assumption.
      destruct (decide (c = chr)) as [->|Hne].
      * rewrite lookup_insert_eq. intros [= <-]. lia.
      * rewrite lookup_insert_ne by done. intros Hc. apply Hwf in Hc. lia.
Qed.

Lemma keyCount_app chrKeys t1 t2 key :
  keyCount chrKeys (t1 ++ t2) key
  = keyCount chrKeys t1 key + keyCount chrKeys t2 key.
Proof. unfold keyCount, arrlen. rewrite filter_app, length_app. lia. Qed.

Lemma keyCount_subseteq (m1 m2 : gmap char nat) text key :
  m1 ⊆ m2 -> (forall c, c ∈ text -> is_Some (m1 !! c)) ->
  keyCount m2 text key = keyCount m1 text key.
Proof.
  intros Hsub. unfold keyCount, arrlen. induction text as [|c text IH]; intros Hin.
  - reflexivity.
  - destruct (Hin c) as [k Hk]; [left|].
    assert (Hk2 : m2 !! c = Some k) by (eapply lookup_weaken; eauto).
    assert (IH' : length (filter (fun c => m2 !! c = Some key) text)
                  = length (filter (fun c => m1 !! c = Some key) text)).
    { apply Nat2Z.inj, IH. intros c' Hc'. apply Hin. by right. }
    destruct (decide (k = key)) as [->|Hne].
    + rewrite !filter_cons_True by assumption. simpl. lia.
    + rewrite !filter_cons_False by congruence. lia.
Qed.

Lemma countChar_inv counter0 b text chr :
  histogram_inv counter0 b text ->
  histogram_inv counter0 (countChar b chr) (text ++ [chr])
  /\ build_chrKeys b ⊆ build_chrKeys (countChar b chr).
Proof.
  intros (Hwf & Hdom & Hlen & Hhist & Hcount).
  unfold countChar, histogram_count. simpl.
  destruct (getKey_spec (build_chrKeys b) chr) as (Hsub & Hchr & Hwf').
  destruct (getKey (build_chrKeys b) chr) as [key chrKeys'] eqn:E.
  simpl in *. specialize (Hwf' Hwf).
  split; [|exact Hsub]. repeat split; simpl.
  - exact Hwf'.
  - intros c Hc. apply elem_of_app in Hc as [Hc|Hc].
    + destruct (Hdom c Hc) as [k Hk]. exists k. eapply lookup_weaken; eauto.
    + apply list_elem_of_singleton in Hc as ->. eauto.
  - rewrite arr_set_length. apply Hwf' in Hchr.
    apply map_subseteq_size in Hsub. lia.
  - intros k. rewrite keyCount_app, (keyCount_subseteq _ _ _ _ Hsub Hdom).
    rewrite <- Hhist, !arr_get_nat.
    unfold keyCount, arrlen.
    destruct (decide (key = k)) as [->|Hne].
    + rewrite arr_set_lookup. simpl.
      rewrite filter_cons_True by assumption. simpl. lia.
    + rewrite arr_set_lookup_ne by assumption.
      rewrite filter_cons_False by congruence. simpl. lia.
  - unfold arrlen in *. rewrite length_app. simpl. lia.
Qed.

Lemma foldl_countChar_inv counter0 line : forall b text,
  histogram_inv counter0 b text ->
  histogram_inv counter0 (foldl countChar b line) (text ++ line)
  /\ build_chrKeys b ⊆ build_chrKeys (foldl countChar b line).
Proof.
  induction line as [|chr line IH]; intros b text Hinv; simpl.
  - by rewrite app_nil_r.
  - destruct (countChar_inv counter0 b text chr Hinv) as [Hinv1 Hsub1].
    destruct (IH _ _ Hinv1) as [Hinv2 Hsub2].
    rewrite <- app_assoc in Hinv2. split; [exact Hinv2|].
    etrans; eauto.
Qed.

Lemma LineRangeFragment_line_inv counter0 b text line :
  histogram_inv counter0 b text ->
  histogram_inv counter0 (LineRangeFragment_line b line)
    (text ++ line ++ [CharCode.LineFeed])
  /\ build_chrKeys b ⊆ build_chrKeys (LineRangeFragment_line b line).
Proof.
  intros Hinv. unfold LineRangeFragment_line.
  change (fun b chr => histogram_count _ chr) with countChar.
  destruct (foldl_countChar_inv counter0 line b text Hinv) as [Hinv1 Hsub1].
  destruct (countChar_inv counter0 _ _ CharCode.LineFeed Hinv1) as [Hinv2 Hsub2].
  rewrite <- app_assoc in Hinv2. split; [exact Hinv2|]. etrans; eauto.
Qed.

Lemma LineRangeFragment_loop_inv counter0 lines (n : nat) : forall a b b' text,
  histogram_inv counter0 b text ->
  forEachM
    (fun b i => line ← at_index lines i; Some (LineRangeFragment_line b line))
    b (seqZ a (Z.of_nat n)) = Some b' ->
  histogram_inv counter0 b'
    (text ++ flat_map (fun i => default [] (at_index lines i)
                                ++ [CharCode.LineFeed])
               (seqZ a (Z.of_nat n)))
  /\ build_chrKeys b ⊆ build_chrKeys b'.
Proof.
  induction n as [|n IH]; intros a b b' text Hinv.
  - simpl. intros [= <-]. by rewrite app_nil_r.
  - rewrite seqZ_succ. simpl.
    destruct (at_index lines a) as [line|]; [|discriminate]. simpl.
    intros Hloop.
    destruct (LineRangeFragment_line_inv counter0 b text line Hinv)
      as [Hinv1 Hsub1].
    destruct (IH _ _ _ _ Hinv1 Hloop) as [Hinv2 Hsub2].
    rewrite <- !app_assoc in Hinv2. rewrite <- app_assoc.
    split; [exact Hinv2|]. etrans; eauto.
Qed.

Lemma fragment_ok_subseteq (m1 m2 : gmap char nat) f :
  m1 ⊆ m2 -> (forall c, c ∈ fragmentText f -> is_Some (m1 !! c)) ->
  fragment_ok m1 f -> fragment_ok m2 f.
Proof.
  intros Hsub Hdom (Htotal & Hlen & Hhist). repeat split.
  - exact Htotal.
  - apply map_subseteq_size in Hsub. lia.
  - intros key. rewrite Hhist. symmetry. by apply keyCount_subseteq.
Qed.

(** A fragment that the constructor has built holds the histogram of its
    text, also under the keys of any later state of the map. *)
Lemma newLineRangeFragment_ok chrKeys range lines source f chrKeys' :
  keys_wf chrKeys ->
  newLineRangeFragment chrKeys range lines source = Some (f, chrKeys') ->
  keys_wf chrKeys' /\ chrKeys ⊆ chrKeys'
  /\ fragment_range f = range
  /\ forall m, chrKeys' ⊆ m -> fragment_ok m f.
Proof.
  intros Hwf. unfold newLineRangeFragment.
  destruct (forEachM _ _ _) as [b|] eqn:Hloop; [|discriminate].
  simpl. intros [= <- <-].
  destruct (Z.le_gt_cases 0 (endLineNumberExclusive range - startLineNumber range))
    as [Hn|Hn].
  - rewrite <- (Z2Nat.id _ Hn) in Hloop.
    assert (Hinit : histogram_inv 0 (mkFragmentBuild chrKeys 0 []) []).
    { repeat split; simpl; [exact Hwf | intros c Hc; inversion Hc | lia |].
      intros key. by rewrite arr_get_nat. }
    destruct (LineRangeFragment_loop_inv 0 lines _ _ _ _ [] Hinit Hloop)
      as [(Hwf' & Hdom & Hlen & Hhist & Hcount) Hsub].
    simpl in *. rewrite Z2Nat.id in * by exact Hn.
    split; [exact Hwf'|]. split; [exact Hsub|]. split; [reflexivity|].
    intros m Hm. apply (fragment_ok_subseteq (build_chrKeys b)); auto.
    split; [|split]; simpl; auto.
  - rewrite seqZ_nil in Hloop by lia. simpl in Hloop. injection Hloop as <-.
    simpl. split; [exact Hwf|]. split; [reflexivity|]. split; [reflexivity|].
    intros m Hm. split; [|split].
    + unfold fragmentText. simpl. rewrite seqZ_nil by lia. reflexivity.
    + simpl. lia.
    + intros key. unfold fragmentText. simpl. rewrite seqZ_nil by lia.
      by rewrite arr_get_nat.
Qed.


(** ** [computeSimilarity] *)

Lemma foldl_Zsum (g : nat -> Z) (n : nat) :
  foldl (fun sum i => sum + g i) 0 (seq 0 n) = Zsum g n.
Proof.
  induction n as [|n IH]; [reflexivity|].
  rewrite seq_S, foldl_app. simpl. by rewrite IH.
Qed.

Lemma Zsum_ext (g h : nat -> Z) n :
  (forall i, (i < n)%nat -> g i = h i) -> Zsum g n = Zsum h n.
Proof.
  induction n as [|n IH]; intros Hgh; [reflexivity|]. simpl.
  rewrite IH by (intros; apply Hgh; lia). rewrite Hgh by lia. reflexivity.
Qed.

Lemma Zsum_zeros (g : nat -> Z) n m :
  (n <= m)%nat -> (forall i, (n <= i)%nat -> g i = 0) -> Zsum g m = Zsum g n.
Proof.
  intros Hnm Hz. induction Hnm as [|m Hnm IH]; [reflexivity|].
  simpl. rewrite IH, Hz by assumption. lia.
Qed.

Lemma arr_get_ge {A} (arr : list (option A)) (i : nat) :
  (length arr <= i)%nat -> arr_get arr (Z.of_nat i) = None.
Proof. intros H. rewrite arr_get_nat, lookup_ge_None_2 by assumption. done. Qed.

Lemma sumDifferences_keys chrKeys f1 f2 :
  fragment_ok chrKeys f1 -> fragment_ok chrKeys f2 ->
  sumDifferences (histogram f1) (histogram f2)
  = Zsum (fun key => Z.abs (keyCount chrKeys (fragmentText f1) key
                            - keyCount chrKeys (fragmentText f2) key))
         (size chrKeys).
Proof.
  intros (_ & Hlen1 & Hh1) (_ & Hlen2 & Hh2). unfold sumDifferences.
  rewrite (foldl_Zsum (fun i => Z.abs (default 0 (arr_get (histogram f1) (Z.of_nat i))
                                     - default 0 (arr_get (histogram f2) (Z.of_nat i))))).
  rewrite (Zsum_ext _ (fun key => Z.abs (keyCount chrKeys (fragmentText f1) key
                                       - keyCount chrKeys (fragmentText f2) key)))
    by (intros; by rewrite Hh1, Hh2).
  symmetry. apply Zsum_zeros; [lia|].
  intros i Hi. rewrite <- Hh1, <- Hh2, !arr_get_ge by lia. reflexivity.
Qed.

Lemma computeSimilarity_similarity chrKeys f1 f2 :
  fragment_ok chrKeys f1 -> fragment_ok chrKeys f2 ->
  0 < totalCount f1 + totalCount f2 ->
  computeSimilarity f1 f2
  = Some (similarity chrKeys (fragmentText f1) (fragmentText f2)).
Proof.
  intros Hok1 Hok2 Hpos. unfold computeSimilarity, similarity.
  destruct (Z.eqb_spec (totalCount f1 + totalCount f2) 0); [lia|].
  rewrite (sumDifferences_keys chrKeys) by assumption.
  destruct Hok1 as (-> & _), Hok2 as (-> & _). reflexivity.
Qed.

(** ** The pairing of a deletion *)



Section Pairing.
Context (deletion : LineRangeFragment) (sim : LineRangeFragment -> Q).


End Pairing.





Example MovedUp_paired :
  pairedInsertion MovedUp.deletion MovedUp.insertions.1
  = Some (0%nat, MovedUp.insertion).
Proof. vm_compute. reflexivity. Qed.

(** ** [computeMoves] *)

Lemma mapM_inverse {A B} (f : A -> option B) (g : B -> A) l k :
  (forall x y, f x = Some y -> g y = x) ->
  mapM f l = Some k -> g <$> k = l.
Proof.
  intros Hfg Hm. apply mapM_Some in Hm.
  induction Hm as [|x y l k Hxy _ IH]; [reflexivity|].
  by rewrite fmap_cons, (Hfg _ _ Hxy), IH.
Qed.

(** The line ranges of the moves that [computeMoves] returns do not depend
    on the collaborators: they are the joined and filtered moves, or none
    when the timeout has run out after the simple moves. *)
Lemma computeMoves_lineRangeMappings K chrKeys changes originalLines
    modifiedLines hashedOriginalLines hashedModifiedLines timeout cws moved :
  computeMoves K chrKeys changes originalLines modifiedLines
    hashedOriginalLines hashedModifiedLines timeout cws = Some moved ->
  exists simple polls,
    computeMovesFromSimpleDeletionsToSimpleInsertions chrKeys changes
      originalLines modifiedLines timeout 0 = Some (simple, polls)
    /\ moved_lineRangeMapping <$> moved
       = if timeout polls
         then joinedMoves changes originalLines
                (simple_moves simple
                 ++ (computeUnchangedMoves
                       (snd <$> filter
                                  (fun c => c.1 ∉ simple_excludedChanges simple)
                                  (indexed changes))
                       hashedOriginalLines hashedModifiedLines timeout
                       (S polls)).1)
         else [].
Proof.
  unfold computeMoves.
  destruct (computeMovesFromSimpleDeletionsToSimpleInsertions _ _ _ _ _ _)
    as [[simple polls]|]; [|discriminate].
  simpl. intros Hmoved. exists simple, polls. split; [reflexivity|].
  destruct (timeout polls); simpl in Hmoved.
  - destruct (computeUnchangedMoves _ _ _ _ _) as [unchangedMoves polls'].
    simpl. eapply mapM_inverse; [|exact Hmoved].
    intros x y Hy. simpl in Hy.
    destruct (refineDiff _ _ _ _ _ _); [|discriminate]. simpl in Hy.
    destruct (lineRangeMappingFromRangeMappings _ _ _ _); [|discriminate].
    simpl in Hy. by injection Hy as <-.
  - by injection Hmoved as <-.
Qed.





(** C5, on the code: the move of the lines 2 to 4, whose trimmed text
    ["a\nb\nc"] has 5 characters, is the first of the moves and is returned,
    whatever the collaborators return. *)
Theorem computeMoves_keeps_small_first_move :
  (forall K moved,
     computeMoves K ∅ ShortMove.changes ShortMove.originalLines
       ShortMove.modifiedLines ShortMove.hashedOriginalLines
       ShortMove.hashedModifiedLines InfiniteTimeout true = Some moved ->
     moved_lineRangeMapping <$> moved = [lrm 2 5 1 4])
  /\ computeMoves noDifference ∅ ShortMove.changes ShortMove.originalLines
       ShortMove.modifiedLines ShortMove.hashedOriginalLines
       ShortMove.hashedModifiedLines InfiniteTimeout true
     = Some [mkMovedText (lrm 2 5 1 4) []]
  /\ join_lines
       (trim <$> OffsetRange.slice
                   (LineRange.toOffsetRange (original (lrm 2 5 1 4)))
                   ShortMove.originalLines)
     = codes "a" ++ [CharCode.LineFeed] ++ codes "b" ++ [CharCode.LineFeed]
       ++ codes "c"
  /\ strlen (join_lines
               (trim <$> OffsetRange.slice
                           (LineRange.toOffsetRange (original (lrm 2 5 1 4)))
                           ShortMove.originalLines))
     = 5.
Proof.
  split; [|repeat split; vm_compute; reflexivity].
  intros K moved Hmoved.
  apply computeMoves_lineRangeMappings in Hmoved
    as (simple & polls & Hsimple & ->).
  vm_compute in Hsimple. injection Hsimple as <- <-.
  vm_compute. reflexivity.
Qed.

(** ** [computeDiff]: the choice of the kernel and the equality score *)

(** C3, as amended: when the two documents have fewer than 1700 lines
    together, the line diff is the dynamic programming with the equality
    score [0.99] when the original line [i] and the modified line [j]
    differ as they are (untrimmed), [0.1] when they are equal and empty, and
    [1 + ln (1 + length)] of the modified line otherwise; and Myers' diff
    when they have 1700 lines or more. *)
Theorem lineAlignmentResult_kernel (K : Collaborators)
    (sequence1 sequence2 : LineSequence)
    (originalLines modifiedLines : list jsstring) (timeout : Timeout) :
  (LineSequence.length sequence1 + LineSequence.length sequence2 < 1700 ->
   lineAlignmentResult K sequence1 sequence2 originalLines modifiedLines timeout
   = dynamicProgrammingDiffing_compute K (ofLineSequence sequence1)
       (ofLineSequence sequence2) timeout
       (Some (equalityScore originalLines modifiedLines)))
  /\ (1700 <= LineSequence.length sequence1 + LineSequence.length sequence2 ->
      lineAlignmentResult K sequence1 sequence2 originalLines modifiedLines
        timeout
      = myersDiffingAlgorithm_compute K (ofLineSequence sequence1)
          (ofLineSequence sequence2) None)
  /\ forall i j a b,
       at_index originalLines i = Some a ->
       at_index modifiedLines j = Some b ->
       exists s,
         equalityScore originalLines modifiedLines i j = Some s
         /\ EqualityScore_value s
            = if decide (a = b)
              then if decide (b = []) then (1 / 10)%R
                   else (1 + ln (1 + IZR (strlen b)))%R
              else (99 / 100)%R.
Proof.
  unfold lineAlignmentResult. repeat split.
  - intros Hlt. destruct (Z.ltb_spec
      (LineSequence.length sequence1 + LineSequence.length sequence2) 1700);
      [reflexivity | lia].
  - intros Hge. destruct (Z.ltb_spec
      (LineSequence.length sequence1 + LineSequence.length sequence2) 1700);
      [lia | reflexivity].
  - intros i j a b Ha Hb. unfold equalityScore. rewrite Ha, Hb.
    destruct (decide (a = b)) as [->|Hne].
    + rewrite bool_decide_eq_true_2 by reflexivity. simpl.
      destruct (decide (b = [])) as [->|Hb'].
      * eexists; split; reflexivity.
      * destruct (Z.eqb_spec (strlen b) 0) as [H0|H0].
        -- destruct b; [done | unfold strlen in H0; simpl in H0; lia].
        -- eexists; split; reflexivity.
    + rewrite bool_decide_eq_false_2 by congruence.
      eexists; split; reflexivity.
Qed.

Lemma lineAlignmentResult_kernel_witness :
  lineAlignmentResult noDifference
    (mkLineSequence [0] [codes "a"]) (mkLineSequence [0] [codes "a"])
    [codes "a"] [codes "a"] InfiniteTimeout
  = dynamicProgrammingDiffing_compute noDifference
      (ofLineSequence (mkLineSequence [0] [codes "a"]))
      (ofLineSequence (mkLineSequence [0] [codes "a"])) InfiniteTimeout
      (Some (equalityScore [codes "a"] [codes "a"]))
  /\ exists s,
       equalityScore [codes "a"] [codes "a"] 0 0 = Some s
       /\ EqualityScore_value s
          = if decide (codes "a" = codes "a")
            then if decide (codes "a" = []) then (1 / 10)%R
                 else (1 + ln (1 + IZR (strlen (codes "a"))))%R
            else (99 / 100)%R.
Proof.
  destruct (lineAlignmentResult_kernel noDifference
              (mkLineSequence [0] [codes "a"]) (mkLineSequence [0] [codes "a"])
              [codes "a"] [codes "a"] InfiniteTimeout) as (Hdp & _ & Hscore).
  split.
  - apply Hdp. vm_compute. reflexivity.
  - apply (Hscore 0 0 (codes "a") (codes "a")); reflexivity.
Defined.

(** C3, as stated, fails: the lines [" a"] and ["a"] have the same trimmed
    text, which is not empty, and their score is [0.99], which is less than
    [1 + ln (1 + 1)]. *)
Lemma equalityScore_compares_untrimmed_lines :
  trim (codes " a") = trim (codes "a") /\ trim (codes "a") <> []
  /\ equalityScore [codes " a"] [codes "a"] 0 0 = Some ScoreDifferent
  /\ (EqualityScore_value ScoreDifferent
      < 1 + ln (1 + IZR (strlen (codes "a"))))%R.
Proof.
  split; [reflexivity|]. split; [discriminate|]. split; [reflexivity|].
  change (strlen (codes "a")) with 1. unfold EqualityScore_value.
  replace (1 + 1)%R with 2%R by lra.
  pose proof ln_lt_2. lra.
Qed.

(** ** [computeDiff]: an input that is one empty line *)

(** C4, on the code: for the original [[""]] and the modified
    [["abc"; "de"]], the inner range mapping ends the modified range at
    column 4 of line 2, which is the column after the last character of the
    first line; the column after the last character of the last line is 3,
    and the range does not pass the check of validity that [computeDiff]
    asserts of the ranges it computes. *)
Theorem computeDiff_one_empty_line_end_column (K : Collaborators)
    (chrKeys : gmap char nat) (options : ILinesDiffComputerOptions) :
  computeDiff K chrKeys [codes ""] [codes "abc"; codes "de"] options
  = Some (mkLinesDiff
            [newDetailedLineRangeMapping (mkLineRange 1 2) (mkLineRange 1 3)
               [rm 1 1 1 1 1 1 2 4]]
            [] false)
  /\ last [codes "abc"; codes "de"] = Some (codes "de")
  /\ strlen (codes "de") + 1 = 3
  /\ validatePosition (mkPosition 2 4) [codes "abc"; codes "de"] = false
  /\ rangesAreValid
       [newDetailedLineRangeMapping (mkLineRange 1 2) (mkLineRange 1 3)
          [rm 1 1 1 1 1 1 2 4]]
       [codes ""] [codes "abc"; codes "de"] = false.
Proof. repeat split. Qed.

(** ** [computeDiff]: the walk over the line alignments *)

Lemma refineDiff_given K o m diff t cws slice1 slice2 diffs result :
  newLinesSliceCharSequence o (seq1Range diff) cws = Some slice1 ->
  newLinesSliceCharSequence m (seq2Range diff) cws = Some slice2 ->
  (refinedSequenceDiffs K slice1 slice2 t).1 = diffs ->
  mapM (translateDiff slice1 slice2) diffs = Some result ->
  exists hit, refineDiff K o m diff t cws = Some (mkRefinedDiff result hit).
Proof.
  intros H1 H2 H3 H4. unfold refineDiff. rewrite H1, H2, !bind_Some.
  destruct (refinedSequenceDiffs K slice1 slice2 t) as [ds hit].
  cbn [fst snd] in *. subst ds. rewrite H4. eexists. reflexivity.
Qed.

Lemma scanLine_equal K o m t cws w i :
  at_index o (seq1LastStart w + i) = at_index m (seq2LastStart w + i) ->
  scanLine K o m t cws w i = Some w.
Proof.
  intros H. unfold scanLine. rewrite bool_decide_eq_false_2; [reflexivity|].
  intros Hne. by apply Hne.
Qed.

Lemma scanLine_differ K o m t cws w i c :
  at_index o (seq1LastStart w + i) <> at_index m (seq2LastStart w + i) ->
  refineDiff K o m
    (sd (seq1LastStart w + i) (seq1LastStart w + i + 1)
        (seq2LastStart w + i) (seq2LastStart w + i + 1)) t cws = Some c ->
  scanLine K o m t cws w i
  = Some (mkWalk (walk_alignments w ++ mappings c)
            (walk_hitTimeout w || refined_hitTimeout c)
            (seq1LastStart w) (seq2LastStart w)).
Proof.
  intros H Hc. unfold scanLine. rewrite bool_decide_eq_true_2 by assumption.
  unfold sd in Hc. rewrite Hc. reflexivity.
Qed.

(** The scan of equal lines that are equal as they are changes nothing. *)
Lemma scan_equal K o m t w n :
  (forall i, 0 <= i < n ->
     at_index o (seq1LastStart w + i) = at_index m (seq2LastStart w + i)) ->
  forEachM (scanLine K o m t true) w (seqZ 0 n) = Some w.
Proof.
  intros Heq. destruct (Z.le_gt_cases 0 n) as [Hn|Hn].
  - rewrite <- (Z2Nat.id n Hn).
    assert (Hall : forall i, 0 <= i < Z.of_nat (Z.to_nat n) ->
              at_index o (seq1LastStart w + i)
              = at_index m (seq2LastStart w + i))
      by (intros i Hi; apply Heq; lia).
    clear Heq Hn. induction (Z.to_nat n) as [|k IH]; [reflexivity|].
    rewrite seqZ_S, forEachM_app, IH by (intros; apply Hall; lia).
    rewrite bind_Some, forEachM_cons, Z.add_0_l.
    rewrite scanLine_equal by (apply Hall; lia). reflexivity.
  - by rewrite seqZ_nil by lia.
Qed.

(** The scan of [n + 1] equal lines of which the last one alone differs in
    its white space takes the mappings of that line. *)
Lemma scan_last_differs K o m t w n c :
  0 <= n ->
  (forall i, 0 <= i < n ->
     at_index o (seq1LastStart w + i) = at_index m (seq2LastStart w + i)) ->
  at_index o (seq1LastStart w + n) <> at_index m (seq2LastStart w + n) ->
  refineDiff K o m
    (sd (seq1LastStart w + n) (seq1LastStart w + n + 1)
        (seq2LastStart w + n) (seq2LastStart w + n + 1)) t true = Some c ->
  forEachM (scanLine K o m t true) w (seqZ 0 (n + 1))
  = Some (mkWalk (walk_alignments w ++ mappings c)
            (walk_hitTimeout w || refined_hitTimeout c)
            (seq1LastStart w) (seq2LastStart w)).
Proof.
  intros Hn Heq Hne Hc.
  rewrite seqZ_app by lia. rewrite forEachM_app, scan_equal by assumption.
  rewrite bind_Some. change (seqZ (0 + n) 1) with [0 + n].
  rewrite forEachM_cons, Z.add_0_l.
  rewrite (scanLine_differ K o m t true w n c) by assumption. reflexivity.
Qed.

Lemma walkDiff_step K o m t w diff w' c :
  forEachM (scanLine K o m t true) w
    (seqZ 0 (start (seq1Range diff) - seq1LastStart w)) = Some w' ->
  refineDiff K o m diff t true = Some c ->
  walkDiff K o m t true w diff
  = Some (mkWalk (walk_alignments w' ++ mappings c)
            (walk_hitTimeout w' || refined_hitTimeout c)
            (endExclusive (seq1Range diff)) (endExclusive (seq2Range diff))).
Proof.
  intros Hs Hc. unfold walkDiff, scanForWhitespaceChanges.
  cbv iota beta delta [negb]. rewrite Hs, bind_Some, Hc. reflexivity.
Qed.

(** C1, on the code: for the original [["x"; "a"; "b"; " c"]] and the
    modified [["y"; "a"; "b"; "c"; "d"]], white space considered. The fourth
    lines differ in their white space alone and are refined on their own;
    the slice of the original, whose line is the last one of its document,
    is extended by the edge rule to the line feed of the line before, the
    slice of the modified is not. Whenever the collaborators return the line
    alignments of the two documents (the first line changed, a fifth line
    added) and, for each of the three pairs of slices that are refined, one of
    the edit scripts that turn the one slice into the other, the changes
    are the line range mappings [[1,2) -> [1,2)] and [[3,5) -> [4,6)]: one
    unchanged line lies between them on the original side and two on the
    modified side, against the invariant that the code asserts. *)
Theorem computeDiff_last_line_whitespace (K : Collaborators)
    (chrKeys : gmap char nat) :
  lineAlignments K LastLineWhitespace.sequence1 LastLineWhitespace.sequence2
    (result_diffs
       (lineAlignmentResult K LastLineWhitespace.sequence1
          LastLineWhitespace.sequence2 LastLineWhitespace.originalLines
          LastLineWhitespace.modifiedLines InfiniteTimeout))
  = [sd 0 1 0 1; sd 4 4 4 5] ->
  (refinedSequenceDiffs K
     (LastLineWhitespace.slice LastLineWhitespace.originalLines 0 1)
     (LastLineWhitespace.slice LastLineWhitespace.modifiedLines 0 1)
     InfiniteTimeout).1
  ∈ [[sd 0 1 0 1]; [sd 0 2 0 2]] ->
  (refinedSequenceDiffs K
     (LastLineWhitespace.slice LastLineWhitespace.originalLines 3 4)
     (LastLineWhitespace.slice LastLineWhitespace.modifiedLines 3 4)
     InfiniteTimeout).1
  ∈ [[sd 0 2 0 0; sd 3 3 1 2]; [sd 0 0 0 1; sd 1 3 2 2]; [sd 0 3 0 2]] ->
  (refinedSequenceDiffs K
     (LastLineWhitespace.slice LastLineWhitespace.originalLines 4 4)
     (LastLineWhitespace.slice LastLineWhitespace.modifiedLines 4 5)
     InfiniteTimeout).1
  = [sd 0 0 0 2] ->
  exists d,
    computeDiff K chrKeys LastLineWhitespace.originalLines
      LastLineWhitespace.modifiedLines LastLineWhitespace.options = Some d
    /\ lineRangeMapping <$> changes d = [lrm 1 2 1 2; lrm 3 5 4 6]
    /\ startLineNumber (original (lrm 3 5 4 6))
       - endLineNumberExclusive (original (lrm 1 2 1 2)) = 1
    /\ startLineNumber (modified (lrm 3 5 4 6))
       - endLineNumberExclusive (modified (lrm 1 2 1 2)) = 2
    /\ ~ checkAdjacentItems lineBoundaryInvariant
           (lineRangeMapping <$> changes d).
Proof.
  intros H0 H1 H2 H3.
  assert (Hchanges : exists d,
            computeDiff K chrKeys LastLineWhitespace.originalLines
              LastLineWhitespace.modifiedLines LastLineWhitespace.options
            = Some d
            /\ lineRangeMapping <$> changes d = [lrm 1 2 1 2; lrm 3 5 4 6]).
  { assert (R1 : exists c,
              refineDiff K LastLineWhitespace.originalLines
                LastLineWhitespace.modifiedLines (sd 0 1 0 1) InfiniteTimeout
                true = Some c
              /\ mappings c ∈ [[rm 1 1 1 2 1 1 1 2]; [rm 1 1 2 1 1 1 2 1]]).
    { apply elem_of_cons in H1 as [H1|H1];
        [|apply elem_of_cons in H1 as [H1|H1]; [|inversion H1]];
        (edestruct (refineDiff_given K LastLineWhitespace.originalLines
                     LastLineWhitespace.modifiedLines (sd 0 1 0 1)
                     InfiniteTimeout true) as [hit ->];
         [vm_compute; reflexivity | vm_compute; reflexivity | exact H1
         | vm_compute; reflexivity |]);
        eexists; (split; [reflexivity|]); simpl;
        solve [left | right; left | right; right; left]. }
    assert (R2 : exists c,
              refineDiff K LastLineWhitespace.originalLines
                LastLineWhitespace.modifiedLines (sd 3 4 3 4) InfiniteTimeout
                true = Some c
              /\ mappings c
                 ∈ [[rm 3 2 4 2 4 1 4 1; rm 4 3 4 3 4 2 5 1];
                    [rm 3 2 3 2 4 1 4 2; rm 4 1 4 3 5 1 5 1];
                    [rm 3 2 4 3 4 1 5 1]]).
    { apply elem_of_cons in H2 as [H2|H2];
        [|apply elem_of_cons in H2 as [H2|H2];
          [|apply elem_of_cons in H2 as [H2|H2]; [|inversion H2]]];
        (edestruct (refineDiff_given K LastLineWhitespace.originalLines
                     LastLineWhitespace.modifiedLines (sd 3 4 3 4)
                     InfiniteTimeout true) as [hit ->];
         [vm_compute; reflexivity | vm_compute; reflexivity | exact H2
         | vm_compute; reflexivity |]);
        eexists; (split; [reflexivity|]); simpl;
        solve [left | right; left | right; right; left]. }
    destruct (refineDiff_given K LastLineWhitespace.originalLines
                LastLineWhitespace.modifiedLines (sd 4 4 4 5) InfiniteTimeout
                true _ _ _ _
                ltac:(vm_compute; reflexivity) ltac:(vm_compute; reflexivity)
                H3 ltac:(vm_compute; reflexivity)) as [hit3 R3].
    destruct R1 as (c1 & R1 & Hc1), R2 as (c2 & R2 & Hc2).
    unfold computeDiff.
    replace ((arrlen LastLineWhitespace.originalLines <=? 1)
             && bool_decide (LastLineWhitespace.originalLines
                             = LastLineWhitespace.modifiedLines))
      with false by (vm_compute; reflexivity).
    match goal with
    | |- context [if ?c then mbind _ _ else _] =>
        replace c with false by (vm_compute; reflexivity)
    end.
    cbv iota.
    change (maxComputationTimeMs LastLineWhitespace.options =? 0) with true.
    change (negb (ignoreTrimWhitespace LastLineWhitespace.options)) with true.
    change (option_computeMoves LastLineWhitespace.options) with false.
    cbv iota.
    destruct (hashLines ∅ LastLineWhitespace.originalLines)
      as [src hashes] eqn:E1.
    match goal with
    | |- context [hashLines ?h ?l] =>
        destruct (hashLines h l) as [tgt hashes'] eqn:E2
    end.
    assert (Hs1 : mkLineSequence src LastLineWhitespace.originalLines
                  = LastLineWhitespace.sequence1).
    { unfold LastLineWhitespace.sequence1. by rewrite E1. }
    assert (Hs2 : mkLineSequence tgt LastLineWhitespace.modifiedLines
                  = LastLineWhitespace.sequence2).
    { unfold LastLineWhitespace.sequence2. rewrite E1. cbn [fst snd].
      by rewrite E2. }
    rewrite Hs1, Hs2, H0.
    generalize (result_hitTimeout
                  (lineAlignmentResult K LastLineWhitespace.sequence1
                     LastLineWhitespace.sequence2
                     LastLineWhitespace.originalLines
                     LastLineWhitespace.modifiedLines InfiniteTimeout)).
    intros hit0.
    pose proof (walkDiff_step K LastLineWhitespace.originalLines
                  LastLineWhitespace.modifiedLines InfiniteTimeout
                  (mkWalk [] hit0 0 0) (sd 0 1 0 1) _ _
                  (scan_equal K LastLineWhitespace.originalLines
                     LastLineWhitespace.modifiedLines InfiniteTimeout _ 0
                     ltac:(intros i Hi; lia))
                  R1) as W1.
    rewrite forEachM_cons, W1, bind_Some. clear W1.
    match goal with
    | |- context [forEachM _ ?w [sd 4 4 4 5]] =>
        pose proof (walkDiff_step K LastLineWhitespace.originalLines
                      LastLineWhitespace.modifiedLines InfiniteTimeout
                      w (sd 4 4 4 5) _ _
                      (scan_last_differs K LastLineWhitespace.originalLines
                         LastLineWhitespace.modifiedLines InfiniteTimeout w 2 _
                         ltac:(lia)
                         ltac:(intros i Hi;
                               assert (i = 0 \/ i = 1) as [-> | ->] by lia;
                               reflexivity)
                         ltac:(vm_compute; discriminate)
                         R2)
                      R3) as W2
    end.
    rewrite forEachM_cons, W2, bind_Some. clear W2.
    change (forEachM ?f ?w []) with (Some w). rewrite bind_Some.
    unfold scanForWhitespaceChanges. cbv iota beta delta [negb].
    match goal with |- context [seqZ 0 ?n] => change n with 0 end.
    rewrite scan_equal by (intros i Hi; lia).
    rewrite bind_Some. cbn [walk_alignments mappings].
    (apply elem_of_cons in Hc1 as [->|Hc1];
       [|apply elem_of_cons in Hc1 as [->|Hc1]; [|inversion Hc1]]);
      (apply elem_of_cons in Hc2 as [->|Hc2];
         [|apply elem_of_cons in Hc2 as [->|Hc2];
           [|apply elem_of_cons in Hc2 as [->|Hc2]; [|inversion Hc2]]]);
      (match goal with
       | |- context [lineRangeMappingFromRangeMappings ?a ?o ?m ?f] =>
           let v :=
             eval vm_compute in (lineRangeMappingFromRangeMappings a o m f) in
           change (lineRangeMappingFromRangeMappings a o m f) with v
       end;
       rewrite !bind_Some; eexists; split; reflexivity). }
  destruct Hchanges as (d & Hd & Hchanges). exists d.
  split; [exact Hd|]. split; [exact Hchanges|].
  split; [reflexivity|]. split; [reflexivity|].
  rewrite Hchanges. unfold lineBoundaryInvariant. simpl. lia.
Qed.

Lemma computeDiff_last_line_whitespace_witness :
  exists d,
    computeDiff shortestEdits ∅ LastLineWhitespace.originalLines
      LastLineWhitespace.modifiedLines LastLineWhitespace.options = Some d
    /\ lineRangeMapping <$> changes d = [lrm 1 2 1 2; lrm 3 5 4 6]
    /\ startLineNumber (original (lrm 3 5 4 6))
       - endLineNumberExclusive (original (lrm 1 2 1 2)) = 1
    /\ startLineNumber (modified (lrm 3 5 4 6))
       - endLineNumberExclusive (modified (lrm 1 2 1 2)) = 2
    /\ ~ checkAdjacentItems lineBoundaryInvariant
           (lineRangeMapping <$> changes d).
Proof.
  apply (computeDiff_last_line_whitespace shortestEdits ∅).
  - vm_compute. reflexivity.
  - vm_compute. left.
  - vm_compute. left.
  - vm_compute. reflexivity.
Defined.

(** ** Reading arrays, continued *)

Lemma at_index_app_l {A} (l1 l2 : list A) i :
  i < arrlen l1 -> at_index (l1 ++ l2) i = at_index l1 i.
Proof.
  unfold at_index, arrlen. intros Hi. destruct (Z.ltb_spec i 0); [reflexivity|].
  apply lookup_app_l. lia.
Qed.

Lemma at_index_app_r {A} (l1 l2 : list A) i :
  0 <= i -> at_index (l1 ++ l2) (arrlen l1 + i) = at_index l2 i.
Proof.
  unfold at_index, arrlen. intros Hi.
  destruct (Z.ltb_spec (Z.of_nat (length l1) + i) 0); [lia|].
  destruct (Z.ltb_spec i 0); [lia|].
  rewrite lookup_app_r by lia. f_equal. lia.
Qed.

Lemma at_index_drop {A} (l : list A) (k : nat) i :
  0 <= i -> at_index (drop k l) i = at_index l (Z.of_nat k + i).
Proof.
  unfold at_index. intros Hi.
  destruct (Z.ltb_spec i 0); [lia|].
  destruct (Z.ltb_spec (Z.of_nat k + i) 0); [lia|].
  rewrite lookup_drop. f_equal. lia.
Qed.

Lemma at_index_take {A} (l : list A) (k : nat) i :
  i < Z.of_nat k -> at_index (take k l) i = at_index l i.
Proof.
  unfold at_index. intros Hi. destruct (Z.ltb_spec i 0); [reflexivity|].
  apply lookup_take_lt. lia.
Qed.

(** ** Trimming *)

Lemma trimStart_length l : (length (trimStart l) <= length l)%nat.
Proof.
  induction l as [|c l IH]; simpl; [lia|].
  destruct (isWhiteSpace c); simpl; lia.
Qed.

Lemma trimStart_drop l :
  trimStart l = drop (length l - length (trimStart l)) l.
Proof.
  induction l as [|c l IH]; simpl; [reflexivity|].
  destruct (isWhiteSpace c).
  - pose proof (trimStart_length l).
    replace (S (length l) - length (trimStart l))%nat
      with (S (length l - length (trimStart l))) by lia.
    exact IH.
  - simpl. by rewrite Nat.sub_diag.
Qed.

Lemma trimEnd_length l : (length (trimEnd l) <= length l)%nat.
Proof.
  unfold trimEnd. rewrite length_reverse.
  pose proof (trimStart_length (reverse l)) as H.
  by rewrite length_reverse in H.
Qed.

Lemma trimEnd_take l : trimEnd l = take (length (trimEnd l)) l.
Proof.
  unfold trimEnd at 1. rewrite (trimStart_drop (reverse l)), drop_reverse.
  rewrite reverse_involutive. f_equal.
  unfold trimEnd. rewrite !length_reverse.
  pose proof (trimStart_length (reverse l)) as H. rewrite length_reverse in H.
  lia.
Qed.

(** ** [LinesSliceCharSequence]: the layout of a slice *)

(** The text that a line contributes to a slice is a part of the line, and
    the additional offset is the column at which that part starts. *)
Lemma slice_piece_ok (line : jsstring) (trimFirstLineFully cws : bool)
    line' offset :
  (if trimFirstLineFully then ([], strlen line)
   else if negb cws
        then (trimEnd (trimStart line), strlen line - strlen (trimStart line))
        else (line, 0)) = (line', offset) ->
  0 <= offset /\ strlen line' + offset <= strlen line
  /\ forall x, 0 <= x < strlen line' ->
       at_index line' x = at_index line (offset + x).
Proof.
  unfold strlen. destruct trimFirstLineFully; [|destruct cws; simpl].
  - intros [= <- <-]. simpl. repeat split; try lia.
  - intros [= <- <-]. repeat split; lia.
  - intros [= <- <-].
    pose proof (trimStart_length line).
    pose proof (trimEnd_length (trimStart line)).
    repeat split; try lia.
    intros x Hx. rewrite (trimEnd_take (trimStart line)).
    rewrite at_index_take by lia.
    rewrite (trimStart_drop line) at 1.
    rewrite at_index_drop by lia. f_equal. lia.
Qed.

Lemma rowEnd_Some es fs j f' : fs !! S j = Some f' -> rowEnd es fs j = f' - 1.
Proof. unfold rowEnd. by intros ->. Qed.

Lemma rowEnd_None es fs j : fs !! S j = None -> rowEnd es fs j = arrlen es.
Proof. unfold rowEnd. by intros ->. Qed.

(** A row that is followed by another one stays as it is when the slice
    grows. *)
Lemma row_ok_grow lines start0 es fs adds j es' fs' adds' :
  is_Some (fs !! S j) ->
  row_ok lines start0 es fs adds j ->
  row_ok lines start0 (es ++ es') (fs ++ fs') (adds ++ adds') j.
Proof.
  intros [f' Hf'] (line & fj & aj & Hfj & Haj & Hline & Ha0 & Hf & He & Hlen
                   & Hchars & Hlf).
  rewrite (rowEnd_Some _ _ _ _ Hf') in *.
  assert (Hf'' : (fs ++ fs') !! S j = Some f')
    by (by apply lookup_app_l_Some).
  exists line, fj, aj. rewrite (rowEnd_Some _ _ _ _ Hf'').
  unfold arrlen in *. rewrite length_app.
  repeat split; try lia.
  - by apply lookup_app_l_Some.
  - by apply lookup_app_l_Some.
  - exact Hline.
  - intros x Hx. rewrite at_index_app_l by (unfold arrlen; lia). by apply Hchars.
  - intros f'0 Hf'0. rewrite Hf'' in Hf'0. injection Hf'0 as <-.
    rewrite at_index_app_l; [by apply Hlf|].
    specialize (Hlf f' Hf'). apply at_index_Some in Hlf. unfold arrlen in *. lia.
Qed.

Lemma layout_line_inv lines start0 cws b t i :
  layout_inv lines start0 b t -> i = start0 + Z.of_nat t -> 0 <= start0 ->
  i < arrlen lines - 1 ->
  exists b', LinesSliceCharSequence_line lines start0 cws b i = Some b'
             /\ layout_inv lines start0 b' (S t).
Proof.
  intros (fs & Hfs & Hlen & Hlast & Hadd & _ & Hrows) -> Hs Hi.
  unfold LinesSliceCharSequence_line.
  destruct (at_index_is_Some lines (start0 + Z.of_nat t)) as [line Hline];
    [lia|]. rewrite Hline. simpl.
  destruct (if build_trimFirstLineFully b then _ else _) as [line' offset] eqn:Hp.
  apply slice_piece_ok in Hp as (Ho & Hl & Hchars).
  destruct (Z.ltb_spec (start0 + Z.of_nat t) (arrlen lines - 1)); [|lia].
  eexists; split; [reflexivity|].
  set (es := build_elements b) in *. set (adds := build_additionalOffsetByLine b) in *.
  assert (Hlen' : arrlen ((es ++ line') ++ [CharCode.LineFeed])
                  = arrlen es + strlen line' + 1).
  { unfold arrlen, strlen. rewrite !length_app. simpl. lia. }
  exists (fs ++ [arrlen es + strlen line' + 1]).
  simpl. rewrite Hlen'.
  split; [|split; [|split; [|split; [|split]]]].
  - replace (Z.to_nat (start0 + Z.of_nat t - start0 + 1)) with (S t) by lia.
    rewrite Hfs, fmap_app. simpl.
    replace (S t) with (length (Some <$> fs)) by (rewrite length_fmap; lia).
    apply arr_set_snoc.
  - rewrite length_app. simpl. lia.
  - rewrite lookup_app_r by lia. replace (S t - length fs)%nat with 0%nat by lia.
    reflexivity.
  - rewrite length_app. simpl. lia.
  - right. lia.
  - intros j Hj. destruct (decide (j < t)%nat) as [Hjt|Hjt].
    + rewrite <- (assoc_L (++) es). apply row_ok_grow; [|by apply Hrows].
      apply lookup_lt_is_Some. lia.
    + assert (j = t) as -> by lia.
      assert (Hnext : (fs ++ [arrlen es + strlen line' + 1]) !! S t
                      = Some (arrlen es + strlen line' + 1)).
      { rewrite lookup_app_r by lia.
        replace (S t - length fs)%nat with 0%nat by lia. reflexivity. }
      exists line, (arrlen es), offset.
      rewrite (rowEnd_Some _ _ _ _ Hnext).
      split; [by apply lookup_app_l_Some|].
      split; [rewrite lookup_app_r by lia;
              replace (t - length adds)%nat with 0%nat by lia; reflexivity|].
      split; [exact Hline|].
      assert (Hes : arrlen ((es ++ line') ++ [CharCode.LineFeed])
                    = arrlen es + strlen line' + 1) by exact Hlen'.
      unfold strlen in *.
      repeat split; try lia.
      * unfold arrlen; lia.
      * intros x Hx. rewrite <- (assoc_L (++) es).
        rewrite at_index_app_r by lia.
        rewrite at_index_app_l by (unfold arrlen; lia). apply Hchars. lia.
      * intros f' Hf'. rewrite Hnext in Hf'. injection Hf' as <-.
        replace (arrlen es + Z.of_nat (length line') + 1 - 1)
          with (arrlen (es ++ line') + 0)
          by (unfold arrlen; rewrite length_app; lia).
        rewrite at_index_app_r by lia. reflexivity.
Qed.

(** A row stays as it is when text is put after a slice whose last row it
    is not. *)
Lemma layout_line_last lines start0 cws b t i :
  layout_inv lines start0 b t -> i = start0 + Z.of_nat t -> 0 <= start0 ->
  i = arrlen lines - 1 ->
  exists b', LinesSliceCharSequence_line lines start0 cws b i = Some b'
             /\ layout_post lines start0 b' (S t).
Proof.
  intros (fs & Hfs & Hlen & Hlast & Hadd & _ & Hrows) Hi Hs Hn.
  unfold LinesSliceCharSequence_line.
  destruct (at_index_is_Some lines i) as [line Hline]; [lia|].
  rewrite Hline. simpl.
  destruct (if build_trimFirstLineFully b then _ else _) as [line' offset] eqn:Hp.
  apply slice_piece_ok in Hp as (Ho & Hl & Hchars).
  destruct (Z.ltb_spec i (arrlen lines - 1)); [lia|].
  eexists; split; [reflexivity|].
  set (es := build_elements b) in *. set (adds := build_additionalOffsetByLine b) in *.
  exists fs. simpl.
  split; [exact Hfs|]. split; [rewrite length_app; simpl; lia|].
  split; [right; exact Hlen|].
  intros j Hj. destruct (decide (j < t)%nat) as [Hjt|Hjt].
  - rewrite <- (app_nil_r fs). apply row_ok_grow; [|by apply Hrows].
    apply lookup_lt_is_Some. lia.
  - assert (j = t) as -> by lia.
    assert (Hnext : fs !! S t = None) by (apply lookup_ge_None; lia).
    exists line, (arrlen es), offset.
    rewrite (rowEnd_None _ _ _ Hnext).
    split; [exact Hlast|].
    split; [rewrite lookup_app_r by lia;
            replace (t - length adds)%nat with 0%nat by lia; reflexivity|].
    split; [by rewrite <- Hi|].
    assert (Hes : arrlen (es ++ line') = arrlen es + strlen line')
      by (unfold arrlen, strlen; rewrite length_app; lia).
    rewrite Hes. unfold strlen in *.
    repeat split; try lia.
    + unfold arrlen; lia.
    + intros x Hx. rewrite at_index_app_r by lia. apply Hchars. lia.
    + intros f' Hf'. congruence.
Qed.

Lemma layout_inv_post lines start0 b t :
  layout_inv lines start0 b t -> layout_post lines start0 b t.
Proof.
  intros (fs & ? & ? & ? & ? & ? & ?). exists fs. repeat split; auto.
Qed.

Lemma layout_loop lines start0 cws (n : nat) :
  forall a b t,
    layout_inv lines start0 b t -> a = start0 + Z.of_nat t -> 0 <= start0 ->
    a + Z.of_nat n <= arrlen lines ->
    exists b',
      forEachM (LinesSliceCharSequence_line lines start0 cws) b
        (seqZ a (Z.of_nat n)) = Some b'
      /\ layout_post lines start0 b' (t + n).
Proof.
  induction n as [|n IH]; intros a b t Hinv Ha Hs Hn.
  - simpl. exists b. split; [reflexivity|].
    rewrite Nat.add_0_r. by apply layout_inv_post.
  - rewrite seqZ_succ. simpl.
    destruct (decide (a < arrlen lines - 1)) as [Hlt|Hge].
    + destruct (layout_line_inv lines start0 cws b t a)
        as (b1 & -> & Hinv1); auto.
      simpl. destruct (IH (a + 1) b1 (S t)) as (b' & -> & Hpost); auto; try lia.
      exists b'. split; [reflexivity|].
      by replace (t + S n)%nat with (S t + n)%nat by lia.
    + assert (n = 0%nat) as -> by lia.
      destruct (layout_line_last lines start0 cws b t a)
        as (b1 & -> & Hpost); auto; try lia.
      simpl. exists b1. split; [reflexivity|].
      by replace (t + 1)%nat with (S t) by lia.
Qed.

(** The constructor builds a slice over every range of the document, and
    lays it out in rows. *)
Lemma newLinesSliceCharSequence_layout lines range cws :
  0 <= start range <= endExclusive range -> endExclusive range <= arrlen lines ->
  exists s fs t,
    newLinesSliceCharSequence lines range cws = Some s
    /\ lineRange s = effectiveLineRange lines range
    /\ slice_layout lines s fs t.
Proof.
  intros Hr Hle.
  destruct (newLinesSliceCharSequence_tables lines range cws Hr Hle)
    as (s0 & fs0 & Hs0 & Hrange0 & Hfs0 & Hinc & H0 & _).
  revert Hs0. unfold newLinesSliceCharSequence.
  fold (effectiveLineRange lines range).
  set (r := effectiveLineRange lines range).
  assert (Hr' : 0 <= start r <= endExclusive r /\ endExclusive r <= arrlen lines).
  { subst r. unfold effectiveLineRange.
    destruct (Z.gtb_spec (start range) 0); simpl; [|lia].
    destruct (endExclusive range >=? arrlen lines); simpl; lia. }
  destruct (layout_loop lines (start r) cws
              (Z.to_nat (endExclusive r - start r)) (start r)
              (mkSliceBuild [] (arr_set [] 0 0) []
                 ((start range >? 0) && (endExclusive range >=? arrlen lines)))
              0%nat)
    as (b & Hb & fs & Hfs & Hadd & Hshape & Hrows); try lia.
  - exists [0]. simpl. repeat split; auto. intros j Hj. lia.
  - rewrite Z2Nat.id in Hb by lia. rewrite Hb. simpl.
    intros [= <-]. simpl in *.
    assert (fs0 = fs) as ->.
    { rewrite Hfs in Hfs0. eapply (inj (fmap Some)). symmetry. exact Hfs0. }
    eexists; exists fs, (Z.to_nat (endExclusive r - start r)).
    split; [reflexivity|]. split; [reflexivity|].
    unfold slice_layout. simpl.
    split; [exact Hfs|]. split; [exact Hinc|]. split; [exact H0|].
    split; [lia|]. split; [lia|].
    split; [rewrite length_app; simpl; lia|].
    split; [rewrite lookup_app_r by lia;
            replace (_ - _)%nat with 0%nat by lia; reflexivity|].
    split; [exact Hshape|].
    intros j Hj. rewrite <- (app_nil_r fs), <- (app_nil_r (build_elements b)).
    destruct (Hrows j Hj) as (line & fj & aj & Hfj & Haj & Hrest).
    exists line, fj, aj. rewrite !app_nil_r.
    split; [exact Hfj|]. split; [by apply lookup_app_l_Some|]. exact Hrest.
Qed.

Lemma increasing_le fs (x y : nat) fx fy :
  increasing fs -> (x <= y)%nat -> fs !! x = Some fx -> fs !! y = Some fy ->
  fx <= fy.
Proof.
  intros Hinc Hxy Hx Hy. destruct (decide (x = y)) as [->|Hne].
  - assert (fx = fy) by congruence. lia.
  - assert (fx < fy); [|lia]. apply (Hinc x y); [lia | assumption | assumption].
Qed.

Lemma rowOf_unique fs o k k' :
  increasing fs -> rowOf fs o k -> rowOf fs o k' -> k = k'.
Proof.
  intros Hinc [(fk & Hk & Hle) Hnext] [(fk' & Hk' & Hle') Hnext'].
  destruct (Nat.lt_trichotomy k k') as [Hlt | [-> | Hgt]]; [|reflexivity|].
  - destruct (lookup_lt_is_Some_2 fs (S k)) as [f Hf].
    { apply lookup_lt_Some in Hk'. lia. }
    pose proof (Hnext f Hf).
    pose proof (increasing_le fs (S k) k' f fk' Hinc ltac:(lia) Hf Hk'). lia.
  - destruct (lookup_lt_is_Some_2 fs (S k')) as [f Hf].
    { apply lookup_lt_Some in Hk. lia. }
    pose proof (Hnext' f Hf).
    pose proof (increasing_le fs (S k') k f fk Hinc ltac:(lia) Hf Hk). lia.
Qed.

(** On a slice that is not empty, [translateOffset] finds the row of the
    offset and counts the column from the start of the row. *)
Lemma translateOffset_rowOf lines s fs t offset :
  slice_layout lines s fs t -> (0 < t)%nat -> 0 <= offset ->
  exists (k : nat) fk ak,
    rowOf fs offset k /\ fs !! k = Some fk
    /\ additionalOffsetByLine s !! k = Some ak
    /\ LinesSliceCharSequence.translateOffset s offset
       = Some (mkPosition (start (lineRange s) + Z.of_nat k + 1)
                          (offset - fk + ak + 1)).
Proof.
  intros (Hfs & Hinc & H0 & Ht & Hs0 & Hadd & _ & Hshape & _) Htpos Ho.
  unfold LinesSliceCharSequence.translateOffset.
  destruct (Z.eqb_spec (start (lineRange s)) (endExclusive (lineRange s)))
    as [Heq|_]; [lia|].
  unfold OffsetRange.isEmpty.
  destruct (Z.eqb_spec (start (lineRange s)) (endExclusive (lineRange s)))
    as [Heq|_]; [lia|].
  set (p := fun value : option (option Z) =>
              match value with
              | Some (Some value) => value <=? offset
              | _ => false
              end).
  assert (Hget : forall (x : nat) fx, fs !! x = Some fx ->
                 at_index (firstCharOffsetByLine s) (Z.of_nat x) = Some (Some fx)).
  { intros x fx Hx. rewrite at_index_nat, Hfs, list_lookup_fmap, Hx. reflexivity. }
  assert (Hget' : forall x v, at_index (firstCharOffsetByLine s) x = Some v ->
                  exists fx, v = Some fx /\ fs !! Z.to_nat x = Some fx /\ 0 <= x).
  { intros x v Hx. apply at_index_Some in Hx as [Hx1 Hx2].
    rewrite Hfs, list_lookup_fmap in Hx2.
    destruct (fs !! Z.to_nat x) as [fx|]; [|discriminate].
    injection Hx2 as <-. exists fx. repeat split; lia. }
  assert (Hmono : forall x y, 0 <= x <= y -> y < arrlen (firstCharOffsetByLine s) ->
            p (at_index (firstCharOffsetByLine s) y) = true ->
            p (at_index (firstCharOffsetByLine s) x) = true).
  { intros x y Hxy Hy Hp.
    destruct (at_index (firstCharOffsetByLine s) y) as [vy|] eqn:Ey; [|discriminate].
    destruct (Hget' _ _ Ey) as (fy & -> & Hfy & _). simpl in Hp.
    destruct (at_index_is_Some (firstCharOffsetByLine s) x) as [vx Ex]; [lia|].
    rewrite Ex. destruct (Hget' _ _ Ex) as (fx & -> & Hfx & _). simpl.
    apply Z.leb_le in Hp. apply Z.leb_le.
    pose proof (increasing_le fs (Z.to_nat x) (Z.to_nat y) fx fy Hinc
                  ltac:(lia) Hfx Hfy). lia. }
  destruct (findLastIdxMonotonous_spec (firstCharOffsetByLine s) p Hmono)
    as (Hb & Htrue & Hfalse).
  set (k := findLastIdxMonotonous (firstCharOffsetByLine s) p) in *.
  assert (Hlenfs : arrlen (firstCharOffsetByLine s) = Z.of_nat (length fs)).
  { unfold arrlen. by rewrite Hfs, length_fmap. }
  assert (Hk0 : 0 <= k).
  { destruct (Z.le_gt_cases 0 k) as [|Hneg]; [assumption|].
    specialize (Hfalse 0). pose proof (Hget 0%nat 0 H0) as Hg0.
    change (Z.of_nat 0) with 0 in Hg0.
    rewrite Hg0 in Hfalse. simpl in Hfalse.
    assert (Hlt : k < 0 < arrlen (firstCharOffsetByLine s)).
    { split; [lia|]. apply lookup_lt_Some in H0. lia. }
    specialize (Hfalse Hlt). apply Z.leb_gt in Hfalse. lia. }
  destruct (at_index_is_Some (firstCharOffsetByLine s) k) as [vk Ek]; [lia|].
  destruct (Hget' _ _ Ek) as (fk & -> & Hfk & _).
  assert (Hpk : fk <= offset).
  { specialize (Htrue k). rewrite Ek in Htrue. simpl in Htrue.
    apply Z.leb_le, Htrue. lia. }
  destruct (lookup_lt_is_Some_2 (additionalOffsetByLine s) (Z.to_nat k))
    as [ak Eak].
  { destruct Hshape as [(? & _)|?]; lia. }
  exists (Z.to_nat k), fk, ak.
  split; [split; [by exists fk|]|].
  - intros f' Hf'. pose proof (Hget _ _ Hf') as Hg.
    specialize (Hfalse (Z.of_nat (S (Z.to_nat k)))). rewrite Hg in Hfalse.
    simpl in Hfalse. apply lookup_lt_Some in Hf'.
    apply Z.leb_gt, Hfalse. lia.
  - split; [exact Hfk|]. split; [exact Eak|].
    unfold arr_get. rewrite Ek. simpl.
    unfold at_index. destruct (Z.ltb_spec k 0); [lia|]. rewrite Eak. simpl.
    do 2 f_equal. lia.
Qed.

Lemma validatePosition_true p lines line :
  at_index lines (lineNumber p - 1) = Some line ->
  1 <= column p <= strlen line + 1 ->
  validatePosition p lines = true.
Proof.
  intros Hline Hcol. unfold validatePosition. rewrite Hline.
  apply at_index_Some in Hline as [Hl _].
  destruct (Z.ltb_spec (lineNumber p) 1); [lia|].
  destruct (Z.gtb_spec (lineNumber p) (arrlen lines)); [lia|]. simpl.
  destruct (Z.ltb_spec (column p) 1); [lia|].
  destruct (Z.gtb_spec (column p) (strlen line + 1)); [lia|]. reflexivity.
Qed.

(** The row of an offset of the slice, with what [row_ok] says of it, or
    the row that would follow the last line feed. *)
Lemma slice_layout_row lines s fs t offset k fk :
  slice_layout lines s fs t -> rowOf fs offset k -> fs !! k = Some fk ->
  0 <= offset <= arrlen (elements s) ->
  (k < t)%nat /\ offset <= rowEnd (elements s) fs k
  \/ k = t /\ offset = arrlen (elements s) /\ fk = offset
     /\ (t = 0%nat \/ start (lineRange s) + Z.of_nat t < arrlen lines).
Proof.
  intros (Hfs & Hinc & H0 & Ht & Hs0 & Hadd & Hlast & Hshape & Hrows)
         [(fk' & Hk & Hle) Hnext] Hfk Ho.
  assert (fk' = fk) as -> by congruence.
  pose proof (lookup_lt_Some _ _ _ Hk) as Hklt.
  assert (Hend : (k < t)%nat -> offset <= rowEnd (elements s) fs k).
  { intros Hkt. unfold rowEnd. destruct (fs !! S k) as [f'|] eqn:Hf'; [|lia].
    specialize (Hnext f' eq_refl). lia. }
  destruct Hshape as [(Hlen & Hft & Hn)|Hlen].
  - destruct (decide (k < t)%nat) as [Hkt|Hkt]; [left; auto|].
    assert (k = t) as -> by lia. right.
    assert (fk = arrlen (elements s)) by congruence. repeat split; auto; lia.
  - left. split; [lia|]. apply Hend. lia.
Qed.

Lemma slice_valid_position (lines : list jsstring) (range : OffsetRange)
    (cws : bool) :
  lines <> [] ->
  0 <= start range <= endExclusive range -> endExclusive range <= arrlen lines ->
  exists s,
    newLinesSliceCharSequence lines range cws = Some s
    /\ forall offset,
         0 <= offset <= LinesSliceCharSequence.length s ->
         exists p,
           LinesSliceCharSequence.translateOffset s offset = Some p
           /\ validatePosition p lines = true.
Proof.
  intros Hne Hr Hle.
  destruct (newLinesSliceCharSequence_layout lines range cws Hr Hle)
    as (s & fs & t & Hs & Hrange & Hlay).
  exists s. split; [exact Hs|]. intros offset Ho.
  assert (Hn : 0 < arrlen lines).
  { destruct lines; [done | unfold arrlen; simpl; lia]. }
  destruct (decide (t = 0%nat)) as [->|Htpos].
  - destruct Hlay as (_ & _ & _ & Ht & _).
    unfold LinesSliceCharSequence.translateOffset, OffsetRange.isEmpty.
    destruct (Z.eqb_spec (start (lineRange s)) (endExclusive (lineRange s)));
      [|lia].
    eexists; split; [reflexivity|].
    assert (Hstart : 0 <= start (lineRange s) < arrlen lines).
    { revert e. rewrite Hrange. unfold effectiveLineRange.
      destruct (Z.gtb_spec (start range) 0); simpl; [|lia].
      destruct (Z.geb_spec (endExclusive range) (arrlen lines)); simpl; lia. }
    destruct (at_index_is_Some lines (start (lineRange s)) Hstart) as [line Hl].
    apply (validatePosition_true _ _ line); simpl.
    + by replace (start (lineRange s) + 1 - 1) with (start (lineRange s)) by lia.
    + unfold strlen. lia.
  - destruct (translateOffset_rowOf lines s fs t offset Hlay) as
      (k & fk & ak & Hrow & Hfk & Hak & ->); [lia | lia |].
    eexists; split; [reflexivity|].
    destruct (slice_layout_row lines s fs t offset k fk Hlay Hrow Hfk Ho)
      as [[Hkt Hend] | (-> & Hoff & Hfko & Hnext)].
    + destruct Hlay as (_ & _ & _ & _ & _ & _ & _ & _ & Hrows).
      destruct (Hrows k Hkt) as (line & fj & aj & Hfj & Haj & Hline & Ha0 & Hf
                                 & He & Hlen & _).
      assert (fj = fk) as -> by congruence.
      assert (aj = ak) as -> by congruence.
      apply (validatePosition_true _ _ line); simpl.
      * by replace (start (lineRange s) + Z.of_nat k + 1 - 1)
          with (start (lineRange s) + Z.of_nat k) by lia.
      * destruct Hrow as [(fk' & Hk' & Hle') _].
        assert (fk' = fk) as -> by congruence. lia.
    + destruct Hlay as (_ & _ & _ & _ & Hs0 & _ & Hlast & _).
      assert (ak = 0) as -> by congruence.
      destruct (at_index_is_Some lines (start (lineRange s) + Z.of_nat t))
        as [line Hl]; [lia|].
      apply (validatePosition_true _ _ line); simpl.
      * by replace (start (lineRange s) + Z.of_nat t + 1 - 1)
          with (start (lineRange s) + Z.of_nat t) by lia.
      * unfold strlen. lia.
Qed.


(** [translateOffset] gives a position of the document: on a slice over a
    range of a document that is not empty, the position of every offset from
    [0] to the length of the slice has a line number between [1] and the
    number of lines, and a column between [1] and one past the end of that
    line, which is what [computeDiff] asserts of its result. *)
Theorem translateOffset_valid_position (lines : list jsstring)
    (range : OffsetRange) (cws : bool) (offset : Z) :
  lines <> [] ->
  0 <= start range <= endExclusive range -> endExclusive range <= arrlen lines ->
  exists s,
    newLinesSliceCharSequence lines range cws = Some s
    /\ (0 <= offset <= LinesSliceCharSequence.length s ->
        exists p,
          LinesSliceCharSequence.translateOffset s offset = Some p
          /\ validatePosition p lines = true).
Proof.
  intros Hne Hr Hle.
  destruct (slice_valid_position lines range cws Hne Hr Hle) as (s & Hs & Hp).
  exists s. split; [exact Hs | apply Hp].
Qed.

Lemma translateOffset_valid_position_witness :
  exists s p,
    newLinesSliceCharSequence [codes "ab"; codes "  cd "; codes "e"]
      (mkOffsetRange 1 3) false = Some s
    /\ LinesSliceCharSequence.translateOffset s 4 = Some p
    /\ p = mkPosition 3 1
    /\ validatePosition p [codes "ab"; codes "  cd "; codes "e"] = true.
Proof.
  destruct (translateOffset_valid_position
              [codes "ab"; codes "  cd "; codes "e"] (mkOffsetRange 1 3)
              false 4) as (s & Hs & Hp).
  - discriminate.
  - simpl; lia.
  - unfold arrlen; simpl; lia.
  - vm_compute in Hs. injection Hs as <-.
    destruct Hp as (p & Hp & Hvalid); [vm_compute; split; discriminate|].
    eexists; exists p. split; [vm_compute; reflexivity|].
    split; [exact Hp|]. split; [|exact Hvalid].
    vm_compute in Hp. by injection Hp as <-.
Defined.

(** [translateOffset] points at the element: on a slice over a range of a
    document, every element that is not a line feed is the character of the
    document at the position that [translateOffset] gives for its offset,
    whether the slice trims its lines or not. *)
Theorem translateOffset_points_at_element (lines : list jsstring)
    (range : OffsetRange) (cws : bool) (offset : Z) (c : char) :
  0 <= start range <= endExclusive range -> endExclusive range <= arrlen lines ->
  exists s,
    newLinesSliceCharSequence lines range cws = Some s
    /\ (LinesSliceCharSequence.getElement s offset = Some c ->
        c <> CharCode.LineFeed ->
        exists p line,
          LinesSliceCharSequence.translateOffset s offset = Some p
          /\ at_index lines (lineNumber p - 1) = Some line
          /\ at_index line (column p - 1) = Some c).
Proof.
  intros Hr Hle.
  destruct (newLinesSliceCharSequence_layout lines range cws Hr Hle)
    as (s & fs & t & Hs & Hrange & Hlay).
  exists s. split; [exact Hs|]. unfold LinesSliceCharSequence.getElement.
  intros Hc Hnl. pose proof (at_index_Some _ _ _ Hc) as [Ho _].
  assert (Htpos : (0 < t)%nat).
  { destruct Hlay as (_ & _ & H0 & _ & _ & _ & _ & Hshape & _).
    destruct t; [|lia]. exfalso.
    destruct Hshape as [(_ & Hft & _)|Hlen].
    - assert (0 = arrlen (elements s)) by congruence. lia.
    - apply lookup_lt_Some in H0. lia. }
  destruct (translateOffset_rowOf lines s fs t offset Hlay) as
    (k & fk & ak & Hrow & Hfk & Hak & ->); [lia | lia |].
  destruct (slice_layout_row lines s fs t offset k fk Hlay Hrow Hfk)
    as [[Hkt Hend] | (_ & Hoff & _)]; [lia | | lia].
  destruct Hlay as (_ & _ & _ & _ & _ & _ & _ & _ & Hrows).
  destruct (Hrows k Hkt) as (line & fj & aj & Hfj & Haj & Hline & Ha0 & Hf
                             & He & Hlen & Hchars & Hlf).
  assert (fj = fk) as -> by congruence.
  assert (aj = ak) as -> by congruence.
  destruct Hrow as [(fk' & Hk' & Hle') _].
  assert (fk' = fk) as -> by congruence.
  assert (Hlt : offset < rowEnd (elements s) fs k).
  { destruct (Z.eq_dec offset (rowEnd (elements s) fs k)) as [Heq|]; [|lia].
    exfalso. unfold rowEnd in Heq, He. destruct (fs !! S k) as [f'|] eqn:Hf'.
    - specialize (Hlf f' eq_refl). rewrite <- Heq in Hlf. congruence.
    - lia. }
  eexists; exists line. split; [reflexivity|]. simpl.
  split.
  - by replace (start (lineRange s) + Z.of_nat k + 1 - 1)
      with (start (lineRange s) + Z.of_nat k) by lia.
  - specialize (Hchars (offset - fk) ltac:(lia)).
    replace (fk + (offset - fk)) with offset in Hchars by lia.
    replace (offset - fk + ak + 1 - 1) with (ak + (offset - fk)) by lia.
    congruence.
Qed.

Lemma translateOffset_points_at_element_witness :
  exists s p line,
    newLinesSliceCharSequence [codes "ab"; codes "  cd "; codes "e"]
      (mkOffsetRange 1 2) false = Some s
    /\ LinesSliceCharSequence.getElement s 1 = Some 100%N
    /\ LinesSliceCharSequence.translateOffset s 1 = Some p
    /\ p = mkPosition 2 4
    /\ at_index [codes "ab"; codes "  cd "; codes "e"] (lineNumber p - 1)
       = Some line
    /\ at_index line (column p - 1) = Some 100%N.
Proof.
  destruct (translateOffset_points_at_element
              [codes "ab"; codes "  cd "; codes "e"] (mkOffsetRange 1 2)
              false 1 100%N) as (s & Hs & Hp).
  - simpl; lia.
  - unfold arrlen; simpl; lia.
  - vm_compute in Hs. injection Hs as <-.
    destruct Hp as (p & line & Hp & Hline & Hc);
      [vm_compute; reflexivity | discriminate |].
    eexists; exists p, line. split; [vm_compute; reflexivity|].
    split; [vm_compute; reflexivity|].
    split; [exact Hp|]. split; [|split; [exact Hline | exact Hc]].
    vm_compute in Hp. by injection Hp as <-.
Defined.

Lemma slice_translateRange (lines : list jsstring) (range : OffsetRange)
    (cws : bool) :
  0 <= start range <= endExclusive range -> endExclusive range <= arrlen lines ->
  exists s,
    newLinesSliceCharSequence lines range cws = Some s
    /\ forall r : OffsetRange,
         0 <= start r <= endExclusive r ->
         exists p1 p2,
           LinesSliceCharSequence.translateOffset s (start r) = Some p1
           /\ LinesSliceCharSequence.translateOffset s (endExclusive r) = Some p2
           /\ Position_le p1 p2
           /\ LinesSliceCharSequence.translateRange s r
              = Some (mkRange (lineNumber p1) (column p1)
                        (lineNumber p2) (column p2)).
Proof.
  intros Hr Hle.
  destruct (newLinesSliceCharSequence_layout lines range cws Hr Hle)
    as (s & fs & t & Hs & Hrange & Hlay).
  exists s. split; [exact Hs|]. intros r Hrr.
  assert (Hpos : exists p1 p2,
            LinesSliceCharSequence.translateOffset s (start r) = Some p1
            /\ LinesSliceCharSequence.translateOffset s (endExclusive r) = Some p2
            /\ Position_le p1 p2).
  { destruct (decide (t = 0%nat)) as [->|Htpos].
    - destruct Hlay as (_ & _ & _ & Ht & _).
      unfold LinesSliceCharSequence.translateOffset, OffsetRange.isEmpty.
      destruct (Z.eqb_spec (start (lineRange s)) (endExclusive (lineRange s)));
        [|lia].
      do 2 eexists. split; [reflexivity|]. split; [reflexivity|].
      right. simpl. lia.
    - destruct (translateOffset_rowOf lines s fs t (start r) Hlay) as
        (k1 & f1 & a1 & Hrow1 & Hf1 & Ha1 & ->); [lia | lia |].
      destruct (translateOffset_rowOf lines s fs t (endExclusive r) Hlay) as
        (k2 & f2 & a2 & Hrow2 & Hf2 & Ha2 & ->); [lia | lia |].
      do 2 eexists. split; [reflexivity|]. split; [reflexivity|].
      destruct Hlay as (_ & Hinc & _).
      unfold Position_le. simpl.
      destruct (Nat.lt_trichotomy k1 k2) as [Hlt | [-> | Hgt]].
      + left. lia.
      + right. assert (f1 = f2) as -> by congruence.
        assert (a1 = a2) as -> by congruence. lia.
      + exfalso. destruct Hrow1 as [(f1' & Hf1' & Hle1) _].
        destruct Hrow2 as [_ Hnext2].
        assert (f1' = f1) as -> by congruence.
        destruct (lookup_lt_is_Some_2 fs (S k2)) as [f Hf].
        { apply lookup_lt_Some in Hf1. lia. }
        pose proof (Hnext2 f Hf).
        pose proof (increasing_le fs (S k2) k1 f f1 Hinc ltac:(lia) Hf Hf1).
        lia. }
  destruct Hpos as (p1 & p2 & Hp1 & Hp2 & Hle12).
  exists p1, p2. split; [exact Hp1|]. split; [exact Hp2|].
  split; [exact Hle12|].
  unfold LinesSliceCharSequence.translateRange. rewrite Hp1, Hp2. simpl.
  unfold Range.fromPositions, Range.new. f_equal.
  destruct Hle12 as [Hlt | [Heq Hcol]].
  - destruct (Z.ltb_spec (lineNumber p2) (lineNumber p1)); [lia|].
    destruct (Z.eqb_spec (lineNumber p1) (lineNumber p2)); [lia|]. reflexivity.
  - destruct (Z.ltb_spec (lineNumber p2) (lineNumber p1)); [lia|].
    destruct (Z.ltb_spec (column p2) (column p1)); [lia|].
    by rewrite andb_false_r.
Qed.


(** [translateRange] never swaps: on a slice over a range of a document, the
    position of a later offset is not before the position of an earlier
    one, so that the range of positions that [translateRange] builds for an
    offset range runs from the position of its start to the position of its
    end. *)
Theorem translateRange_ordered (lines : list jsstring) (range : OffsetRange)
    (cws : bool) (r : OffsetRange) :
  0 <= start range <= endExclusive range -> endExclusive range <= arrlen lines ->
  0 <= start r <= endExclusive r ->
  exists s p1 p2,
    newLinesSliceCharSequence lines range cws = Some s
    /\ LinesSliceCharSequence.translateOffset s (start r) = Some p1
    /\ LinesSliceCharSequence.translateOffset s (endExclusive r) = Some p2
    /\ Position_le p1 p2
    /\ LinesSliceCharSequence.translateRange s r
       = Some (mkRange (lineNumber p1) (column p1) (lineNumber p2) (column p2)).
Proof.
  intros Hr Hle Hrr.
  destruct (slice_translateRange lines range cws Hr Hle) as (s & Hs & Hp).
  destruct (Hp r Hrr) as (p1 & p2 & Hrest).
  exists s, p1, p2. split; [exact Hs | exact Hrest].
Qed.

Lemma translateRange_ordered_witness :
  exists s,
    newLinesSliceCharSequence [codes "ab"; codes "  cd "; codes "e"]
      (mkOffsetRange 0 3) true = Some s
    /\ LinesSliceCharSequence.translateOffset s 1 = Some (mkPosition 1 2)
    /\ LinesSliceCharSequence.translateOffset s 5 = Some (mkPosition 2 3)
    /\ Position_le (mkPosition 1 2) (mkPosition 2 3)
    /\ LinesSliceCharSequence.translateRange s (mkOffsetRange 1 5)
       = Some (mkRange 1 2 2 3).
Proof.
  destruct (translateRange_ordered
              [codes "ab"; codes "  cd "; codes "e"] (mkOffsetRange 0 3)
              true (mkOffsetRange 1 5))
    as (s & p1 & p2 & Hs & Hp1 & Hp2 & Hle & Hr).
  - simpl; lia.
  - unfold arrlen; simpl; lia.
  - simpl; lia.
  - vm_compute in Hs. injection Hs as <-.
    vm_compute in Hp1. injection Hp1 as <-.
    vm_compute in Hp2. injection Hp2 as <-.
    eexists. split; [vm_compute; reflexivity|].
    split; [vm_compute; reflexivity|]. split; [vm_compute; reflexivity|].
    split; [exact Hle | exact Hr].
Defined.

Lemma slice_layout_nonempty lines s fs t :
  slice_layout lines s fs t -> 0 < arrlen (elements s) -> (0 < t)%nat.
Proof.
  intros (_ & _ & H0 & _ & _ & _ & _ & Hshape & _) Hes.
  destruct t; [|lia]. exfalso.
  destruct Hshape as [(_ & Hft & _)|Hlen].
  - assert (0 = arrlen (elements s)) by congruence. lia.
  - apply lookup_lt_Some in H0. lia.
Qed.

Lemma rowOf_0 fs : increasing fs -> fs !! 0%nat = Some 0 -> rowOf fs 0 0.
Proof.
  intros Hinc H0. split; [exists 0; split; [exact H0 | lia]|].
  intros f' Hf'. apply (Hinc 0%nat 1%nat); [lia | exact H0 | exact Hf'].
Qed.

Lemma countLineFeeds_snoc l c :
  countLineFeeds (l ++ [c])
  = countLineFeeds l + (if decide (c = CharCode.LineFeed) then 1 else 0).
Proof.
  rewrite countLineFeeds_app. f_equal. unfold countLineFeeds, arrlen.
  destruct (decide (c = CharCode.LineFeed)) as [->|Hc].
  - reflexivity.
  - by rewrite filter_cons_False.
Qed.

(** The row of an offset is the number of line feeds before it. *)
Lemma rowOf_lineFeeds lines s fs t :
  slice_layout lines s fs t -> Forall noLineFeed lines ->
  forall (n : nat) k,
    (n <= length (elements s))%nat -> rowOf fs (Z.of_nat n) k ->
    Z.of_nat k = countLineFeeds (take n (elements s)).
Proof.
  intros Hlay Hnl. induction n as [|n IH]; intros k' Hn Hrow'.
  - pose proof Hlay as (_ & Hinc & H0 & _).
    rewrite (rowOf_unique fs 0 k' 0%nat Hinc Hrow' (rowOf_0 fs Hinc H0)).
    reflexivity.
  - assert (Htpos : (0 < t)%nat).
    { apply (slice_layout_nonempty lines s fs t Hlay). unfold arrlen. lia. }
    destruct (translateOffset_rowOf lines s fs t (Z.of_nat n) Hlay) as
      (k & fk & ak & Hrow & Hfk & Hak & _); [lia | lia |].
    specialize (IH k ltac:(lia) Hrow).
    destruct (slice_layout_row lines s fs t (Z.of_nat n) k fk Hlay Hrow Hfk)
      as [[Hkt Hend] | (_ & Hoff & _)];
      [unfold arrlen; lia | | unfold arrlen in Hoff; lia].
    pose proof Hlay as (_ & Hinc & _ & _ & _ & _ & _ & _ & Hrows).
    destruct (Hrows k Hkt) as (line & fj & aj & Hfj & Haj & Hline & Ha0 & Hf
                               & He & Hlen & Hchars & Hlf).
    assert (fj = fk) as -> by congruence.
    destruct Hrow as [(fk' & Hk' & Hle') Hnext].
    assert (fk' = fk) as -> by congruence.
    destruct (lookup_lt_is_Some_2 (elements s) n) as [c Hc]; [lia|].
    rewrite (take_S_r _ _ _ Hc), countLineFeeds_snoc, <- IH.
    destruct (Z.eq_dec (Z.of_nat n) (rowEnd (elements s) fs k)) as [Heq|Hneq].
    + unfold rowEnd in Heq. destruct (fs !! S k) as [f'|] eqn:Hf';
        [|unfold arrlen in Heq; lia].
      specialize (Hlf f' eq_refl). rewrite <- Heq, at_index_nat, Hc in Hlf.
      injection Hlf as ->.
      rewrite (rowOf_unique fs (Z.of_nat (S n)) k' (S k) Hinc Hrow').
      * destruct (decide _); [lia | done].
      * split; [exists f'; split; [exact Hf' | lia]|].
        intros f'' Hf''.
        pose proof (Hinc (S k) (S (S k)) f' f'' ltac:(lia) Hf' Hf''). lia.
    + specialize (Hchars (Z.of_nat n - fk) ltac:(lia)).
      replace (fk + (Z.of_nat n - fk)) with (Z.of_nat n) in Hchars by lia.
      rewrite at_index_nat, Hc in Hchars. symmetry in Hchars.
      assert (Hcl : c <> CharCode.LineFeed).
      { apply at_index_Some in Hline as [_ Hline].
        apply at_index_Some in Hchars as [_ Hchars].
        eapply Forall_lookup_1 in Hnl; [|exact Hline].
        eapply Forall_lookup_1 in Hnl; [|exact Hchars]. exact Hnl. }
      rewrite (rowOf_unique fs (Z.of_nat (S n)) k' k Hinc Hrow').
      * destruct (decide _); [done | lia].
      * split; [exists fk; split; [exact Hfj | lia]|].
        intros f' Hf'. rewrite (rowEnd_Some _ _ _ _ Hf') in *. lia.
Qed.

(** [countLinesIn] counts line feeds: on a slice over a range of a document
    whose lines hold no line feed, the number that [countLinesIn] gives for
    an offset range of the slice is the number of line feeds among the
    elements of that range. *)
Theorem countLinesIn_lineFeeds (lines : list jsstring) (range : OffsetRange)
    (cws : bool) (r : OffsetRange) :
  Forall noLineFeed lines ->
  0 <= start range <= endExclusive range -> endExclusive range <= arrlen lines ->
  exists s,
    newLinesSliceCharSequence lines range cws = Some s
    /\ (0 <= start r <= endExclusive r ->
        endExclusive r <= LinesSliceCharSequence.length s ->
        LinesSliceCharSequence.countLinesIn s r
        = Some (countLineFeeds (LinesSliceCharSequence.getText s r))).
Proof.
  intros Hnl Hr Hle.
  destruct (newLinesSliceCharSequence_layout lines range cws Hr Hle)
    as (s & fs & t & Hs & Hrange & Hlay).
  exists s. split; [exact Hs|]. intros Hrr Hre.
  unfold LinesSliceCharSequence.length in Hre.
  unfold LinesSliceCharSequence.getText, OffsetRange.slice, js_slice.
  destruct (Z.ltb_spec (start r) 0); [lia|].
  destruct (Z.ltb_spec (endExclusive r) 0); [lia|].
  unfold LinesSliceCharSequence.countLinesIn.
  destruct (decide (t = 0%nat)) as [->|Htpos].
  - assert (Hes : elements s = []).
    { destruct (elements s) as [|c es] eqn:Hes; [reflexivity|].
      pose proof (slice_layout_nonempty lines s fs 0 Hlay) as Hpos.
      rewrite Hes in Hpos. unfold arrlen in Hpos. simpl in Hpos. lia. }
    destruct Hlay as (_ & _ & _ & Ht & _).
    unfold LinesSliceCharSequence.translateOffset, OffsetRange.isEmpty.
    destruct (Z.eqb_spec (start (lineRange s)) (endExclusive (lineRange s)));
      [|lia].
    simpl. rewrite Hes, take_nil, drop_nil. f_equal.
    change (countLineFeeds []) with 0. lia.
  - destruct (translateOffset_rowOf lines s fs t (start r) Hlay) as
      (k1 & f1 & a1 & Hrow1 & Hf1 & Ha1 & ->); [lia | lia |].
    destruct (translateOffset_rowOf lines s fs t (endExclusive r) Hlay) as
      (k2 & f2 & a2 & Hrow2 & Hf2 & Ha2 & ->); [lia | lia |].
    simpl. f_equal.
    rewrite <- (Z2Nat.id (start r)) in Hrow1 by lia.
    rewrite <- (Z2Nat.id (endExclusive r)) in Hrow2 by lia.
    apply (rowOf_lineFeeds lines s fs t Hlay Hnl) in Hrow1;
      [|unfold arrlen in Hre; lia].
    apply (rowOf_lineFeeds lines s fs t Hlay Hnl) in Hrow2;
      [|unfold arrlen in Hre; lia].
    rewrite <- (take_drop (Z.to_nat (start r))
                  (take (Z.to_nat (endExclusive r)) (elements s))) in Hrow2.
    rewrite countLineFeeds_app, take_take in Hrow2.
    replace (Z.to_nat (start r) `min` Z.to_nat (endExclusive r))%nat
      with (Z.to_nat (start r)) in Hrow2 by lia.
    lia.
Qed.

Lemma countLinesIn_lineFeeds_witness :
  exists s,
    newLinesSliceCharSequence [codes "ab"; codes "  cd "; codes "e"]
      (mkOffsetRange 0 3) false = Some s
    /\ LinesSliceCharSequence.getText s (mkOffsetRange 1 6)
       = codes "b" ++ [CharCode.LineFeed] ++ codes "cd" ++ [CharCode.LineFeed]
    /\ LinesSliceCharSequence.countLinesIn s (mkOffsetRange 1 6) = Some 2.
Proof.
  destruct (countLinesIn_lineFeeds
              [codes "ab"; codes "  cd "; codes "e"] (mkOffsetRange 0 3)
              false (mkOffsetRange 1 6)) as (s & Hs & Hcount).
  - repeat constructor; discriminate.
  - simpl; lia.
  - unfold arrlen; simpl; lia.
  - vm_compute in Hs. injection Hs as <-.
    eexists. split; [vm_compute; reflexivity|].
    split; [vm_compute; reflexivity|].
    rewrite Hcount; [reflexivity | simpl; lia | vm_compute; discriminate].
Defined.

(** ** [extendToFullLines] *)

Lemma table_lookup (fs : list Z) (i : Z) :
  0 <= i < Z.of_nat (length fs) ->
  exists f, fs !! Z.to_nat i = Some f
            /\ at_index (Some <$> fs) i = Some (Some f).
Proof.
  intros Hi. destruct (lookup_lt_is_Some_2 fs (Z.to_nat i)) as [f Hf]; [lia|].
  exists f. split; [exact Hf|]. unfold at_index.
  destruct (Z.ltb_spec i 0); [lia|]. by rewrite list_lookup_fmap, Hf.
Qed.

Lemma table_monotonous (fs : list Z) (p : option (option Z) -> bool)
    (P : Z -> bool) :
  increasing fs -> (forall x, p (Some (Some x)) = P x) ->
  (forall x y, x <= y -> P y = true -> P x = true) ->
  forall x y, 0 <= x <= y -> y < arrlen (Some <$> fs) ->
    p (at_index (Some <$> fs) y) = true -> p (at_index (Some <$> fs) x) = true.
Proof.
  intros Hinc Hp Hdown x y Hxy Hy. unfold arrlen in Hy. rewrite length_fmap in Hy.
  destruct (table_lookup fs x) as (fx & Hfx & ->); [lia|].
  destruct (table_lookup fs y) as (fy & Hfy & ->); [lia|].
  rewrite !Hp. apply Hdown.
  apply (increasing_le fs (Z.to_nat x) (Z.to_nat y)); auto. lia.
Qed.

Lemma slice_layout_table lines s fs t (j : nat) f :
  slice_layout lines s fs t -> fs !! j = Some f ->
  0 <= f <= arrlen (elements s) /\ isLineStart (elements s) f.
Proof.
  intros (Hfs & Hinc & H0 & Ht & Hs0 & Hadd & Hlast & Hshape & Hrows) Hf.
  pose proof (lookup_lt_Some _ _ _ Hf) as Hj.
  assert (Hbound : 0 <= f <= arrlen (elements s)).
  { destruct (decide (j < t)%nat) as [Hjt|Hjt].
    - destruct (Hrows j Hjt) as (line & fj & aj & Hfj & _ & _ & _ & Hb & He & _).
      assert (fj = f) as -> by congruence. lia.
    - destruct Hshape as [(Hlen & Hft & _)|Hlen]; [|lia].
      assert (j = t) as -> by lia.
      assert (f = arrlen (elements s)) as -> by congruence. unfold arrlen. lia. }
  split; [exact Hbound|]. destruct j as [|j].
  - left. congruence.
  - right. assert (Hjt : (j < t)%nat) by (destruct Hshape as [(? & _)|?]; lia).
    destruct (Hrows j Hjt) as (_ & _ & _ & _ & _ & _ & _ & _ & _ & _ & _ & Hlf).
    by apply Hlf.
Qed.

(** On a document whose lines hold no line feed, every start of a line of
    the slice is in the table of first offsets. *)
Lemma isLineStart_table lines s fs t o :
  slice_layout lines s fs t -> Forall noLineFeed lines ->
  0 <= o <= arrlen (elements s) -> isLineStart (elements s) o ->
  exists j : nat, fs !! j = Some o.
Proof.
  intros Hlay Hnl Ho [->|Hlf].
  - exists 0%nat. by destruct Hlay as (_ & _ & H0 & _).
  - pose proof (at_index_Some _ _ _ Hlf) as [Ho1 Hlf'].
    assert (Htpos : (0 < t)%nat)
      by (apply (slice_layout_nonempty lines s fs t Hlay); lia).
    destruct (translateOffset_rowOf lines s fs t (o - 1) Hlay) as
      (k & fk & ak & Hrow & Hfk & _); [lia | lia |].
    destruct (translateOffset_rowOf lines s fs t o Hlay) as
      (k' & fk' & ak' & Hrow' & Hfk' & _); [lia | lia |].
    pose proof Hrow as Hk. pose proof Hrow' as Hk'.
    rewrite <- (Z2Nat.id (o - 1)) in Hk by lia.
    rewrite <- (Z2Nat.id o) in Hk' by lia.
    apply (rowOf_lineFeeds lines s fs t Hlay Hnl) in Hk;
      [|unfold arrlen in Ho; lia].
    apply (rowOf_lineFeeds lines s fs t Hlay Hnl) in Hk';
      [|unfold arrlen in Ho; lia].
    replace (Z.to_nat o) with (S (Z.to_nat (o - 1))) in Hk' by lia.
    rewrite (take_S_r _ _ _ Hlf'), countLineFeeds_snoc in Hk'.
    destruct (decide _) as [_|]; [|done].
    assert (k' = S k) as -> by lia.
    exists (S k). rewrite Hfk'. f_equal.
    destruct Hrow as [_ Hnext]. specialize (Hnext fk' Hfk').
    destruct Hrow' as [(f & Hf & Hle) _]. assert (f = fk') as -> by congruence.
    lia.
Qed.

(** [extendToFullLines] gives the smallest range of whole lines that holds
    the given one: on a slice over a range of a document whose lines hold
    no line feed, the extended range contains the given range, starts at the
    start of a line and ends at one or with the slice, and no line starts
    between its start and that of the given range, or between the end of
    the given range and its end. *)
Theorem extendToFullLines_smallest (lines : list jsstring)
    (range : OffsetRange) (cws : bool) (r : OffsetRange) :
  Forall noLineFeed lines ->
  0 <= start range <= endExclusive range -> endExclusive range <= arrlen lines ->
  exists s,
    newLinesSliceCharSequence lines range cws = Some s
    /\ (0 <= start r <= endExclusive r ->
        endExclusive r <= LinesSliceCharSequence.length s ->
        let r' := extendToFullLines s r in
        0 <= start r' <= start r
        /\ endExclusive r <= endExclusive r' <= LinesSliceCharSequence.length s
        /\ isLineStart (elements s) (start r')
        /\ (isLineStart (elements s) (endExclusive r')
            \/ endExclusive r' = LinesSliceCharSequence.length s)
        /\ (forall o, start r' < o <= start r ->
              ~ isLineStart (elements s) o)
        /\ (forall o, endExclusive r <= o < endExclusive r' ->
              ~ isLineStart (elements s) o)).
Proof.
  intros Hnl Hr Hle.
  destruct (newLinesSliceCharSequence_layout lines range cws Hr Hle)
    as (s & fs & t & Hs & Hrange & Hlay).
  exists s. split; [exact Hs|]. intros Hrr Hre.
  unfold LinesSliceCharSequence.length in *.
  pose proof Hlay as (Hfs & Hinc & H0 & _).
  unfold extendToFullLines, findLastMonotonous, findFirstMonotonous.
  rewrite Hfs. cbv zeta. simpl start. simpl endExclusive.
  set (pS := fun x : option (option Z) =>
               match x with
               | Some (Some x) => x <=? start r
               | _ => false
               end).
  set (pE := fun x : option (option Z) =>
               negb match x with
                    | Some (Some x) => endExclusive r <=? x
                    | _ => false
                    end).
  destruct (findLastIdxMonotonous_spec (Some <$> fs) pS) as (HbS & HtS & HfS).
  { apply (table_monotonous fs pS (fun x => x <=? start r) Hinc);
      [reflexivity|]. intros x y Hxy Hy. apply Z.leb_le in Hy. apply Z.leb_le. lia. }
  destruct (findLastIdxMonotonous_spec (Some <$> fs) pE) as (HbE & HtE & HfE).
  { apply (table_monotonous fs pE (fun x => negb (endExclusive r <=? x)) Hinc);
      [reflexivity|]. intros x y Hxy Hy.
    apply negb_true_iff, Z.leb_gt in Hy. apply negb_true_iff, Z.leb_gt. lia. }
  set (kS := findLastIdxMonotonous (Some <$> fs) pS) in *.
  set (kE := findLastIdxMonotonous (Some <$> fs) pE) in *.
  assert (Hlen : arrlen (Some <$> fs) = Z.of_nat (length fs))
    by (unfold arrlen; by rewrite length_fmap).
  rewrite Hlen in *. pose proof (lookup_lt_Some _ _ _ H0) as Hfs0.
  (* the start *)
  assert (HkS : 0 <= kS).
  { destruct (Z.le_gt_cases 0 kS) as [|Hneg]; [assumption|].
    specialize (HfS 0 ltac:(lia)).
    destruct (table_lookup fs 0) as (f & Hf & Hat); [lia|].
    rewrite Hat in HfS. simpl in HfS. apply Z.leb_gt in HfS.
    assert (f = 0) by (change (Z.to_nat 0) with 0%nat in Hf; congruence). lia. }
  destruct (table_lookup fs kS) as (fS & HfSk & HatS); [lia|].
  rewrite HatS. simpl.
  pose proof (HtS kS ltac:(lia)) as HleS. rewrite HatS in HleS. simpl in HleS.
  apply Z.leb_le in HleS.
  destruct (slice_layout_table lines s fs t _ fS Hlay HfSk) as [HbfS HlsS].
  (* the end *)
  assert (HendE : exists e,
            default (arrlen (elements s)) (mjoin (at_index (Some <$> fs) (kE + 1)))
            = e
            /\ endExclusive r <= e <= arrlen (elements s)
            /\ (isLineStart (elements s) e \/ e = arrlen (elements s))
            /\ forall (j : nat) f, fs !! j = Some f -> endExclusive r <= f ->
                 e <= f).
  { destruct (Z.lt_ge_cases (kE + 1) (Z.of_nat (length fs))) as [Hin|Hout].
    - destruct (table_lookup fs (kE + 1)) as (fE & HfEk & HatE); [lia|].
      rewrite HatE. simpl. exists fE. split; [reflexivity|].
      pose proof (HfE (kE + 1) ltac:(lia)) as HgeE. rewrite HatE in HgeE.
      simpl in HgeE. apply negb_false_iff, Z.leb_le in HgeE.
      destruct (slice_layout_table lines s fs t _ fE Hlay HfEk) as [HbfE HlsE].
      split; [lia|]. split; [by left|].
      intros j f Hf Hge.
      destruct (Z.le_gt_cases (kE + 1) (Z.of_nat j)) as [Hj|Hj].
      + apply (increasing_le fs (Z.to_nat (kE + 1)) j); auto. lia.
      + exfalso. specialize (HtE (Z.of_nat j) ltac:(lia)).
        rewrite at_index_nat, list_lookup_fmap, Hf in HtE. simpl in HtE.
        apply negb_true_iff, Z.leb_gt in HtE. lia.
    - assert (Hnone : at_index (Some <$> fs) (kE + 1) = None).
      { unfold at_index. destruct (Z.ltb_spec (kE + 1) 0); [reflexivity|].
        apply lookup_ge_None. rewrite length_fmap. lia. }
      rewrite Hnone. simpl. exists (arrlen (elements s)).
      split; [reflexivity|]. split; [lia|]. split; [by right|].
      intros j f Hf Hge. exfalso.
      pose proof (lookup_lt_Some _ _ _ Hf) as Hj.
      specialize (HtE (Z.of_nat j) ltac:(lia)).
      rewrite at_index_nat, list_lookup_fmap, Hf in HtE. simpl in HtE.
      apply negb_true_iff, Z.leb_gt in HtE. lia. }
  destruct HendE as (e & -> & HbE' & HlsE & HminE).
  split; [lia|]. split; [lia|]. split; [exact HlsS|]. split; [exact HlsE|].
  split.
  - intros o Ho Hls.
    destruct (isLineStart_table lines s fs t o Hlay Hnl ltac:(lia) Hls)
      as [j Hj].
    pose proof (lookup_lt_Some _ _ _ Hj) as Hjlt.
    destruct (Z.le_gt_cases (Z.of_nat j) kS) as [Hle'|Hgt].
    + pose proof (increasing_le fs j (Z.to_nat kS) o fS Hinc ltac:(lia) Hj HfSk).
      lia.
    + specialize (HfS (Z.of_nat j) ltac:(lia)).
      rewrite at_index_nat, list_lookup_fmap, Hj in HfS. simpl in HfS.
      apply Z.leb_gt in HfS. lia.
  - intros o Ho Hls.
    destruct (isLineStart_table lines s fs t o Hlay Hnl ltac:(lia) Hls)
      as [j Hj].
    specialize (HminE j o Hj ltac:(lia)). lia.
Qed.

Lemma extendToFullLines_smallest_witness :
  exists s,
    newLinesSliceCharSequence [codes "ab"; codes "cd"; codes "e"]
      (mkOffsetRange 0 3) true = Some s
    /\ LinesSliceCharSequence_text s
       = codes "ab" ++ [CharCode.LineFeed] ++ codes "cd" ++ [CharCode.LineFeed]
         ++ codes "e"
    /\ extendToFullLines s (mkOffsetRange 4 5) = mkOffsetRange 3 6
    /\ isLineStart (elements s) 3 /\ isLineStart (elements s) 6.
Proof.
  destruct (extendToFullLines_smallest
              [codes "ab"; codes "cd"; codes "e"] (mkOffsetRange 0 3)
              true (mkOffsetRange 4 5)) as (s & Hs & Hext).
  - repeat constructor; discriminate.
  - simpl; lia.
  - unfold arrlen; simpl; lia.
  - vm_compute in Hs. injection Hs as <-.
    destruct Hext as (_ & _ & Hstart & [Hend | Hend] & _);
      [simpl; lia | vm_compute; discriminate | | vm_compute in Hend; discriminate].
    eexists. split; [vm_compute; reflexivity|].
    split; [vm_compute; reflexivity|]. split; [vm_compute; reflexivity|].
    split; [exact Hstart | exact Hend].
Defined.

(** ** The text of a slice *)

Lemma LinesSliceCharSequence_text_elements s :
  LinesSliceCharSequence_text s = elements s.
Proof.
  unfold LinesSliceCharSequence_text, LinesSliceCharSequence.getText,
    LinesSliceCharSequence.length, OffsetRange.slice, js_slice, arrlen.
  simpl. destruct (Z.ltb_spec (Z.of_nat (length (elements s))) 0); [lia|].
  rewrite Nat2Z.id, firstn_all. reflexivity.
Qed.

Lemma join_lines_cons l l' ls :
  join_lines (l :: l' :: ls) = l ++ CharCode.LineFeed :: join_lines (l' :: ls).
Proof. reflexivity. Qed.

Lemma LinesSliceCharSequence_line_text lines start0 cws b i line :
  build_trimFirstLineFully b = false -> at_index lines i = Some line ->
  exists b',
    LinesSliceCharSequence_line lines start0 cws b i = Some b'
    /\ build_trimFirstLineFully b' = false
    /\ build_elements b'
       = build_elements b ++ sliceLine cws line
         ++ (if i <? arrlen lines - 1 then [CharCode.LineFeed] else []).
Proof.
  intros Htrim Hline. unfold LinesSliceCharSequence_line.
  rewrite Hline, Htrim, bind_Some.
  assert (Hpiece : (if negb cws
                    then (trimEnd (trimStart line),
                          strlen line - strlen (trimStart line))
                    else (line, 0)).1
                   = sliceLine cws line)
    by (by destruct cws).
  destruct (if negb cws then _ else _) as [line' offset].
  simpl in Hpiece. subst line'.
  destruct (i <? arrlen lines - 1); eexists; (split; [reflexivity|]);
    (split; [reflexivity|]); simpl.
  - by rewrite <- (assoc_L (++)).
  - by rewrite app_nil_r.
Qed.

Lemma LinesSliceCharSequence_loop_text lines start0 cws (n : nat) :
  forall a b,
    build_trimFirstLineFully b = false -> 0 <= a ->
    a + Z.of_nat n = arrlen lines ->
    exists b',
      forEachM (LinesSliceCharSequence_line lines start0 cws) b
        (seqZ a (Z.of_nat n)) = Some b'
      /\ build_elements b'
         = build_elements b
           ++ join_lines (sliceLine cws <$> drop (Z.to_nat a) lines).
Proof.
  induction n as [|n IH]; intros a b Htrim Ha Hn.
  - simpl. exists b. split; [reflexivity|].
    rewrite drop_ge by (unfold arrlen in Hn; lia). simpl.
    by rewrite app_nil_r.
  - rewrite seqZ_succ, forEachM_cons.
    destruct (at_index_is_Some lines a) as [line Hline]; [lia|].
    destruct (LinesSliceCharSequence_line_text lines start0 cws b a line
                Htrim Hline) as (b1 & -> & Htrim1 & Hes1).
    rewrite bind_Some.
    destruct (IH (a + 1) b1 Htrim1) as (b' & -> & Hb'); [lia | lia |].
    exists b'. split; [reflexivity|]. rewrite Hb', Hes1.
    apply at_index_Some in Hline as [_ Hline].
    rewrite (drop_S _ _ _ Hline).
    replace (Z.to_nat (a + 1)) with (S (Z.to_nat a)) by lia.
    rewrite <- !(assoc_L (++)). f_equal.
    destruct (Z.ltb_spec a (arrlen lines - 1)) as [Hlt|Hge].
    + destruct (lookup_lt_is_Some_2 lines (S (Z.to_nat a))) as [l' Hl'];
        [unfold arrlen in *; lia|].
      rewrite (drop_S _ _ _ Hl'). rewrite !fmap_cons, join_lines_cons.
      reflexivity.
    + rewrite drop_ge by (unfold arrlen in *; lia). simpl.
      by rewrite app_nil_r.
Qed.

(** The slice over a whole document is the document: its text, on which the
    characters are diffed, is the lines of the document joined by line feeds,
    each line trimmed when the slice does not consider white space. *)
Theorem LinesSliceCharSequence_text_whole_document (lines : list jsstring)
    (cws : bool) :
  exists s,
    newLinesSliceCharSequence lines (mkOffsetRange 0 (arrlen lines)) cws
    = Some s
    /\ LinesSliceCharSequence_text s
       = join_lines (sliceLine cws <$> lines).
Proof.
  unfold newLinesSliceCharSequence. simpl.
  destruct (LinesSliceCharSequence_loop_text lines 0 cws (length lines) 0
              (mkSliceBuild [] (arr_set [] 0 0) [] false))
    as (b & Hb & Hes); [reflexivity | lia | unfold arrlen; lia |].
  replace (arrlen lines - 0) with (Z.of_nat (length lines))
    by (unfold arrlen; lia).
  rewrite Hb. simpl. eexists; split; [reflexivity|].
  rewrite LinesSliceCharSequence_text_elements. simpl. exact Hes.
Qed.

(** ** [findWordContaining] *)

Lemma isWordCharAt_outside es i :
  i < 0 \/ arrlen es <= i -> isWordCharAt es i = false.
Proof.
  intros Hi. unfold isWordCharAt, at_index.
  destruct (Z.ltb_spec i 0); [reflexivity|].
  rewrite lookup_ge_None_2; [reflexivity|]. unfold arrlen in Hi. lia.
Qed.

Lemma findWordStart_spec es (fuel : nat) : forall start0,
  0 <= start0 <= Z.of_nat fuel ->
  let r := findWordStart es fuel start0 in
  0 <= r <= start0
  /\ (forall i, r <= i < start0 -> isWordCharAt es i = true)
  /\ isWordCharAt es (r - 1) = false.
Proof.
  induction fuel as [|fuel IH]; intros start0 Hs; simpl.
  - assert (start0 = 0) as -> by lia.
    split; [lia|]. split; [intros; lia|]. apply isWordCharAt_outside. lia.
  - destruct (Z.gtb_spec start0 0) as [Hpos|Hzero]; simpl.
    + destruct (isWordCharAt es (start0 - 1)) eqn:Hw.
      * destruct (IH (start0 - 1) ltac:(lia)) as (Hr & Hall & Hbefore).
        split; [lia|]. split; [|exact Hbefore].
        intros i Hi. destruct (Z.eq_dec i (start0 - 1)) as [->|Hne];
          [exact Hw | apply Hall; lia].
      * split; [lia|]. split; [intros; lia | exact Hw].
    + assert (start0 = 0) as -> by lia.
      split; [lia|]. split; [intros; lia|]. apply isWordCharAt_outside. lia.
Qed.

Lemma findWordEnd_spec es (fuel : nat) : forall end0,
  0 <= end0 -> arrlen es - end0 <= Z.of_nat fuel ->
  let r := findWordEnd es fuel end0 in
  end0 <= r /\ (r <= arrlen es \/ r = end0)
  /\ (forall i, end0 <= i < r -> isWordCharAt es i = true)
  /\ isWordCharAt es r = false.
Proof.
  induction fuel as [|fuel IH]; intros end0 He Hfuel; simpl.
  - split; [lia|]. split; [lia|]. split; [intros; lia|].
    apply isWordCharAt_outside. lia.
  - destruct (Z.ltb_spec end0 (arrlen es)) as [Hlt|Hge]; simpl.
    + destruct (isWordCharAt es end0) eqn:Hw.
      * destruct (IH (end0 + 1) ltac:(lia) ltac:(lia))
          as (Hr & Hb & Hall & Hafter).
        split; [lia|]. split; [lia|]. split; [|exact Hafter].
        intros i Hi. destruct (Z.eq_dec i end0) as [->|Hne];
          [exact Hw | apply Hall; lia].
      * split; [lia|]. split; [lia|]. split; [intros; lia | exact Hw].
    + split; [lia|]. split; [lia|]. split; [intros; lia|].
      apply isWordCharAt_outside. lia.
Qed.

(** What [findWordContaining] returns for an offset at which a word
    character lies. *)
Lemma findWordContaining_isWord s offset :
  isWordCharAt (elements s) offset = true ->
  exists r, findWordContaining s offset = Some r
            /\ isWord (elements s) r /\ start r <= offset < endExclusive r.
Proof.
  intros Hw. unfold findWordContaining.
  assert (Ho : 0 <= offset < arrlen (elements s)).
  { destruct (Z.lt_ge_cases offset 0) as [Hneg|Hpos].
    - rewrite isWordCharAt_outside in Hw by lia. discriminate.
    - destruct (Z.lt_ge_cases offset (arrlen (elements s))) as [|Hge]; [lia|].
      rewrite isWordCharAt_outside in Hw by lia. discriminate. }
  destruct (Z.ltb_spec offset 0); [lia|].
  destruct (Z.geb_spec offset (arrlen (elements s))); [lia|].
  rewrite Hw. simpl. eexists; split; [reflexivity|].
  destruct (findWordStart_spec (elements s) (Z.to_nat offset) offset)
    as (Hs & Hsall & Hsbefore); [lia|].
  destruct (findWordEnd_spec (elements s)
              (Z.to_nat (arrlen (elements s) - offset)) offset)
    as (He & Hebound & Heall & Heafter); [lia | lia |].
  assert (Hgt : offset < findWordEnd (elements s)
                           (Z.to_nat (arrlen (elements s) - offset)) offset).
  { destruct (Z.eq_dec offset
                (findWordEnd (elements s)
                   (Z.to_nat (arrlen (elements s) - offset)) offset))
      as [Heq|]; [|lia].
    rewrite <- Heq in Heafter. congruence. }
  unfold isWord. simpl.
  split; [split; [lia|]|]; [split; [lia|]|lia].
  split; [|split; assumption].
  intros i Hi. destruct (Z.lt_ge_cases i offset); [apply Hsall | apply Heall]; lia.
Qed.

(** Two words that share an offset are the same word. *)
Lemma isWord_unique es r r' offset :
  isWord es r -> isWord es r' ->
  start r <= offset < endExclusive r ->
  start r' <= offset < endExclusive r' -> r = r'.
Proof.
  intros (Hr & Hre & Hall & Hbefore & Hafter)
         (Hr' & Hre' & Hall' & Hbefore' & Hafter') Ho Ho'.
  assert (start r = start r').
  { destruct (Z.lt_trichotomy (start r) (start r')) as [Hlt | [Heq | Hgt]];
      [|exact Heq|].
    - rewrite Hall in Hbefore' by lia. discriminate.
    - rewrite Hall' in Hbefore by lia. discriminate. }
  assert (endExclusive r = endExclusive r').
  { destruct (Z.lt_trichotomy (endExclusive r) (endExclusive r'))
      as [Hlt | [Heq | Hgt]]; [|exact Heq|].
    - rewrite Hall' in Hafter by lia. discriminate.
    - rewrite Hall in Hafter' by lia. discriminate. }
  destruct r, r'. simpl in *. congruence.
Qed.

(** [findWordContaining] finds the word of an offset: it gives [undefined]
    exactly when no word character lies at the offset (an offset outside of
    the slice included), and otherwise the range of the word that holds the
    offset, which is the longest run of word characters around it. *)
Theorem findWordContaining_spec (s : LinesSliceCharSequence) (offset : Z) :
  (findWordContaining s offset = None
   <-> isWordCharAt (elements s) offset = false)
  /\ forall r, findWordContaining s offset = Some r ->
       isWord (elements s) r /\ start r <= offset < endExclusive r.
Proof.
  destruct (isWordCharAt (elements s) offset) eqn:Hw.
  - destruct (findWordContaining_isWord s offset Hw) as (r & Hr & Hword & Ho).
    rewrite Hr. split; [split; discriminate|].
    intros r' [= <-]. auto.
  - assert (Hnone : findWordContaining s offset = None).
    { unfold findWordContaining. rewrite Hw. simpl.
      by destruct (_ || _). }
    rewrite Hnone. split; [done | discriminate].
Qed.

(** Every offset of a word gives the same word: when [findWordContaining]
    returns a range for an offset, it returns that range for every offset of
    the range, which is what [coverFullWords] relies on when it compares the
    word before a diff with the word after it. *)
Theorem findWordContaining_same_word (s : LinesSliceCharSequence)
    (offset offset' : Z) (r : OffsetRange) :
  findWordContaining s offset = Some r ->
  start r <= offset' < endExclusive r ->
  findWordContaining s offset' = Some r.
Proof.
  intros Hr Ho'.
  assert (Hw : isWordCharAt (elements s) offset = true).
  { destruct (isWordCharAt (elements s) offset) eqn:Hw; [reflexivity|].
    unfold findWordContaining in Hr. rewrite Hw in Hr. simpl in Hr.
    by destruct (_ || _). }
  destruct (findWordContaining_isWord s offset Hw) as (r0 & Hr0 & Hword & Ho).
  assert (r0 = r) as -> by congruence.
  pose proof Hword as (_ & _ & Hall & _).
  destruct (findWordContaining_isWord s offset' (Hall offset' Ho'))
    as (r' & Hr' & Hword' & Ho'').
  rewrite Hr'. f_equal. by apply (isWord_unique (elements s) r' r offset').
Qed.

Lemma findWordContaining_same_word_witness :
  LinesSliceCharSequence_text ThreeWords.slice = codes "let x1 = foo"
  /\ findWordContaining ThreeWords.slice 4 = Some (mkOffsetRange 4 6)
  /\ findWordContaining ThreeWords.slice 5 = Some (mkOffsetRange 4 6).
Proof.
  split; [vm_compute; reflexivity|]. split; [vm_compute; reflexivity|].
  apply (findWordContaining_same_word ThreeWords.slice 4 5 (mkOffsetRange 4 6));
    [vm_compute; reflexivity | simpl; lia].
Defined.

(** ** Character categories and boundary scores *)

(** [isWordChar] and [getCategory] agree on what a word character is. *)
Lemma getCategory_isWordChar (c : char) :
  isWordChar c = true
  <-> getCategory (Some (Z.of_N c)) ∈ [WordLower; WordUpper; WordNumber].
Proof.
  unfold isWordChar, getCategory, CharCode.LineFeed, CharCode.CarriageReturn,
    CharCode.Space, CharCode.Tab, CharCode.a, CharCode.z, CharCode.A,
    CharCode.Z, CharCode.Digit0, CharCode.Digit9.
  rewrite !elem_of_cons, elem_of_nil.
  destruct (N.leb_spec 97 c), (N.leb_spec c 122), (N.leb_spec 65 c),
    (N.leb_spec c 90), (N.leb_spec 48 c), (N.leb_spec c 57); simpl; try lia.
  all: repeat match goal with
         | |- context [Z.eqb ?x ?y] => destruct (Z.eqb_spec x y); try lia
         | |- context [Z.leb ?x ?y] => destruct (Z.leb_spec x y); try lia
         end; simpl.
  all: split; intros Hc; try discriminate; try reflexivity; try tauto;
    destruct Hc as [Hc|[Hc|[Hc|[]]]]; discriminate.
Qed.

Lemma getCategory_lineBreak (c : char) :
  (getCategory (Some (Z.of_N c)) = LineBreakLF <-> c = CharCode.LineFeed)
  /\ (getCategory (Some (Z.of_N c)) = LineBreakCR
      <-> c = CharCode.CarriageReturn)
  /\ getCategory (Some (Z.of_N c)) <> End.
Proof.
  unfold getCategory, CharCode.LineFeed, CharCode.CarriageReturn,
    CharCode.Space, CharCode.Tab, CharCode.a, CharCode.z, CharCode.A,
    CharCode.Z, CharCode.Digit0, CharCode.Digit9.
  repeat match goal with
         | |- context [Z.eqb ?x ?y] => destruct (Z.eqb_spec x y); try lia
         | |- context [Z.leb ?x ?y] => destruct (Z.leb_spec x y); try lia
         end; simpl.
  all: split; [|split]; try split; try discriminate; intros; try lia;
    reflexivity.
Qed.

Lemma boundaryScore_zero (prevCategory nextCategory : CharBoundaryCategory) :
  (if bool_decide (prevCategory = LineBreakCR)
      && bool_decide (nextCategory = LineBreakLF)
   then 0
   else
     (if bool_decide (prevCategory <> nextCategory)
      then 10 + (if bool_decide (nextCategory = WordUpper) then 1 else 0)
      else 0)
     + getCategoryBoundaryScore prevCategory
     + getCategoryBoundaryScore nextCategory) = 0
  <-> prevCategory = LineBreakCR /\ nextCategory = LineBreakLF
      \/ (prevCategory = WordLower \/ prevCategory = WordUpper
          \/ prevCategory = WordNumber)
         /\ prevCategory = nextCategory.
Proof.
  destruct prevCategory, nextCategory; vm_compute;
    (split;
     [ intros H; first [ discriminate H
                       | left; split; reflexivity
                       | right; split; [|reflexivity]; tauto ]
     | intros [[H1 H2] | [[H1 | [H1 | H1]] H2]];
       first [ discriminate | reflexivity ] ]).
Qed.

(** Where [getBoundaryScore] is zero: between two elements of a slice,
    the score of the boundary is at least [0] and at most [31], and it is
    [0] exactly between a carriage return and a line feed and between two
    word characters of the same category (two lower-case letters, two
    upper-case letters or two digits); at the two ends of the slice it is
    at least [20]. *)
Theorem getBoundaryScore_zero (s : LinesSliceCharSequence) (length : Z) :
  0 <= LinesSliceCharSequence_getBoundaryScore s length <= 31
  /\ (length <= 0 \/ arrlen (elements s) <= length ->
      20 <= LinesSliceCharSequence_getBoundaryScore s length)
  /\ forall a b,
       at_index (elements s) (length - 1) = Some a ->
       at_index (elements s) length = Some b ->
       (LinesSliceCharSequence_getBoundaryScore s length = 0
        <-> a = CharCode.CarriageReturn /\ b = CharCode.LineFeed
            \/ isWordChar a = true
               /\ getCategory (Some (Z.of_N a)) = getCategory (Some (Z.of_N b))).
Proof.
  unfold LinesSliceCharSequence_getBoundaryScore.
  split; [|split].
  - destruct (getCategory _), (getCategory _); vm_compute; split; discriminate.
  - intros [Hlow|Hhigh].
    + destruct (Z.gtb_spec length 0); [lia|].
      destruct (getCategory (if length <? _ then _ else _)); vm_compute;
        discriminate.
    + destruct (Z.ltb_spec length (arrlen (elements s))); [lia|].
      destruct (getCategory (if length >? 0 then _ else _)); vm_compute;
        discriminate.
  - intros a b Ha Hb.
    pose proof (at_index_Some _ _ _ Ha) as [Ha' _].
    pose proof (at_index_Some _ _ _ Hb) as [Hb' _].
    destruct (Z.gtb_spec length 0); [|lia].
    destruct (Z.ltb_spec length (arrlen (elements s))); [|lia].
    rewrite Ha, Hb. simpl fmap.
    rewrite boundaryScore_zero.
    pose proof (getCategory_isWordChar a) as Hwa.
    rewrite !elem_of_cons, elem_of_nil in Hwa.
    pose proof (getCategory_lineBreak a) as (_ & Hcra & _).
    pose proof (getCategory_lineBreak b) as (Hlfb & _ & _).
    tauto.
Qed.

Lemma getBoundaryScore_zero_witness :
  LinesSliceCharSequence_text ThreeWords.slice = codes "let x1 = foo"
  /\ LinesSliceCharSequence_getBoundaryScore ThreeWords.slice 2 = 0
  /\ LinesSliceCharSequence_getBoundaryScore ThreeWords.slice 5 = 10
  /\ LinesSliceCharSequence_getBoundaryScore ThreeWords.slice 0 = 20
  /\ (LinesSliceCharSequence_getBoundaryScore ThreeWords.slice 2 = 0
      <-> 101%N = CharCode.CarriageReturn /\ 116%N = CharCode.LineFeed
          \/ isWordChar 101%N = true
             /\ getCategory (Some (Z.of_N 101%N))
                = getCategory (Some (Z.of_N 116%N))).
Proof.
  split; [vm_compute; reflexivity|]. split; [vm_compute; reflexivity|].
  split; [vm_compute; reflexivity|]. split; [vm_compute; reflexivity|].
  destruct (getBoundaryScore_zero ThreeWords.slice 2) as (_ & _ & Hzero).
  apply Hzero; vm_compute; reflexivity.
Defined.

(** ** [getIndentation] and the boundary score of a line sequence *)

Lemma getIndentation_leading (str : jsstring) :
  0 <= getIndentation str <= strlen str
  /\ (forall i, 0 <= i < getIndentation str ->
        exists c, at_index str i = Some c /\ isSpace c = true)
  /\ forall c, at_index str (getIndentation str) = Some c -> isSpace c = false.
Proof.
  unfold strlen. induction str as [|c str (IHb & IHall & IHat)]; simpl.
  - split; [lia|]. split; [intros; lia | intros c; discriminate].
  - fold (isSpace c). destruct (isSpace c) eqn:Hc.
    + split; [lia|]. split.
      * intros i Hi. destruct (Z.eq_dec i 0) as [->|Hne].
        -- exists c. by split.
        -- destruct (IHall (i - 1)) as (c' & Hc' & Hs); [lia|].
           exists c'. split; [|exact Hs].
           change (c :: str) with ([c] ++ str).
           replace i with (arrlen [c] + (i - 1)) by (unfold arrlen; simpl; lia).
           by rewrite at_index_app_r by lia.
      * intros c'. change (c :: str) with ([c] ++ str).
        replace (1 + getIndentation str)
          with (arrlen [c] + getIndentation str) by (unfold arrlen; simpl; lia).
        rewrite at_index_app_r by lia. apply IHat.
    + split; [lia|]. split; [intros; lia|].
      intros c' [= <-]. exact Hc.
Qed.

(** [getIndentation] counts the leading spaces and tabs of a string: the
    result is an index of the string or its length, only spaces and tabs lie
    before it, and the character at it, if there is one, is neither. *)
Theorem getIndentation_spec (str : jsstring) :
  0 <= getIndentation str <= strlen str
  /\ (forall i, 0 <= i < getIndentation str ->
        exists c, at_index str i = Some c /\ isSpace c = true)
  /\ forall c, at_index str (getIndentation str) = Some c -> isSpace c = false.
Proof. apply getIndentation_leading. Qed.

(** The boundary score of a line sequence is defined on the boundaries of
    the document and nowhere else: [getBoundaryScore length] gives a number
    exactly for [length] from [0] to the number of lines (it throws for any
    other), the number is at most [1000], and it is [1000] exactly when
    neither the line before the boundary nor the one after it is
    indented. *)
Theorem LineSequence_getBoundaryScore_spec (s : LineSequence) (length : Z) :
  (is_Some (LineSequence.getBoundaryScore s length)
   <-> 0 <= length <= arrlen (sequence_lines s))
  /\ forall score,
       LineSequence.getBoundaryScore s length = Some score ->
       score <= 1000
       /\ (score = 1000
           <-> forall line,
                 at_index (sequence_lines s) (length - 1) = Some line
                 \/ at_index (sequence_lines s) length = Some line ->
                 getIndentation line = 0).
Proof.
  unfold LineSequence.getBoundaryScore.
  set (lines := sequence_lines s).
  assert (Hnone : forall i, ~ 0 <= i < arrlen lines -> at_index lines i = None).
  { intros i Hi. destruct (at_index lines i) eqn:E; [|reflexivity].
    apply at_index_Some in E. lia. }
  destruct (Z.eqb_spec length 0) as [Heq0|Hne0];
    destruct (Z.eqb_spec length (arrlen lines)) as [Heq|Hnen]; simpl;
    [subst length | subst length | |].
  - split; [split; [unfold arrlen; lia | eauto]|].
    intros score [= <-]. split; [lia|]. split; [|done].
    intros _ line [Hl|Hl]; rewrite Hnone in Hl by lia; discriminate.
  - destruct (at_index lines 0) as [line|] eqn:Hl; simpl.
    + apply at_index_Some in Hl as Hl'.
      split; [split; [lia | eauto]|].
      intros score [= <-]. pose proof (getIndentation_leading line) as (Hi & _).
      split; [lia|]. split.
      * intros Hs l [Hl0|Hl0]; [rewrite Hnone in Hl0 by lia; discriminate|].
        assert (l = line) as -> by congruence. lia.
      * intros Hall. rewrite (Hall line) by auto. lia.
    + split; [|discriminate]. split; [by intros [? ?]|].
      intros Hb. exfalso. destruct (at_index_is_Some lines 0) as [? ?];
        [unfold arrlen in *; lia | congruence].
  - subst length. destruct (at_index lines (arrlen lines - 1)) as [line|] eqn:Hl;
      simpl.
    + split; [split; [unfold arrlen; lia | eauto]|].
      intros score [= <-]. pose proof (getIndentation_leading line) as (Hi & _).
      split; [lia|]. split.
      * intros Hs l [Hl0|Hl0]; [|rewrite Hnone in Hl0 by lia; discriminate].
        assert (l = line) as -> by congruence. lia.
      * intros Hall. rewrite (Hall line) by auto. lia.
    + split; [|discriminate]. split; [by intros [? ?]|].
      intros Hb. exfalso.
      destruct (at_index_is_Some lines (arrlen lines - 1)) as [? ?];
        [unfold arrlen in *; lia | congruence].
  - destruct (at_index lines (length - 1)) as [before|] eqn:Hb; simpl.
    + destruct (at_index lines length) as [after|] eqn:Ha; simpl.
      * apply at_index_Some in Hb as Hb'. apply at_index_Some in Ha as Ha'.
        split; [split; [lia | eauto]|].
        intros score [= <-].
        pose proof (getIndentation_leading before) as (Hi & _).
        pose proof (getIndentation_leading after) as (Hj & _).
        split; [lia|]. split.
        -- intros Hs l [Hl0|Hl0].
           ++ assert (l = before) as -> by congruence. lia.
           ++ assert (l = after) as -> by congruence. lia.
        -- intros Hall. rewrite (Hall before), (Hall after) by auto. lia.
      * split; [|discriminate]. split; [by intros [? ?]|].
        intros Hlen. exfalso. apply at_index_Some in Hb as Hb'.
        destruct (at_index_is_Some lines length) as [? ?]; [lia | congruence].
    + split; [|discriminate]. split; [by intros [? ?]|].
      intros Hlen. exfalso.
      destruct (at_index_is_Some lines (length - 1)) as [? ?];
        [lia | congruence].
Qed.

(** ** Numberings: [getKey] and [getOrCreateHash] *)

Lemma numbering_empty `{Countable K} : numbering (∅ : gmap K nat).
Proof. split; intros *; by rewrite lookup_empty. Qed.

Lemma numbering_insert `{Countable K} (m : gmap K nat) (k : K) :
  numbering m -> m !! k = None -> numbering (<[k := size m]> m).
Proof.
  intros [Hlt Hinj] Hk. split.
  - intros k' h. rewrite map_size_insert_None by exact Hk.
    destruct (decide (k = k')) as [<-|Hne].
    + rewrite lookup_insert_eq. intros [= <-]. lia.
    + rewrite lookup_insert_ne by exact Hne. intros Hh%Hlt. lia.
  - intros k1 k2 h.
    destruct (decide (k = k1)) as [<-|Hne1], (decide (k = k2)) as [<-|Hne2];
      rewrite ?lookup_insert_eq, ?lookup_insert_ne by assumption.
    + done.
    + intros [= <-] Hh%Hlt. lia.
    + intros Hh%Hlt [= <-]. lia.
    + apply Hinj.
Qed.

Lemma getKey_numbering (chrKeys : gmap char nat) (chr : char) :
  numbering chrKeys ->
  numbering (getKey chrKeys chr).2
  /\ chrKeys ⊆ (getKey chrKeys chr).2
  /\ (getKey chrKeys chr).2 !! chr = Some (getKey chrKeys chr).1
  /\ forall h, (h < size (getKey chrKeys chr).2)%nat ->
       (h < size chrKeys)%nat \/ h = (getKey chrKeys chr).1.
Proof.
  intros Hn. unfold getKey. destruct (chrKeys !! chr) as [key|] eqn:Hc; simpl.
  - repeat split; auto; apply Hn.
  - split; [by apply numbering_insert|].
    split; [by apply insert_subseteq|].
    split; [by rewrite lookup_insert_eq|].
    intros h. rewrite map_size_insert_None by exact Hc. lia.
Qed.

Lemma getKeys_spec (chrs : list char) : forall chrKeys,
  numbering chrKeys ->
  numbering (getKeys chrKeys chrs).2
  /\ chrKeys ⊆ (getKeys chrKeys chrs).2
  /\ Forall2 (fun chr key => (getKeys chrKeys chrs).2 !! chr = Some key)
       chrs (getKeys chrKeys chrs).1
  /\ forall h, (h < size (getKeys chrKeys chrs).2)%nat ->
       (h < size chrKeys)%nat \/ h ∈ (getKeys chrKeys chrs).1.
Proof.
  induction chrs as [|chr chrs IH]; intros chrKeys Hn; simpl.
  - repeat split; auto; apply Hn.
  - destruct (getKey_numbering chrKeys chr Hn) as (Hn1 & Hsub1 & Hkey & Hdense).
    destruct (getKey chrKeys chr) as [key chrKeys1]. simpl in *.
    destruct (IH chrKeys1 Hn1) as (Hn2 & Hsub2 & Hall & Hdense2).
    destruct (getKeys chrKeys1 chrs) as [keys chrKeys2]. simpl in *.
    split; [exact Hn2|]. split; [by transitivity chrKeys1|].
    split.
    + constructor; [|exact Hall].
      eapply lookup_weaken; [exact Hkey | exact Hsub2].
    + intros h Hh. destruct (Hdense2 h Hh) as [Hlt|Hin].
      * destruct (Hdense h Hlt) as [?| ->]; [by left | right; left].
      * right. by right.
Qed.

(** [getKey] numbers the characters in the order in which it first sees
    them: after any sequence of calls that starts with the empty map, two
    calls have returned the same key exactly when they were given the same
    character, and the keys returned are the numbers below the number of
    entries of the map. *)
Theorem getKey_numbers_characters (chrs : list char) :
  length (getKeys ∅ chrs).1 = length chrs
  /\ (forall i j a b ka kb,
        chrs !! i = Some a -> chrs !! j = Some b ->
        (getKeys ∅ chrs).1 !! i = Some ka ->
        (getKeys ∅ chrs).1 !! j = Some kb ->
        (ka = kb <-> a = b))
  /\ forall key, key ∈ (getKeys ∅ chrs).1
                 <-> (key < size (getKeys ∅ chrs).2)%nat.
Proof.
  destruct (getKeys_spec chrs ∅ numbering_empty)
    as ([Hlt Hinj] & _ & Hall & Hdense).
  split; [symmetry; eapply Forall2_length, Hall|]. split.
  - intros i j a b ka kb Ha Hb Hka Hkb.
    pose proof (Forall2_lookup_lr _ _ _ _ _ _ Hall Ha Hka) as Hma.
    pose proof (Forall2_lookup_lr _ _ _ _ _ _ Hall Hb Hkb) as Hmb.
    split; [intros Heq; subst kb; exact (Hinj _ _ _ Hma Hmb)
           | intros Heq; subst b; congruence].
  - intros key. split.
    + intros Hin. apply list_elem_of_lookup in Hin as [i Hi].
      destruct (Forall2_lookup_r _ _ _ _ _ Hall Hi) as (c & _ & Hc).
      by eapply Hlt.
    + intros Hkey. destruct (Hdense key Hkey) as [Hempty|Hin]; [|exact Hin].
      rewrite map_size_empty in Hempty. lia.
Qed.

Lemma hashLines_spec (lines : list jsstring) : forall perfectHashes,
  numbering perfectHashes ->
  numbering (hashLines perfectHashes lines).2
  /\ perfectHashes ⊆ (hashLines perfectHashes lines).2
  /\ Forall2 (fun line hash =>
                exists n : nat,
                  hash = Z.of_nat n
                  /\ (hashLines perfectHashes lines).2 !! trim line = Some n)
       lines (hashLines perfectHashes lines).1.
Proof.
  induction lines as [|line lines IH]; intros perfectHashes Hn; simpl.
  - repeat split; auto; apply Hn.
  - assert (H1 : exists n m1,
               getOrCreateHash perfectHashes (trim line) = (Z.of_nat n, m1)
               /\ numbering m1 /\ perfectHashes ⊆ m1
               /\ m1 !! trim line = Some n).
    { unfold getOrCreateHash.
      destruct (perfectHashes !! trim line) as [h|] eqn:Hh.
      - exists h, perfectHashes. repeat split; auto; apply Hn.
      - exists (size perfectHashes), (<[trim line := size perfectHashes]> perfectHashes).
        split; [reflexivity|]. split; [by apply numbering_insert|].
        split; [by apply insert_subseteq | by rewrite lookup_insert_eq]. }
    destruct H1 as (n & m1 & -> & Hn1 & Hsub1 & Hline).
    destruct (IH m1 Hn1) as (Hn2 & Hsub2 & Hall).
    destruct (hashLines m1 lines) as [hashes m2]. simpl in *.
    split; [exact Hn2|]. split; [by transitivity m1|].
    constructor; [|exact Hall].
    exists n. split; [reflexivity|].
    eapply lookup_weaken; [exact Hline | exact Hsub2].
Qed.

(** The hashes of the lines are perfect: of the numbers that [computeDiff]
    gives to the lines of the two documents ([srcDocLines] and
    [tgtDocLines]), which are what the line kernel compares, two are equal
    exactly when the lines are equal after trimming, within a document and
    from one document to the other. *)
Theorem hashLines_perfect (originalLines modifiedLines : list jsstring) :
  let srcDocLines := (hashLines ∅ originalLines).1 in
  let tgtDocLines :=
    (hashLines (hashLines ∅ originalLines).2 modifiedLines).1 in
  length srcDocLines = length originalLines
  /\ length tgtDocLines = length modifiedLines
  /\ forall i j a b,
       (originalLines ++ modifiedLines) !! i = Some a ->
       (originalLines ++ modifiedLines) !! j = Some b ->
       ((srcDocLines ++ tgtDocLines) !! i = (srcDocLines ++ tgtDocLines) !! j
        <-> trim a = trim b).
Proof.
  destruct (hashLines_spec originalLines ∅ numbering_empty)
    as (Hn1 & _ & Hall1).
  destruct (hashLines_spec modifiedLines _ Hn1) as ([Hlt Hinj] & Hsub & Hall2).
  cbv zeta.
  set (src := (hashLines ∅ originalLines).1) in *.
  set (m1 := (hashLines ∅ originalLines).2) in *.
  set (tgt := (hashLines m1 modifiedLines).1) in *.
  set (m2 := (hashLines m1 modifiedLines).2) in *.
  assert (Hall : Forall2 (fun line hash =>
                            exists n : nat,
                              hash = Z.of_nat n /\ m2 !! trim line = Some n)
                   (originalLines ++ modifiedLines) (src ++ tgt)).
  { apply Forall2_app; [|exact Hall2].
    eapply Forall2_impl; [exact Hall1|].
    intros line hash (n & -> & Hline). exists n. split; [reflexivity|].
    eapply lookup_weaken; [exact Hline | exact Hsub]. }
  split; [symmetry; eapply Forall2_length, Hall1|].
  split; [symmetry; eapply Forall2_length, Hall2|].
  intros i j a b Ha Hb.
  destruct (Forall2_lookup_l _ _ _ _ _ Hall Ha) as (ha & Hha & na & -> & Hna).
  destruct (Forall2_lookup_l _ _ _ _ _ Hall Hb) as (hb & Hhb & nb & -> & Hnb).
  rewrite Hha, Hhb. split.
  - intros [= Heq]. apply Nat2Z.inj in Heq. subst nb.
    exact (Hinj _ _ _ Hna Hnb).
  - intros Heq. rewrite Heq in Hna. congruence.
Qed.

(** ** The similarity of two fragments *)





Lemma Zsum_0 n : Zsum (fun _ => 0) n = 0.
Proof. induction n as [|n IH]; simpl; lia. Qed.







(** The similarity does not see the order of the characters: of two
    fragments that the constructor has made, one after the other, and whose
    texts are not empty and hold the same characters as often, whatever the
    order (the same text in particular), the similarity is [1]. *)
Theorem computeSimilarity_permutation (chrKeys chrKeys1 chrKeys2 : gmap char nat)
    (range1 range2 : LineRange) (lines1 lines2 : list jsstring)
    (source1 source2 : nat) (f1 f2 : LineRangeFragment) :
  keys_wf chrKeys ->
  newLineRangeFragment chrKeys range1 lines1 source1 = Some (f1, chrKeys1) ->
  newLineRangeFragment chrKeys1 range2 lines2 source2 = Some (f2, chrKeys2) ->
  fragmentText f1 <> [] -> fragmentText f1 ≡ₚ fragmentText f2 ->
  exists q, computeSimilarity f1 f2 = Some q /\ (q == 1)%Q.
Proof.
  intros Hwf H1 H2 Hne Hperm.
  destruct (newLineRangeFragment_ok _ _ _ _ _ _ Hwf H1)
    as (Hwf1 & Hsub1 & _ & Hok1).
  destruct (newLineRangeFragment_ok _ _ _ _ _ _ Hwf1 H2)
    as (_ & Hsub2 & _ & Hok2).
  specialize (Hok1 chrKeys2 Hsub2). specialize (Hok2 chrKeys2 ltac:(done)).
  assert (Hpos : 0 < totalCount f1 + totalCount f2).
  { destruct Hok1 as (-> & _), Hok2 as (-> & _). unfold arrlen.
    destruct (fragmentText f1); [done | simpl; lia]. }
  rewrite (computeSimilarity_similarity chrKeys2) by assumption.
  eexists; split; [reflexivity|]. unfold similarity.
  rewrite (Zsum_ext _ (fun _ => 0)).
  - rewrite Zsum_0. unfold Qdiv. rewrite Qmult_0_l. reflexivity.
  - intros key _. unfold keyCount, arrlen. rewrite Hperm. lia.
Qed.

Lemma computeSimilarity_permutation_witness :
  fragmentText MovedUp.deletion
  = codes "abc" ++ [CharCode.LineFeed] ++ codes "def" ++ [CharCode.LineFeed]
    ++ codes "ghi" ++ [CharCode.LineFeed]
  /\ fragmentText MovedUp.insertion = fragmentText MovedUp.deletion
  /\ exists q,
       computeSimilarity MovedUp.deletion MovedUp.insertion = Some q
       /\ (q == 1)%Q.
Proof.
  split; [vm_compute; reflexivity|]. split; [vm_compute; reflexivity|].
  apply (computeSimilarity_permutation ∅ MovedUp.deletions.2
           MovedUp.insertions.2 (mkLineRange 2 5) (mkLineRange 1 4)
           MovedUp.originalLines MovedUp.modifiedLines 1 0).
  - apply keys_wf_empty.
  - vm_compute. reflexivity.
  - vm_compute. reflexivity.
  - vm_compute. discriminate.
  - replace (fragmentText MovedUp.insertion)
      with (fragmentText MovedUp.deletion) by (vm_compute; reflexivity).
    reflexivity.
Defined.

(** ** [mergeSequenceDiffs] and [coverFullWords]: what is covered *)

Lemma mergeSequenceDiffs_loop_foldl l1 : forall l2 result,
  mergeSequenceDiffs_loop l1 l2 result
  = foldl mergeSequenceDiffs_push result (mergeOrder l1 l2).
Proof.
  induction l1 as [|sd1 rest1 IH1].
  - induction l2 as [|sd2 rest2 IH2]; intros result; simpl; [reflexivity|].
    apply IH2.
  - induction l2 as [|sd2 rest2 IH2]; intros result; simpl; [apply IH1|].
    destruct (start (seq1Range sd1) <? start (seq1Range sd2)); simpl;
      [apply IH1 | apply IH2].
Qed.

Lemma mergeOrder_nil_r l : mergeOrder l [] = l.
Proof. induction l as [|d l IH]; simpl; [reflexivity | by rewrite IH]. Qed.

Lemma mergeOrder_nil_l l : mergeOrder [] l = l.
Proof. induction l as [|d l IH]; simpl; [reflexivity | f_equal; exact IH]. Qed.

Lemma mergeOrder_elem_of l1 : forall l2 d,
  d ∈ l1 \/ d ∈ l2 -> d ∈ mergeOrder l1 l2.
Proof.
  induction l1 as [|sd1 rest1 IH1].
  - intros l2 d [Hd|Hd]; [by apply elem_of_nil in Hd|].
    by rewrite mergeOrder_nil_l.
  - induction l2 as [|sd2 rest2 IH2]; intros d Hd.
    + rewrite mergeOrder_nil_r. destruct Hd as [Hd|Hd]; [exact Hd|].
      by apply elem_of_nil in Hd.
    + simpl. destruct (start (seq1Range sd1) <? start (seq1Range sd2)).
      * destruct Hd as [Hd|Hd].
        -- apply elem_of_cons in Hd as [->|Hd]; [left|right; apply IH1; by left].
        -- right. apply IH1. by right.
      * destruct Hd as [Hd|Hd].
        -- right. apply IH2. by left.
        -- apply elem_of_cons in Hd as [->|Hd]; [left|right; apply IH2; by right].
Qed.

Lemma covers_refl d : covers d d.
Proof.
  unfold covers, OffsetRange.containsRange. rewrite !Z.leb_refl. done.
Qed.

Lemma covers_trans d1 d2 d3 : covers d1 d2 -> covers d2 d3 -> covers d1 d3.
Proof.
  unfold covers, OffsetRange.containsRange.
  rewrite !andb_true_iff, !Z.leb_le. lia.
Qed.

Lemma covers_join_l d o : covers (SequenceDiff.join d o) d.
Proof.
  unfold covers, OffsetRange.containsRange, SequenceDiff.join, OffsetRange.join.
  simpl. rewrite !andb_true_iff, !Z.leb_le. lia.
Qed.

Lemma covers_join_r d o : covers (SequenceDiff.join d o) o.
Proof.
  unfold covers, OffsetRange.containsRange, SequenceDiff.join, OffsetRange.join.
  simpl. rewrite !andb_true_iff, !Z.leb_le. lia.
Qed.

Lemma mergeSequenceDiffs_push_covers result next :
  coveredBy (mergeSequenceDiffs_push result next) next
  /\ forall d, coveredBy result d ->
       coveredBy (mergeSequenceDiffs_push result next) d.
Proof.
  unfold mergeSequenceDiffs_push.
  assert (Hsnoc : coveredBy (result ++ [next]) next
                  /\ forall d, coveredBy result d ->
                       coveredBy (result ++ [next]) d).
  { split.
    - exists next. split; [apply elem_of_app; right; left|].
      apply covers_refl.
    - intros d (d' & Hd' & Hc). exists d'. split; [|exact Hc].
      apply elem_of_app. by left. }
  destruct (last result) as [l|] eqn:Hlast; [|exact Hsnoc].
  destruct (endExclusive (seq1Range l) >=? start (seq1Range next));
    [|exact Hsnoc].
  apply last_Some_snoc in Hlast as [result' ->]. rewrite set_last_snoc.
  split.
  - exists (SequenceDiff.join l next).
    split; [apply elem_of_app; right; left | apply covers_join_r].
  - intros d (d' & Hd' & Hc). apply elem_of_app in Hd' as [Hd'|Hd'].
    + exists d'. split; [apply elem_of_app; by left | exact Hc].
    + apply list_elem_of_singleton in Hd' as ->.
      exists (SequenceDiff.join l next).
      split; [apply elem_of_app; right; left|].
      eapply covers_trans; [apply covers_join_l | exact Hc].
Qed.

Lemma foldl_push_covers pushed : forall result d,
  coveredBy result d \/ d ∈ pushed ->
  coveredBy (foldl mergeSequenceDiffs_push result pushed) d.
Proof.
  induction pushed as [|next pushed IH]; intros result d Hd; simpl.
  - destruct Hd as [Hd|Hd]; [exact Hd | by apply elem_of_nil in Hd].
  - destruct (mergeSequenceDiffs_push_covers result next) as [Hnext Hkeep].
    apply IH. destruct Hd as [Hd|Hd]; [left; by apply Hkeep|].
    apply elem_of_cons in Hd as [->|Hd]; [by left | by right].
Qed.

Lemma mergeSequenceDiffs_coveredBy l1 l2 d :
  d ∈ l1 \/ d ∈ l2 -> coveredBy (mergeSequenceDiffs l1 l2) d.
Proof.
  intros Hd. unfold mergeSequenceDiffs. rewrite mergeSequenceDiffs_loop_foldl.
  apply foldl_push_covers. right. by apply mergeOrder_elem_of.
Qed.

(** [mergeSequenceDiffs] loses nothing: every diff of either array lies
    within a diff of the result, on both sequences, whatever the order of
    the arrays. *)
Theorem mergeSequenceDiffs_covers
    (sequenceDiffs1 sequenceDiffs2 : list SequenceDiff) :
  Forall (coveredBy (mergeSequenceDiffs sequenceDiffs1 sequenceDiffs2))
    (sequenceDiffs1 ++ sequenceDiffs2).
Proof.
  apply Forall_forall. intros d Hd. apply mergeSequenceDiffs_coveredBy.
  by apply elem_of_app.
Qed.

(** [coverFullWords] only widens: every diff that it is given lies within
    a diff of its result, on both sequences. *)
Theorem coverFullWords_covers (sequence1 sequence2 : LinesSliceCharSequence)
    (sequenceDiffs : list SequenceDiff) :
  Forall (coveredBy (coverFullWords sequence1 sequence2 sequenceDiffs))
    sequenceDiffs.
Proof.
  apply Forall_forall. intros d Hd. unfold coverFullWords.
  apply mergeSequenceDiffs_coveredBy. by left.
Qed.

Lemma foldl_push_separated l : forall result,
  separatedOnSeq1 (result ++ l) ->
  foldl mergeSequenceDiffs_push result l = result ++ l.
Proof.
  induction l as [|d l IH]; intros result Hsep; simpl.
  - by rewrite app_nil_r.
  - rewrite (cons_middle d), (assoc_L (++)) in Hsep |- *.
    assert (Hpush : mergeSequenceDiffs_push result d = result ++ [d]).
    { unfold mergeSequenceDiffs_push.
      destruct (last result) as [x|] eqn:Hlast; [|reflexivity].
      apply last_Some_snoc in Hlast as [result' ->].
      assert (Hx : seq1End x < seq1Start d).
      { clear IH. revert Hsep. rewrite <- !(assoc_L (++)). simpl.
        induction result' as [|y result' IHr]; simpl.
        - intros [Hxd _]. exact Hxd.
        - destruct result' as [|z result']; simpl in *; intros [_ Hrest];
            by apply IHr. }
      unfold seq1End, seq1Start in Hx.
      destruct (Z.geb_spec (endExclusive (seq1Range x)) (start (seq1Range d)));
        [lia | reflexivity]. }
    rewrite Hpush. by apply IH.
Qed.

(** With nothing to add, [mergeSequenceDiffs] changes nothing: merged with
    the empty array, on either side, an array of diffs each of which ends
    before the next one starts comes back as it is. *)
Theorem mergeSequenceDiffs_identity (sequenceDiffs : list SequenceDiff) :
  separatedOnSeq1 sequenceDiffs ->
  mergeSequenceDiffs sequenceDiffs [] = sequenceDiffs
  /\ mergeSequenceDiffs [] sequenceDiffs = sequenceDiffs.
Proof.
  intros Hsep. unfold mergeSequenceDiffs.
  rewrite !mergeSequenceDiffs_loop_foldl, mergeOrder_nil_r, mergeOrder_nil_l.
  split; by apply (foldl_push_separated sequenceDiffs []).
Qed.

Lemma mergeSequenceDiffs_identity_witness :
  mergeSequenceDiffs [sd 0 2 0 1; sd 3 3 2 4; sd 7 8 6 9] []
  = [sd 0 2 0 1; sd 3 3 2 4; sd 7 8 6 9]
  /\ mergeSequenceDiffs [] [sd 0 2 0 1; sd 3 3 2 4; sd 7 8 6 9]
     = [sd 0 2 0 1; sd 3 3 2 4; sd 7 8 6 9].
Proof.
  apply (mergeSequenceDiffs_identity [sd 0 2 0 1; sd 3 3 2 4; sd 7 8 6 9]).
  unfold separatedOnSeq1, seq1End, seq1Start. simpl. lia.
Defined.

(** ** [getLineRangeMapping] and [lineRangeMappingFromRangeMappings]:
    what the changes are made of *)

Lemma getLineRangeMapping_deltas (rangeMapping : RangeMapping)
    (originalLines modifiedLines : list jsstring) :
  let o := originalRange rangeMapping in
  let m := modifiedRange rangeMapping in
  (forall r,
     getLineRangeMapping rangeMapping originalLines modifiedLines = Some r ->
     exists lineStartDelta lineEndDelta,
       (lineStartDelta = 0 \/ lineStartDelta = 1)
       /\ (lineEndDelta = 0 \/ lineEndDelta = -1)
       /\ original r
          = mkLineRange (range_startLineNumber o + lineStartDelta)
              (range_endLineNumber o + 1 + lineEndDelta)
       /\ modified r
          = mkLineRange (range_startLineNumber m + lineStartDelta)
              (range_endLineNumber m + 1 + lineEndDelta)
       /\ LineRange.wf (original r) /\ LineRange.wf (modified r)
       /\ innerChanges r = [rangeMapping])
  /\ (is_Some (at_index originalLines (range_startLineNumber o - 1)) ->
      is_Some (at_index modifiedLines (range_startLineNumber m - 1)) ->
      range_startLineNumber o <= range_endLineNumber o ->
      range_startLineNumber m <= range_endLineNumber m ->
      is_Some (getLineRangeMapping rangeMapping originalLines modifiedLines)).
Proof.
  cbv zeta. unfold getLineRangeMapping.
  set (o := originalRange rangeMapping). set (m := modifiedRange rangeMapping).
  set (de := if (range_endColumn m =? 1) && (range_endColumn o =? 1)
                && (range_startLineNumber o + 0 <=? range_endLineNumber o)
                && (range_startLineNumber m + 0 <=? range_endLineNumber m)
             then -1 else 0).
  assert (Hde : de = 0
                \/ de = -1 /\ range_startLineNumber o <= range_endLineNumber o
                   /\ range_startLineNumber m <= range_endLineNumber m).
  { subst de. destruct (range_endColumn m =? 1), (range_endColumn o =? 1); simpl;
      auto.
    destruct (Z.leb_spec (range_startLineNumber o + 0) (range_endLineNumber o));
      simpl; auto.
    destruct (Z.leb_spec (range_startLineNumber m + 0) (range_endLineNumber m));
      simpl; auto. right. lia. }
  clearbody de.
  assert (Hnew : forall s e, LineRange.new s e = Some (mkLineRange s e) /\ s <= e
                             \/ LineRange.new s e = None /\ e < s).
  { intros s e. unfold LineRange.new. destruct (Z.ltb_spec e s); [right | left];
      split; auto. }
  split.
  - intros r.
    destruct (at_index modifiedLines (range_startLineNumber m - 1))
      as [modifiedStartLine|]; [|discriminate]. rewrite bind_Some.
    set (past := if range_startColumn m - 1 >=? strlen modifiedStartLine
                 then _ else Some false).
    destruct past as [startsPastEndOfLine|] eqn:Hpast; [|discriminate].
    rewrite bind_Some. clear Hpast.
    set (ds := if startsPastEndOfLine then 1 else 0).
    assert (Hds : ds = 0 \/ ds = 1) by (subst ds; destruct startsPastEndOfLine; auto).
    clearbody ds.
    destruct (Hnew (range_startLineNumber o + ds) (range_endLineNumber o + 1 + de))
      as [[-> Ho]|[-> _]]; [|discriminate]. rewrite bind_Some.
    destruct (Hnew (range_startLineNumber m + ds) (range_endLineNumber m + 1 + de))
      as [[-> Hm]|[-> _]]; [|discriminate]. rewrite bind_Some.
    intros [= <-]. exists ds, de. simpl.
    split; [exact Hds|]. split; [tauto|]. unfold LineRange.wf. simpl. auto.
  - intros [originalStartLine Hol] [modifiedStartLine Hml] Hole Hmle.
    rewrite Hml, bind_Some, Hol, bind_Some.
    set (past := if range_startColumn m - 1 >=? strlen modifiedStartLine
                 then _ else Some false).
    assert (Hpast : exists b,
              past = Some b
              /\ (b = true ->
                  range_startLineNumber o <= range_endLineNumber o + de
                  /\ range_startLineNumber m <= range_endLineNumber m + de)).
    { subst past. destruct (_ >=? _); [|exists false; split; [done | discriminate]].
      eexists; split; [reflexivity|].
      rewrite !andb_true_iff, !Z.leb_le. tauto. }
    destruct Hpast as (b & -> & Hb). rewrite bind_Some.
    set (ds := if b then 1 else 0).
    assert (Hds : ds = 0
                  \/ ds = 1
                     /\ range_startLineNumber o <= range_endLineNumber o + de
                     /\ range_startLineNumber m <= range_endLineNumber m + de).
    { subst ds. destruct b; auto. }
    clearbody ds.
    destruct (Hnew (range_startLineNumber o + ds) (range_endLineNumber o + 1 + de))
      as [[-> Ho]|[_ Ho]]; [|lia]. rewrite bind_Some.
    destruct (Hnew (range_startLineNumber m + ds) (range_endLineNumber m + 1 + de))
      as [[-> Hm]|[_ Hm]]; [|lia]. rewrite bind_Some. eauto.
Qed.


(** [getLineRangeMapping] moves the two sides in step: when it returns a
    mapping, the line ranges of the two sides are those of the lines that
    the two ranges touch, both narrowed by the same [lineStartDelta] ([0] or
    [1]) at the start and by the same [lineEndDelta] ([0] or [-1]) at the
    end, neither of them is inverted, and the range mapping is the one
    inner change; and it does return a mapping whenever the start lines of
    the two ranges exist and neither range ends on a line before the one it
    starts on. *)
Theorem getLineRangeMapping_in_step (rangeMapping : RangeMapping)
    (originalLines modifiedLines : list jsstring) :
  let o := originalRange rangeMapping in
  let m := modifiedRange rangeMapping in
  (forall r,
     getLineRangeMapping rangeMapping originalLines modifiedLines = Some r ->
     exists lineStartDelta lineEndDelta,
       (lineStartDelta = 0 \/ lineStartDelta = 1)
       /\ (lineEndDelta = 0 \/ lineEndDelta = -1)
       /\ original r
          = mkLineRange (range_startLineNumber o + lineStartDelta)
              (range_endLineNumber o + 1 + lineEndDelta)
       /\ modified r
          = mkLineRange (range_startLineNumber m + lineStartDelta)
              (range_endLineNumber m + 1 + lineEndDelta)
       /\ LineRange.wf (original r) /\ LineRange.wf (modified r)
       /\ innerChanges r = [rangeMapping])
  /\ (is_Some (at_index originalLines (range_startLineNumber o - 1)) ->
      is_Some (at_index modifiedLines (range_startLineNumber m - 1)) ->
      range_startLineNumber o <= range_endLineNumber o ->
      range_startLineNumber m <= range_endLineNumber m ->
      is_Some (getLineRangeMapping rangeMapping originalLines modifiedLines)).
Proof. apply getLineRangeMapping_deltas. Qed.

Lemma getLineRangeMapping_in_step_witness :
  getLineRangeMapping (rm 1 2 3 1 1 2 2 1)
    [codes "a"; codes "b"; codes "c"] [codes "a"; codes "c"]
  = Some (newDetailedLineRangeMapping (mkLineRange 2 3) (mkLineRange 2 2)
            [rm 1 2 3 1 1 2 2 1])
  /\ is_Some (getLineRangeMapping (rm 1 2 3 1 1 2 2 1)
                [codes "a"; codes "b"; codes "c"] [codes "a"; codes "c"]).
Proof.
  split; [vm_compute; reflexivity|].
  destruct (getLineRangeMapping_in_step (rm 1 2 3 1 1 2 2 1)
              [codes "a"; codes "b"; codes "c"] [codes "a"; codes "c"])
    as [_ Htotal].
  apply Htotal; simpl; try lia; vm_compute; eauto.
Defined.

Lemma groupAdjacentBy_concat {A} (f : A -> A -> bool) (items : list A) :
  concat (groupAdjacentBy f items) = items
  /\ Forall (fun g => g <> []) (groupAdjacentBy f items).
Proof.
  induction items as [|item rest [IH IHne]]; simpl; [split; [done | constructor]|].
  destruct (groupAdjacentBy f rest) as [|group groups] eqn:Hg.
  - simpl in IH. subst rest. split; [reflexivity | repeat constructor; done].
  - destruct (head rest) as [next|] eqn:Hnext.
    + destruct (f item next); simpl in *.
      * split; [by rewrite IH|].
        apply Forall_cons in IHne as [_ IHne]. constructor; [done | exact IHne].
      * split; [by rewrite IH | constructor; [done | exact IHne]].
    + destruct rest; [|discriminate]. simpl in IH.
      destruct group; [|discriminate].
      apply Forall_cons in IHne as [Hne _]. done.
Qed.

Lemma changeOfGroup_inner g c :
  Forall (fun a => exists x, innerChanges a = [x]) g ->
  changeOfGroup g = Some c ->
  innerChanges c = concat (innerChanges <$> g).
Proof.
  intros Hg. unfold changeOfGroup.
  destruct (head g) as [first|]; [|discriminate]. rewrite bind_Some.
  destruct (last g) as [lastOfGroup|]; [|discriminate]. rewrite bind_Some.
  assert (Hinner : mapM (fun a => head (innerChanges a)) g
                   = Some (concat (innerChanges <$> g))).
  { induction Hg as [|a g (x & Hx) _ IH]; [reflexivity|].
    rewrite mapM_cons_bind, fmap_cons, !Hx. simpl. rewrite IH. reflexivity. }
  rewrite Hinner, bind_Some. by intros [= <-].
Qed.

(** Every alignment ends up in one change: when
    [lineRangeMappingFromRangeMappings] returns changes, the inner changes
    of all the changes, one change after the other, are the alignments that
    were given, in their order, and no change is without inner changes. *)
Theorem lineRangeMappingFromRangeMappings_innerChanges
    (alignments : list RangeMapping) (originalLines modifiedLines : list jsstring)
    (dontAssertStartLine : bool) (changes : list DetailedLineRangeMapping) :
  lineRangeMappingFromRangeMappings alignments originalLines modifiedLines
    dontAssertStartLine = Some changes ->
  concat (innerChanges <$> changes) = alignments
  /\ Forall (fun c => innerChanges c <> []) changes.
Proof.
  unfold lineRangeMappingFromRangeMappings.
  destruct (mapM _ alignments) as [mapped|] eqn:Hmapped; [|discriminate].
  rewrite bind_Some. intros Hchanges.
  apply mapM_Some in Hmapped, Hchanges.
  assert (Hsingle : Forall2 (fun a d => innerChanges d = [a]) alignments mapped).
  { eapply Forall2_impl; [exact Hmapped|].
    intros a d Hd. simpl in Hd.
    exact (getLineRangeMapping_inner _ _ _ _ Hd). }
  assert (Hall : Forall (fun a => exists x, innerChanges a = [x]) mapped).
  { clear -Hsingle. induction Hsingle; constructor; eauto. }
  destruct (groupAdjacentBy_concat shouldBeGrouped mapped) as [Hconcat Hne].
  assert (Halign : concat (innerChanges <$> mapped) = alignments).
  { clear -Hsingle. induction Hsingle as [|a d l k Hd _ IH]; [reflexivity|].
    rewrite fmap_cons. simpl. rewrite Hd, IH. reflexivity. }
  rewrite <- Halign, <- Hconcat at 1. rewrite <- Hconcat in Hall.
  clear Hconcat Halign Hsingle Hmapped.
  induction Hchanges as [|g c groups changes' Hc _ IH]; [split; [done | constructor]|].
  apply Forall_cons in Hne as [Hg Hne].
  rewrite concat_cons in Hall. apply Forall_app in Hall as [Hallg Hall].
  destruct (IH Hall Hne) as [IHc IHn].
  pose proof (changeOfGroup_inner g c Hallg Hc) as Hinner.
  split.
  - rewrite fmap_cons. simpl. rewrite IHc, Hinner, fmap_app, concat_app.
    reflexivity.
  - constructor; [|exact IHn]. rewrite Hinner.
    destruct g as [|a g]; [done|]. apply Forall_cons in Hallg as [(x & Hx) _].
    rewrite fmap_cons. simpl. rewrite Hx. discriminate.
Qed.

Lemma lineRangeMappingFromRangeMappings_innerChanges_witness :
  lineRangeMappingFromRangeMappings
    [rm 1 1 1 2 1 1 1 2; rm 2 1 2 2 2 1 2 3; rm 4 1 4 2 4 1 4 1]
    [codes "a"; codes "b"; codes "c"; codes "d"]
    [codes "x"; codes "yz"; codes "c"; codes ""] false
  = Some [newDetailedLineRangeMapping (mkLineRange 1 3) (mkLineRange 1 3)
            [rm 1 1 1 2 1 1 1 2; rm 2 1 2 2 2 1 2 3];
          newDetailedLineRangeMapping (mkLineRange 4 5) (mkLineRange 4 5)
            [rm 4 1 4 2 4 1 4 1]]
  /\ concat [[rm 1 1 1 2 1 1 1 2; rm 2 1 2 2 2 1 2 3]; [rm 4 1 4 2 4 1 4 1]]
     = [rm 1 1 1 2 1 1 1 2; rm 2 1 2 2 2 1 2 3; rm 4 1 4 2 4 1 4 1].
Proof.
  split; [vm_compute; reflexivity|].
  apply (lineRangeMappingFromRangeMappings_innerChanges
           [rm 1 1 1 2 1 1 1 2; rm 2 1 2 2 2 1 2 3; rm 4 1 4 2 4 1 4 1]
           [codes "a"; codes "b"; codes "c"; codes "d"]
           [codes "x"; codes "yz"; codes "c"; codes ""] false
           [newDetailedLineRangeMapping (mkLineRange 1 3) (mkLineRange 1 3)
              [rm 1 1 1 2 1 1 1 2; rm 2 1 2 2 2 1 2 3];
            newDetailedLineRangeMapping (mkLineRange 4 5) (mkLineRange 4 5)
              [rm 4 1 4 2 4 1 4 1]]).
  vm_compute. reflexivity.
Defined.

(** ** [computeMovesFromSimpleDeletionsToSimpleInsertions]: what the moves
    pair *)

Lemma newLineRangeFragment_fields chrKeys range lines source f chrKeys' :
  newLineRangeFragment chrKeys range lines source = Some (f, chrKeys') ->
  fragment_range f = range /\ fragment_source f = source.
Proof.
  unfold newLineRangeFragment. destruct (forEachM _ _ _) as [b|]; [|discriminate].
  rewrite bind_Some. by intros [= <- _].
Qed.

Lemma fragmentsOf_sources keep side lines changes :
  forall chrKeys fragments chrKeys',
    NoDup changes.*1 ->
    fragmentsOf chrKeys keep side lines changes = Some (fragments, chrKeys') ->
    NoDup (fragment_source <$> fragments)
    /\ Forall (fun f => exists c,
                 (fragment_source f, c) ∈ changes /\ keep c = true
                 /\ fragment_range f = side c) fragments.
Proof.
  induction changes as [|[source c] changes IH];
    intros chrKeys fragments chrKeys' Hnd; simpl.
  - intros [= <- _]. split; constructor.
  - apply NoDup_cons in Hnd as [Hsource Hnd].
    assert (Hrest : forall chrKeys fragments chrKeys',
              fragmentsOf chrKeys keep side lines changes
              = Some (fragments, chrKeys') ->
              NoDup (fragment_source <$> fragments)
              /\ (source ∉ (fragment_source <$> fragments))
              /\ Forall (fun f => exists c0,
                           (fragment_source f, c0) ∈ (source, c) :: changes
                           /\ keep c0 = true /\ fragment_range f = side c0)
                   fragments).
    { intros m fs m' Hfs. destruct (IH m fs m' Hnd Hfs) as [Hnd' Hall].
      split; [exact Hnd'|]. split.
      - intros Hin. apply Hsource. apply list_elem_of_fmap in Hin as (f & -> & Hf).
        eapply Forall_forall in Hall; [|exact Hf]. destruct Hall as (c0 & Hc0 & _).
        apply list_elem_of_fmap. by exists (fragment_source f, c0).
      - eapply Forall_impl; [exact Hall|]. intros f (c0 & Hc0 & Hk & Hr).
        exists c0. split; [by right | auto]. }
    destruct (keep c) eqn:Hkeep; [|intros H; by destruct (Hrest _ _ _ H) as (? & _ & ?)].
    destruct (newLineRangeFragment chrKeys (side c) lines source)
      as [[fragment chrKeys1]|] eqn:Hf; [|discriminate].
    rewrite bind_Some.
    destruct (fragmentsOf chrKeys1 keep side lines changes)
      as [[fragments' chrKeys2]|] eqn:Hfs; [|discriminate].
    rewrite bind_Some. intros [= <- _].
    apply newLineRangeFragment_fields in Hf as [Hrange Hsrc].
    destruct (Hrest _ _ _ Hfs) as (Hnd' & Hnotin & Hall).
    split.
    + rewrite fmap_cons, Hsrc. by apply NoDup_cons.
    + constructor; [|exact Hall].
      exists c. rewrite Hsrc, Hrange. split; [left | auto].
Qed.

Lemma elem_of_indexed {A} (l : list A) (i : nat) (x : A) :
  (i, x) ∈ indexed l <-> l !! i = Some x.
Proof.
  unfold indexed. split.
  - intros (j & i' & x' & [= -> ->] & Hi & Hx)%elem_of_lookup_zip_with_1.
    apply lookup_seq in Hi as [-> _]. exact Hx.
  - intros Hx. apply list_elem_of_lookup. exists i.
    rewrite lookup_zip_with, Hx.
    rewrite (proj2 (lookup_seq 0 (length l) i i)); [reflexivity|].
    split; [reflexivity|]. by eapply lookup_lt_Some.
Qed.

Lemma NoDup_indexed {A} (l : list A) : NoDup (indexed l).*1.
Proof.
  unfold indexed. rewrite fst_zip by (rewrite length_seq; lia). apply NoDup_seq.
Qed.

Lemma bestInsertion_place deletion insertions :
  forall place h best h' p b,
    bestInsertion deletion insertions place h best = (h', Some (p, b)) ->
    best = Some (p, b)
    \/ exists i, p = (place + i)%nat /\ insertions !! i = Some b.
Proof.
  induction insertions as [|insertion rest IH]; intros place h best h' p b; simpl.
  - intros [= _ ->]. by left.
  - assert (Hshift : forall h0 best0,
              bestInsertion deletion rest (S place) h0 best0 = (h', Some (p, b)) ->
              best0 = Some (p, b)
              \/ exists i, p = (place + i)%nat
                           /\ (insertion :: rest) !! i = Some b).
    { intros h0 best0 H0. destruct (IH _ _ _ _ _ _ H0) as [?|(i & -> & Hi)];
        [by left|]. right. exists (S i). split; [lia | exact Hi]. }
    destruct (computeSimilarity deletion insertion) as [similarity|];
      [|apply Hshift].
    destruct (Qgtb similarity h); [|apply Hshift].
    intros H0. destruct (Hshift _ _ H0) as [[= <- <-]|?]; [|by right].
    right. exists 0%nat. split; [lia | reflexivity].
Qed.

Lemma pairedInsertion_place deletion insertions place best :
  pairedInsertion deletion insertions = Some (place, best) ->
  insertions !! place = Some best.
Proof.
  unfold pairedInsertion.
  destruct (bestInsertion deletion insertions 0 (-1) None) as [h b] eqn:Hb.
  destruct (Qgtb h (9 # 10)); [|discriminate]. intros ->.
  destruct (bestInsertion_place _ _ _ _ _ _ _ _ Hb) as [?|(i & -> & Hi)];
    [discriminate | exact Hi].
Qed.

Lemma simpleMoves_loop_pairs changes timeout deletions :
  forall polls insertions acc pairs,
    Forall (fragmentOf changes isSimpleDeletion (fun d => original d)) deletions ->
    Forall (fragmentOf changes isSimpleInsertion (fun d => modified d))
      insertions ->
    NoDup (simple_excludedChanges acc ++ (fragment_source <$> deletions)
           ++ (fragment_source <$> insertions)) ->
    simple_excludedChanges acc = flat_map (fun p => [p.1; p.2]) pairs ->
    Forall2 (pairsChanges changes) pairs (simple_moves acc) ->
    exists pairs',
      NoDup (simple_excludedChanges
               (simpleMoves_loop timeout polls deletions insertions acc).1)
      /\ simple_excludedChanges
           (simpleMoves_loop timeout polls deletions insertions acc).1
         = flat_map (fun p => [p.1; p.2]) pairs'
      /\ Forall2 (pairsChanges changes) pairs'
           (simple_moves
              (simpleMoves_loop timeout polls deletions insertions acc).1).
Proof.
  induction deletions as [|deletion rest IH];
    intros polls insertions acc pairs Hdel Hins Hnd Hexcl Hpairs; simpl.
  - exists pairs. split; [|auto]. by apply NoDup_app in Hnd as (Hnd & _).
  - apply Forall_cons in Hdel as [Hd Hdel]. rewrite fmap_cons in Hnd.
    assert (Hstep : exists insertions' acc' pairs',
              (match pairedInsertion deletion insertions with
               | Some (place, best) =>
                   (delete place insertions,
                    mkSimpleMoves
                      (simple_moves acc
                       ++ [mkLineRangeMapping (fragment_range deletion)
                             (fragment_range best)])
                      (simple_excludedChanges acc
                       ++ [fragment_source deletion; fragment_source best]))
               | None => (insertions, acc)
               end) = (insertions', acc')
              /\ Forall (fragmentOf changes isSimpleInsertion
                           (fun d => modified d)) insertions'
              /\ NoDup (simple_excludedChanges acc'
                        ++ (fragment_source <$> rest)
                        ++ (fragment_source <$> insertions'))
              /\ simple_excludedChanges acc'
                 = flat_map (fun p => [p.1; p.2]) pairs'
              /\ Forall2 (pairsChanges changes) pairs' (simple_moves acc')).
    { destruct (pairedInsertion deletion insertions) as [[place best]|] eqn:Hp.
      - apply pairedInsertion_place in Hp.
        do 2 eexists.
        exists (pairs ++ [(fragment_source deletion, fragment_source best)]).
        split; [reflexivity|]. split; [by apply Forall_delete|]. simpl.
        split; [|split].
        + rewrite (delete_Permutation _ _ _ Hp), fmap_cons in Hnd.
          eapply NoDup_Permutation_proper; [|exact Hnd].
          rewrite <- !(assoc_L (++)). f_equiv. simpl. f_equiv.
          apply Permutation_middle.
        + rewrite flat_map_app, Hexcl. simpl. reflexivity.
        + apply Forall2_app; [exact Hpairs|]. constructor; [|constructor].
          destruct Hd as (cd & Hcd & Hkd & Hrd).
          eapply Forall_lookup_1 in Hins as (ci & Hci & Hki & Hri); [|exact Hp].
          exists cd, ci. simpl. auto 10.
      - exists insertions, acc, pairs. split; [reflexivity|].
        split; [exact Hins|]. split; [|auto].
        rewrite <- app_comm_cons, <- Permutation_middle in Hnd.
        by apply NoDup_cons in Hnd as [_ ?]. }
    destruct Hstep as (insertions' & acc' & pairs' & -> & Hins' & Hnd' & Hexcl'
                       & Hpairs').
    destruct (timeout polls); simpl.
    + by apply (IH _ _ _ pairs').
    + exists pairs'. split; [|auto]. by apply NoDup_app in Hnd' as (? & _).
Qed.

(** The simple moves pair distinct changes: when
    [computeMovesFromSimpleDeletionsToSimpleInsertions] returns, each of its
    moves runs from the original lines of a simple deletion of [changes] to
    the modified lines of a simple insertion of [changes], these two
    changes are the ones that it has excluded for the move, and no change is
    excluded twice: no deletion and no insertion takes part in two moves. *)
Theorem simple_moves_pair_changes (chrKeys : gmap char nat)
    (changes : list DetailedLineRangeMapping)
    (originalLines modifiedLines : list jsstring)
    (timeout : Timeout) (polls : nat) (simple : SimpleMoves) (polls' : nat) :
  computeMovesFromSimpleDeletionsToSimpleInsertions chrKeys changes
    originalLines modifiedLines timeout polls = Some (simple, polls') ->
  NoDup (simple_excludedChanges simple)
  /\ exists pairs,
       simple_excludedChanges simple = flat_map (fun p => [p.1; p.2]) pairs
       /\ Forall2 (pairsChanges changes) pairs (simple_moves simple).
Proof.
  unfold computeMovesFromSimpleDeletionsToSimpleInsertions.
  destruct (fragmentsOf chrKeys isSimpleDeletion _ _ _)
    as [[deletions chrKeys1]|] eqn:Hdel; [|discriminate].
  rewrite bind_Some.
  destruct (fragmentsOf chrKeys1 isSimpleInsertion _ _ _)
    as [[insertions chrKeys2]|] eqn:Hins; [|discriminate].
  rewrite bind_Some.
  apply fragmentsOf_sources in Hdel as [Hndd Hdel]; [|apply NoDup_indexed].
  apply fragmentsOf_sources in Hins as [Hndi Hins]; [|apply NoDup_indexed].
  assert (Hdel' : Forall (fragmentOf changes isSimpleDeletion
                            (fun d => original d)) deletions).
  { eapply Forall_impl; [exact Hdel|]. intros f (c & Hc & Hk & Hr).
    exists c. split; [by apply elem_of_indexed | auto]. }
  assert (Hins' : Forall (fragmentOf changes isSimpleInsertion
                            (fun d => modified d)) insertions).
  { eapply Forall_impl; [exact Hins|]. intros f (c & Hc & Hk & Hr).
    exists c. split; [by apply elem_of_indexed | auto]. }
  destruct (simpleMoves_loop_pairs changes timeout deletions polls insertions
              (mkSimpleMoves [] []) []) as (pairs & Hnd & Hexcl & Hpairs);
    [exact Hdel' | exact Hins' | | reflexivity | constructor |].
  - simpl. apply NoDup_app. split; [exact Hndd|]. split; [|exact Hndi].
    intros source (f & -> & Hf)%list_elem_of_fmap (g & Hfg & Hg)%list_elem_of_fmap.
    eapply Forall_forall in Hdel' as (c & Hc & Hkd & _); [|exact Hf].
    eapply Forall_forall in Hins' as (c' & Hc' & Hki & _); [|exact Hg].
    rewrite Hfg in Hc. assert (c' = c) as -> by congruence.
    unfold isSimpleDeletion, isSimpleInsertion, LineRange.isEmpty,
      LineRange.length in Hkd, Hki.
    apply andb_true_iff in Hkd as [_ Hkd]. apply andb_true_iff in Hki as [Hki _].
    apply Z.eqb_eq in Hki. apply Z.geb_le in Hkd. lia.
  - destruct (simpleMoves_loop timeout polls deletions insertions _)
      as [simple0 polls0]. simpl in *. intros [= <- _]. eauto.
Qed.

Lemma simple_moves_pair_changes_witness :
  computeMovesFromSimpleDeletionsToSimpleInsertions ∅ MovedUp.changes
    MovedUp.originalLines MovedUp.modifiedLines InfiniteTimeout 0
  = Some (mkSimpleMoves [lrm 2 5 1 4] [1%nat; 0%nat], 1%nat)
  /\ NoDup [1%nat; 0%nat]
  /\ exists pairs,
       [1%nat; 0%nat] = flat_map (fun p => [p.1; p.2]) pairs
       /\ Forall2 (pairsChanges MovedUp.changes) pairs [lrm 2 5 1 4].
Proof.
  split; [vm_compute; reflexivity|].
  apply (simple_moves_pair_changes ∅ MovedUp.changes MovedUp.originalLines
           MovedUp.modifiedLines InfiniteTimeout 0
           (mkSimpleMoves [lrm 2 5 1 4] [1%nat; 0%nat]) 1).
  vm_compute. reflexivity.
Defined.

(** ** [computeUnchangedMoves]: the lines of a move *)

Lemma SetMap_get_add m key value key' r :
  r ∈ SetMap_get (SetMap_add m key value) key' ->
  r ∈ SetMap_get m key' \/ key' = key /\ r = value.
Proof.
  unfold SetMap_get, SetMap_add. destruct (decide (key = key')) as [<-|Hne].
  - rewrite lookup_insert_eq. simpl. intros [Hr|Hr]%elem_of_app; [by left|].
    apply list_elem_of_singleton in Hr. by right.
  - rewrite lookup_insert_ne by exact Hne. by left.
Qed.

(** Every window of [original3LineHashes] lies under its own key. *)
Lemma original3LineHashes_windows changes hashedOriginalLines key r :
  r ∈ SetMap_get (original3LineHashes changes hashedOriginalLines) key ->
  exists i, r = mkLineRange i (i + 3)
            /\ threeLineKey hashedOriginalLines i = key.
Proof.
  unfold original3LineHashes.
  set (P := fun m : gmap HashKey (list LineRange) =>
              forall key r, r ∈ SetMap_get m key ->
                exists i, r = mkLineRange i (i + 3)
                          /\ threeLineKey hashedOriginalLines i = key).
  assert (Hinner : forall is_ m, P m ->
            P (foldl (fun m i =>
                        SetMap_add m (threeLineKey hashedOriginalLines i)
                          (mkLineRange i (i + 3))) m is_)).
  { induction is_ as [|i is_ IH]; intros m Hm; simpl; [exact Hm|].
    apply IH. intros key' r' [Hr|[-> ->]]%SetMap_get_add; [by apply Hm|].
    by exists i. }
  assert (Houter : forall cs m, P m ->
            P (foldl (fun m (change : DetailedLineRangeMapping) =>
                        foldl (fun m i =>
                                 SetMap_add m
                                   (threeLineKey hashedOriginalLines i)
                                   (mkLineRange i (i + 3)))
                          m
                          (seqZ (startLineNumber (original change))
                             (endLineNumberExclusive (original change) - 2
                              - startLineNumber (original change))))
                 m cs)).
  { induction cs as [|c cs IH]; intros m Hm; simpl; [exact Hm|].
    apply IH. by apply Hinner. }
  apply Houter. intros key' r'. unfold SetMap_get. rewrite lookup_empty.
  simpl. by intros ?%elem_of_nil.
Qed.

Lemma findExtended_Some possible lastMappings range currentModifiedRange
    place lastMapping :
  findExtended possible lastMappings range currentModifiedRange
  = Some (place, lastMapping) ->
  possible !! place = Some lastMapping
  /\ endLineNumberExclusive (originalLineRange lastMapping) + 1
     = endLineNumberExclusive range
  /\ endLineNumberExclusive (modifiedLineRange lastMapping) + 1
     = endLineNumberExclusive currentModifiedRange.
Proof.
  induction lastMappings as [|p rest IH]; simpl; [discriminate|].
  destruct (possible !! p) as [l|] eqn:Hl; [|exact IH].
  destruct (Z.eqb_spec (endLineNumberExclusive (originalLineRange l) + 1)
              (endLineNumberExclusive range)); simpl; [|exact IH].
  destruct (Z.eqb_spec (endLineNumberExclusive (modifiedLineRange l) + 1)
              (endLineNumberExclusive currentModifiedRange)); simpl; [|exact IH].
  intros [= <- <-]. auto.
Qed.

(** What holds of every mapping on which the sweep works: it is at least
    three lines long and maps lines of the same hashes. *)
Lemma matchTrigram_sameHashes ho hm lastMappings (i io : Z) st :
  threeLineKey ho io = threeLineKey hm i ->
  Forall (fun mp => 3 <= LineRange.length (modifiedLineRange mp)
                    /\ sameHashes ho hm (originalLineRange mp)
                         (modifiedLineRange mp))
    (possibleMappings st) ->
  Forall (fun mp => 3 <= LineRange.length (modifiedLineRange mp)
                    /\ sameHashes ho hm (originalLineRange mp)
                         (modifiedLineRange mp))
    (possibleMappings
       (matchTrigram lastMappings (mkLineRange i (i + 3)) st
          (mkLineRange io (io + 3)))).
Proof.
  intros Hkey Hall. unfold threeLineKey in Hkey.
  injection Hkey as Hk0 Hk1 Hk2. unfold matchTrigram.
  destruct (findExtended _ _ _ _) as [[place lastMapping]|] eqn:Hext; simpl.
  - apply findExtended_Some in Hext as (Hplace & Heo & Hem). simpl in Heo, Hem.
    eapply Forall_lookup_1 in Hall as Hl; [|exact Hplace].
    destruct Hl as (Hlen & Hsame & Hlines).
    apply Forall_insert; [exact Hall|]. unfold sameHashes, LineRange.length in *.
    simpl. split; [lia|]. split; [lia|].
    intros k Hk.
    destruct (Z.eq_dec k (endLineNumberExclusive (modifiedLineRange lastMapping)
                          - startLineNumber (modifiedLineRange lastMapping)))
      as [->|Hne]; [|apply Hlines; lia].
    replace (startLineNumber (originalLineRange lastMapping) - 1
             + (endLineNumberExclusive (modifiedLineRange lastMapping)
                - startLineNumber (modifiedLineRange lastMapping)))
      with (io + 2 - 1) by lia.
    replace (startLineNumber (modifiedLineRange lastMapping) - 1
             + (endLineNumberExclusive (modifiedLineRange lastMapping)
                - startLineNumber (modifiedLineRange lastMapping)))
      with (i + 2 - 1) by lia.
    exact Hk2.
  - apply Forall_app. split; [exact Hall|]. constructor; [|constructor].
    unfold sameHashes, LineRange.length. simpl. split; [lia|]. split; [lia|].
    intros k Hk.
    assert (k = 0 \/ k = 1 \/ k = 2) as [-> | [-> | ->]] by lia.
    + by rewrite !Z.add_0_r.
    + replace (io - 1 + 1) with (io + 1 - 1) by lia.
      replace (i - 1 + 1) with (i + 1 - 1) by lia. exact Hk1.
    + replace (io - 1 + 2) with (io + 2 - 1) by lia.
      replace (i - 1 + 2) with (i + 2 - 1) by lia. exact Hk2.
Qed.

Lemma matchTrigrams_sameHashes ho hm lastMappings (i : Z) ranges :
  forall st,
    (forall r, r ∈ ranges ->
       exists io, r = mkLineRange io (io + 3)
                  /\ threeLineKey ho io = threeLineKey hm i) ->
    Forall (fun mp => 3 <= LineRange.length (modifiedLineRange mp)
                      /\ sameHashes ho hm (originalLineRange mp)
                           (modifiedLineRange mp))
      (possibleMappings st) ->
    Forall (fun mp => 3 <= LineRange.length (modifiedLineRange mp)
                      /\ sameHashes ho hm (originalLineRange mp)
                           (modifiedLineRange mp))
      (possibleMappings
         (foldl (matchTrigram lastMappings (mkLineRange i (i + 3))) st ranges)).
Proof.
  induction ranges as [|r ranges IHr]; intros st Hwindows Hall; simpl;
    [exact Hall|].
  apply IHr.
  - intros r' Hr'. apply Hwindows. by right.
  - destruct (Hwindows r ltac:(left)) as (io & -> & Hkey).
    by apply matchTrigram_sameHashes.
Qed.

Lemma sweepWindows_sameHashes changes ho hm is_ :
  forall possible lastMappings,
    Forall (fun mp => 3 <= LineRange.length (modifiedLineRange mp)
                      /\ sameHashes ho hm (originalLineRange mp)
                           (modifiedLineRange mp)) possible ->
    Forall (fun mp => 3 <= LineRange.length (modifiedLineRange mp)
                      /\ sameHashes ho hm (originalLineRange mp)
                           (modifiedLineRange mp))
      (foldl
         (fun '(possible, lastMappings) i =>
            let key := threeLineKey hm i in
            let currentModifiedRange := mkLineRange i (i + 3) in
            let st :=
              foldl (matchTrigram lastMappings currentModifiedRange)
                (mkTrigramSweep possible [])
                (SetMap_get (original3LineHashes changes ho) key) in
            (possibleMappings st, nextMappings st))
         (possible, lastMappings) is_).1.
Proof.
  induction is_ as [|i is_ IH]; intros possible lastMappings Hall; simpl;
    [exact Hall|].
  apply IH. apply matchTrigrams_sameHashes; [|exact Hall].
  intros r. apply original3LineHashes_windows.
Qed.

Lemma sweepChange_sameHashes changes ho hm possible change :
  Forall (fun mp => 3 <= LineRange.length (modifiedLineRange mp)
                    /\ sameHashes ho hm (originalLineRange mp)
                         (modifiedLineRange mp)) possible ->
  Forall (fun mp => 3 <= LineRange.length (modifiedLineRange mp)
                    /\ sameHashes ho hm (originalLineRange mp)
                         (modifiedLineRange mp))
    (sweepChange (original3LineHashes changes ho) hm possible change).
Proof. apply sweepWindows_sameHashes. Qed.

Lemma sweepChanges_sameHashes all ho hm timeout changes :
  forall polls possible possible' polls',
    Forall (fun mp => 3 <= LineRange.length (modifiedLineRange mp)
                      /\ sameHashes ho hm (originalLineRange mp)
                           (modifiedLineRange mp)) possible ->
    sweepChanges (original3LineHashes all ho) hm timeout polls changes possible
    = (Some possible', polls') ->
    Forall (fun mp => 3 <= LineRange.length (modifiedLineRange mp)
                      /\ sameHashes ho hm (originalLineRange mp)
                           (modifiedLineRange mp)) possible'.
Proof.
  induction changes as [|change changes IH];
    intros polls possible possible' polls' Hall; simpl.
  - by intros [= <- _].
  - destruct (timeout polls); simpl; [|discriminate].
    apply IH. by apply sweepChange_sameHashes.
Qed.

Lemma sort_insert_Forall {A} (P : A -> Prop) (key : A -> Z) x l :
  P x -> Forall P l -> Forall P (sort_insert key x l).
Proof.
  intros Hx. induction 1 as [|y l Hy Hl IH]; simpl; [by repeat constructor|].
  destruct (key x <=? key y); repeat constructor; auto.
Qed.

Lemma sortBy_Forall {A} (P : A -> Prop) (key : A -> Z) l :
  Forall P l -> Forall P (sortBy key l).
Proof.
  unfold sortBy. induction 1 as [|x l Hx Hl IH]; simpl; [constructor|].
  by apply sort_insert_Forall.
Qed.

Lemma subtractFrom_within ranges : forall r,
  Forall (fun x => within x r) (LineRangeSet.subtractFrom ranges r).
Proof.
  unfold within. induction ranges as [|x rest IH]; intros r; simpl.
  - destruct (LineRange.isEmpty r); repeat constructor; lia.
  - destruct (Z.leb_spec (endLineNumberExclusive r) (startLineNumber r));
      [constructor|].
    destruct (Z.leb_spec (endLineNumberExclusive x) (startLineNumber r));
      [apply IH|].
    destruct (Z.leb_spec (endLineNumberExclusive r) (startLineNumber x));
      [repeat constructor; lia|].
    apply Forall_app. split.
    + destruct (Z.ltb_spec (startLineNumber r) (startLineNumber x));
        repeat constructor; simpl; lia.
    + eapply Forall_impl; [apply IH|]. simpl. intros y Hy. lia.
Qed.

Lemma getIntersection_within ranges other r :
  Forall (fun x => within x r) ranges ->
  Forall (fun x => within x r) (LineRangeSet.getIntersection ranges other).
Proof.
  unfold LineRangeSet.getIntersection, within. intros Hall.
  apply Forall_forall. intros s Hs.
  apply list_elem_of_bind in Hs as (r1 & Hs & Hr1).
  apply list_elem_of_omap in Hs as (r2 & _ & Hs).
  eapply Forall_forall in Hall; [|exact Hr1].
  unfold LineRange.intersect in Hs.
  destruct (Z.leb_spec (Z.max (startLineNumber r1) (startLineNumber r2))
              (Z.min (endLineNumberExclusive r1) (endLineNumberExclusive r2)));
    [|discriminate].
  destruct (LineRange.isEmpty _); [discriminate|].
  injection Hs as <-. simpl. lia.
Qed.

Lemma takeMapping_sameHashes ho hm st mapping :
  3 <= LineRange.length (modifiedLineRange mapping)
  /\ sameHashes ho hm (originalLineRange mapping) (modifiedLineRange mapping) ->
  Forall (fun m => 3 <= LineRange.length (modified m)
                   /\ sameHashes ho hm (original m) (modified m))
    (unchanged_moves st) ->
  Forall (fun m => 3 <= LineRange.length (modified m)
                   /\ sameHashes ho hm (original m) (modified m))
    (unchanged_moves (takeMapping st mapping)).
Proof.
  intros (_ & Hlen & Hlines) Hall. unfold takeMapping. cbv zeta.
  set (sections :=
         LineRangeSet.getIntersection
           (LineRangeSet.subtractFrom (modifiedSet st)
              (modifiedLineRange mapping))
           (LineRangeSet.getWithDelta
              (LineRangeSet.subtractFrom (originalSet st)
                 (originalLineRange mapping))
              (startLineNumber (modifiedLineRange mapping)
               - startLineNumber (originalLineRange mapping)))).
  assert (Hwithin : Forall (fun x => within x (modifiedLineRange mapping))
                      sections)
    by apply getIntersection_within, subtractFrom_within.
  clearbody sections. revert st Hwithin Hall.
  induction sections as [|s sections IH]; intros st Hwithin Hall; simpl;
    [exact Hall|].
  apply Forall_cons in Hwithin as [[Hs1 Hs2] Hwithin].
  apply IH; [exact Hwithin|].
  destruct (Z.ltb_spec (LineRange.length s) 3); [exact Hall|]. simpl.
  apply Forall_app. split; [exact Hall|]. constructor; [|constructor].
  unfold sameHashes, LineRange.length, LineRange.delta in *. simpl.
  split; [lia|]. split; [lia|]. intros k Hk.
  specialize (Hlines (startLineNumber s
                      - startLineNumber (modifiedLineRange mapping) + k)
                ltac:(lia)).
  etransitivity; [|etransitivity; [exact Hlines|]]; f_equal; lia.
Qed.

(** An unchanged move maps equal lines: every move that
    [computeUnchangedMoves] returns is at least three lines long, as long on
    the original side as on the modified side, and the lines of its two
    sides have the same hashes line by line, so that, the hashes being
    those of the trimmed lines, it maps lines that are equal after
    trimming. *)
Theorem computeUnchangedMoves_sameHashes
    (changes : list DetailedLineRangeMapping)
    (hashedOriginalLines hashedModifiedLines : list Z)
    (timeout : Timeout) (polls : nat) :
  Forall (fun m => 3 <= LineRange.length (modified m)
                   /\ sameHashes hashedOriginalLines hashedModifiedLines
                        (original m) (modified m))
    (computeUnchangedMoves changes hashedOriginalLines hashedModifiedLines
       timeout polls).1.
Proof.
  unfold computeUnchangedMoves.
  destruct (sweepChanges _ _ _ _ _ _) as [[possible|] polls'] eqn:Hsweep; simpl;
    [|constructor].
  apply sweepChanges_sameHashes in Hsweep; [|constructor].
  apply (sortBy_Forall _ (fun m => - LineRange.length (modifiedLineRange m)))
    in Hsweep.
  cbv zeta.
  set (sorted := sortBy (fun m => - LineRange.length (modifiedLineRange m))
                   possible) in *.
  clearbody sorted. revert Hsweep.
  assert (Hnil : Forall (fun m => 3 <= LineRange.length (modified m)
                                  /\ sameHashes hashedOriginalLines
                                       hashedModifiedLines (original m)
                                       (modified m))
                   (unchanged_moves (mkTakenLines [] [] [])))
    by constructor.
  revert Hnil. generalize (mkTakenLines [] [] []) as st.
  induction sorted as [|mapping sorted IH]; intros st Hst Hall; simpl;
    [exact Hst|].
  apply Forall_cons in Hall as [Hm Hall].
  apply IH; [|exact Hall]. by apply takeMapping_sameHashes.
Qed.

Lemma computeUnchangedMoves_sameHashes_witness :
  (computeUnchangedMoves ShortMove.changes ShortMove.hashedOriginalLines
     ShortMove.hashedModifiedLines InfiniteTimeout 0).1 = [lrm 2 5 1 4]
  /\ 3 <= LineRange.length (modified (lrm 2 5 1 4))
  /\ sameHashes ShortMove.hashedOriginalLines ShortMove.hashedModifiedLines
       (original (lrm 2 5 1 4)) (modified (lrm 2 5 1 4)).
Proof.
  pose proof (computeUnchangedMoves_sameHashes ShortMove.changes
                ShortMove.hashedOriginalLines ShortMove.hashedModifiedLines
                InfiniteTimeout 0) as Hall.
  assert (Hmoves : (computeUnchangedMoves ShortMove.changes
                      ShortMove.hashedOriginalLines
                      ShortMove.hashedModifiedLines InfiniteTimeout 0).1
                   = [lrm 2 5 1 4]) by (vm_compute; reflexivity).
  rewrite Hmoves in Hall. apply Forall_cons in Hall as [Hmove _].
  split; [exact Hmoves | exact Hmove].
Defined.

(** ** [computeDiff]: documents of more than one line *)

(** On two documents of more than one line each, [computeDiff] takes
    neither of its two short cuts. *)
Lemma computeDiff_long K chrKeys originalLines modifiedLines options :
  2 <= arrlen originalLines -> 2 <= arrlen modifiedLines ->
  computeDiff K chrKeys originalLines modifiedLines options
  = let timeout :=
      if maxComputationTimeMs options =? 0 then InfiniteTimeout
      else newDateTimeout K (maxComputationTimeMs options) in
    let considerWhitespaceChanges := negb (ignoreTrimWhitespace options) in
    let srcDocLines := (hashLines ∅ originalLines).1 in
    let tgtDocLines :=
      (hashLines (hashLines ∅ originalLines).2 modifiedLines).1 in
    let sequence1 := mkLineSequence srcDocLines originalLines in
    let sequence2 := mkLineSequence tgtDocLines modifiedLines in
    let result :=
      lineAlignmentResult K sequence1 sequence2 originalLines modifiedLines
        timeout in
    w ← forEachM
          (walkDiff K originalLines modifiedLines timeout
             considerWhitespaceChanges)
          (mkWalk [] (result_hitTimeout result) 0 0)
          (lineAlignments K sequence1 sequence2 (result_diffs result));
    w ← scanForWhitespaceChanges K originalLines modifiedLines timeout
          considerWhitespaceChanges w (arrlen originalLines - seq1LastStart w);
    changes ← lineRangeMappingFromRangeMappings (walk_alignments w)
                originalLines modifiedLines false;
    moves ←
      (if option_computeMoves options
       then computeMoves K chrKeys changes originalLines modifiedLines
              srcDocLines tgtDocLines timeout considerWhitespaceChanges
       else Some []);
    Some (mkLinesDiff changes moves (walk_hitTimeout w)).
Proof.
  intros Ho Hm. unfold computeDiff.
  destruct (Z.leb_spec (arrlen originalLines) 1); [lia|].
  destruct (Z.eqb_spec (arrlen originalLines) 1); [lia|].
  destruct (Z.eqb_spec (arrlen modifiedLines) 1); [lia|].
  cbn [andb orb]. cbv zeta.
  destruct (hashLines ∅ originalLines) as [src hashes].
  cbn [fst snd].
  destruct (hashLines hashes modifiedLines) as [tgt hashes'].
  reflexivity.
Qed.

Lemma computeMoves_nil K chrKeys originalLines modifiedLines
    hashedOriginalLines hashedModifiedLines timeout cws :
  computeMoves K chrKeys [] originalLines modifiedLines hashedOriginalLines
    hashedModifiedLines timeout cws = Some [].
Proof.
  unfold computeMoves, computeMovesFromSimpleDeletionsToSimpleInsertions.
  simpl. destruct (timeout 0%nat); reflexivity.
Qed.

(** No difference of lines, no change: on two documents of more than one
    line each for which the line alignments are empty, [computeDiff] returns
    no change and no move, with the [hitTimeout] of the line kernel, when
    white space is ignored or when every line of the original is the line
    of the modified at the same place; no line is refined then. *)
Theorem computeDiff_no_line_difference (K : Collaborators)
    (chrKeys : gmap char nat) (originalLines modifiedLines : list jsstring)
    (options : ILinesDiffComputerOptions) :
  let timeout :=
    if maxComputationTimeMs options =? 0 then InfiniteTimeout
    else newDateTimeout K (maxComputationTimeMs options) in
  let sequence1 :=
    mkLineSequence (hashLines ∅ originalLines).1 originalLines in
  let sequence2 :=
    mkLineSequence (hashLines (hashLines ∅ originalLines).2 modifiedLines).1
      modifiedLines in
  let result :=
    lineAlignmentResult K sequence1 sequence2 originalLines modifiedLines
      timeout in
  2 <= arrlen originalLines -> 2 <= arrlen modifiedLines ->
  lineAlignments K sequence1 sequence2 (result_diffs result) = [] ->
  ignoreTrimWhitespace options = true
  \/ (forall i, 0 <= i < arrlen originalLines ->
        at_index originalLines i = at_index modifiedLines i) ->
  computeDiff K chrKeys originalLines modifiedLines options
  = Some (mkLinesDiff [] [] (result_hitTimeout result)).
Proof.
  cbv zeta. intros Ho Hm Hnone Hsame.
  rewrite computeDiff_long by assumption. cbv zeta.
  rewrite Hnone. simpl forEachM. rewrite bind_Some. simpl seq1LastStart.
  assert (Hscan : forall t w,
            seq1LastStart w = 0 -> seq2LastStart w = 0 ->
            scanForWhitespaceChanges K originalLines modifiedLines t
              (negb (ignoreTrimWhitespace options)) w (arrlen originalLines - 0)
            = Some w).
  { intros t w Hw1 Hw2. unfold scanForWhitespaceChanges.
    destruct Hsame as [-> | Hsame]; [reflexivity|].
    destruct (ignoreTrimWhitespace options); [reflexivity|]. simpl.
    apply scan_equal. intros i Hi. rewrite Hw1, Hw2, !Z.add_0_l.
    apply Hsame. lia. }
  rewrite Hscan by reflexivity. rewrite bind_Some. simpl walk_alignments.
  change (lineRangeMappingFromRangeMappings [] originalLines modifiedLines false)
    with (Some (@nil DetailedLineRangeMapping)).
  rewrite bind_Some, computeMoves_nil.
  by destruct (option_computeMoves options).
Qed.

Lemma computeDiff_no_line_difference_witness :
  computeDiff noDifference ∅ [codes "a"; codes " b"] [codes "a"; codes "b"]
    (mkOptions true 0 true)
  = Some (mkLinesDiff [] [] false).
Proof.
  apply (computeDiff_no_line_difference noDifference ∅
           [codes "a"; codes " b"] [codes "a"; codes "b"]
           (mkOptions true 0 true)).
  - unfold arrlen; simpl; lia.
  - unfold arrlen; simpl; lia.
  - reflexivity.
  - left. reflexivity.
Defined.

Lemma scanLine_hitTimeout K o m t cws w i w' :
  scanLine K o m t cws w i = Some w' ->
  walk_hitTimeout w = true -> walk_hitTimeout w' = true.
Proof.
  unfold scanLine. destruct (bool_decide _); [|by intros [= <-]].
  destruct (refineDiff _ _ _ _ _ _) as [c|]; [|discriminate].
  rewrite bind_Some. intros [= <-] Hw. simpl. by rewrite Hw.
Qed.

Lemma forEachM_invariant {S A} (P : S -> Prop) (body : S -> A -> option S) xs :
  (forall s x s', body s x = Some s' -> P s -> P s') ->
  forall s s', forEachM body s xs = Some s' -> P s -> P s'.
Proof.
  intros Hbody. induction xs as [|x xs IH]; intros s s'; simpl.
  - by intros [= <-].
  - destruct (body s x) as [s1|] eqn:Hs1; [|discriminate]. simpl.
    intros Hs' Hs. eapply IH; [exact Hs'|]. by eapply Hbody.
Qed.

Lemma scanForWhitespaceChanges_hitTimeout K o m t cws w n w' :
  scanForWhitespaceChanges K o m t cws w n = Some w' ->
  walk_hitTimeout w = true -> walk_hitTimeout w' = true.
Proof.
  unfold scanForWhitespaceChanges. destruct (negb cws); [by intros [= <-]|].
  apply (forEachM_invariant (fun w => walk_hitTimeout w = true)).
  intros s x s'. apply scanLine_hitTimeout.
Qed.

Lemma walkDiff_hitTimeout K o m t cws w diff w' :
  walkDiff K o m t cws w diff = Some w' ->
  walk_hitTimeout w = true -> walk_hitTimeout w' = true.
Proof.
  unfold walkDiff.
  destruct (scanForWhitespaceChanges _ _ _ _ _ _ _) as [w1|] eqn:Hw1;
    [|discriminate]. rewrite bind_Some.
  destruct (refineDiff _ _ _ _ _ _) as [c|]; [|discriminate].
  rewrite bind_Some. intros [= <-] Hw. simpl.
  by rewrite (scanForWhitespaceChanges_hitTimeout _ _ _ _ _ _ _ _ Hw1 Hw).
Qed.

(** A timeout of the line kernel is not lost: on two documents of more than
    one line each, when the line kernel reports that it has hit the timeout,
    every result of [computeDiff] has [hitTimeout] set, whatever the
    refinements of the lines report. *)
Theorem computeDiff_hitTimeout (K : Collaborators) (chrKeys : gmap char nat)
    (originalLines modifiedLines : list jsstring)
    (options : ILinesDiffComputerOptions) (d : LinesDiff) :
  let timeout :=
    if maxComputationTimeMs options =? 0 then InfiniteTimeout
    else newDateTimeout K (maxComputationTimeMs options) in
  let sequence1 :=
    mkLineSequence (hashLines ∅ originalLines).1 originalLines in
  let sequence2 :=
    mkLineSequence (hashLines (hashLines ∅ originalLines).2 modifiedLines).1
      modifiedLines in
  2 <= arrlen originalLines -> 2 <= arrlen modifiedLines ->
  result_hitTimeout
    (lineAlignmentResult K sequence1 sequence2 originalLines modifiedLines
       timeout) = true ->
  computeDiff K chrKeys originalLines modifiedLines options = Some d ->
  hitTimeout d = true.
Proof.
  cbv zeta. intros Ho Hm Hhit.
  rewrite computeDiff_long by assumption. cbv zeta. rewrite Hhit.
  destruct (forEachM _ _ _) as [w1|] eqn:Hw1; [|discriminate].
  rewrite bind_Some.
  destruct (scanForWhitespaceChanges _ _ _ _ _ _ _) as [w2|] eqn:Hw2;
    [|discriminate]. rewrite bind_Some.
  destruct (lineRangeMappingFromRangeMappings _ _ _ _) as [changes|];
    [|discriminate]. rewrite bind_Some.
  destruct (if option_computeMoves options then _ else _) as [moved|];
    [|discriminate]. rewrite bind_Some.
  intros [= <-]. simpl.
  eapply scanForWhitespaceChanges_hitTimeout; [exact Hw2|].
  eapply (forEachM_invariant (fun w => walk_hitTimeout w = true));
    [|exact Hw1|reflexivity].
  intros s x s'. apply walkDiff_hitTimeout.
Qed.

Lemma computeDiff_hitTimeout_witness :
  computeDiff timedOut ∅ [codes "a"; codes "b"] [codes "a"; codes "c"]
    (mkOptions false 1 false)
  = Some (mkLinesDiff
            [newDetailedLineRangeMapping (mkLineRange 1 3) (mkLineRange 1 3)
               [rm 1 1 2 2 1 1 2 2]]
            [] true)
  /\ hitTimeout
       (mkLinesDiff
          [newDetailedLineRangeMapping (mkLineRange 1 3) (mkLineRange 1 3)
             [rm 1 1 2 2 1 1 2 2]]
          [] true) = true.
Proof.
  split; [vm_compute; reflexivity|].
  apply (computeDiff_hitTimeout timedOut ∅ [codes "a"; codes "b"]
           [codes "a"; codes "c"] (mkOptions false 1 false)).
  - unfold arrlen; simpl; lia.
  - unfold arrlen; simpl; lia.
  - reflexivity.
  - vm_compute. reflexivity.
Defined.

(** ** Validity: what [computeDiff] asserts of its result *)

Lemma translateDiff_valid originalLines modifiedLines cws diff :
  originalLines <> [] -> modifiedLines <> [] ->
  diffWithin (arrlen originalLines) (arrlen modifiedLines) diff ->
  exists slice1 slice2,
    newLinesSliceCharSequence originalLines (seq1Range diff) cws = Some slice1
    /\ newLinesSliceCharSequence modifiedLines (seq2Range diff) cws
       = Some slice2
    /\ forall d,
         diffWithin (LinesSliceCharSequence.length slice1)
           (LinesSliceCharSequence.length slice2) d ->
         exists ic, translateDiff slice1 slice2 d = Some ic
                    /\ validRangeMapping originalLines modifiedLines ic = true.
Proof.
  intros Hno Hnm [[Ho1 Ho2] [Hm1 Hm2]].
  destruct (slice_valid_position originalLines (seq1Range diff) cws Hno Ho1 Ho2)
    as (slice1 & Hs1 & Hv1).
  destruct (slice_valid_position modifiedLines (seq2Range diff) cws Hnm Hm1 Hm2)
    as (slice2 & Hs2 & Hv2).
  destruct (slice_translateRange originalLines (seq1Range diff) cws Ho1 Ho2)
    as (slice1' & Hs1' & Hr1).
  destruct (slice_translateRange modifiedLines (seq2Range diff) cws Hm1 Hm2)
    as (slice2' & Hs2' & Hr2).
  assert (slice1' = slice1) as -> by congruence.
  assert (slice2' = slice2) as -> by congruence.
  exists slice1, slice2. split; [exact Hs1|]. split; [exact Hs2|].
  intros d [[Hd1 Hd1'] [Hd2 Hd2']].
  destruct (Hr1 (seq1Range d) Hd1) as (p1 & p2 & Hp1 & Hp2 & _ & Hrange1).
  destruct (Hr2 (seq2Range d) Hd2) as (q1 & q2 & Hq1 & Hq2 & _ & Hrange2).
  unfold translateDiff. rewrite Hrange1, Hrange2. simpl.
  eexists; split; [reflexivity|].
  destruct (Hv1 (start (seq1Range d)) ltac:(lia)) as (p1' & Hp1' & Hvp1).
  destruct (Hv1 (endExclusive (seq1Range d)) ltac:(lia)) as (p2' & Hp2' & Hvp2).
  destruct (Hv2 (start (seq2Range d)) ltac:(lia)) as (q1' & Hq1' & Hvq1).
  destruct (Hv2 (endExclusive (seq2Range d)) ltac:(lia)) as (q2' & Hq2' & Hvq2).
  assert (p1' = p1) as -> by congruence. assert (p2' = p2) as -> by congruence.
  assert (q1' = q1) as -> by congruence. assert (q2' = q2) as -> by congruence.
  unfold validRangeMapping, Range.getStartPosition, Range.getEndPosition. simpl.
  destruct p1, p2, q1, q2. simpl in *.
  by rewrite Hvp1, Hvp2, Hvq1, Hvq2.
Qed.

Lemma refineDiff_valid K originalLines modifiedLines diff timeout cws :
  originalLines <> [] -> modifiedLines <> [] ->
  diffWithin (arrlen originalLines) (arrlen modifiedLines) diff ->
  exists slice1 slice2,
    newLinesSliceCharSequence originalLines (seq1Range diff) cws = Some slice1
    /\ newLinesSliceCharSequence modifiedLines (seq2Range diff) cws
       = Some slice2
    /\ (Forall (diffWithin (LinesSliceCharSequence.length slice1)
                  (LinesSliceCharSequence.length slice2))
          (refinedSequenceDiffs K slice1 slice2 timeout).1 ->
        exists c,
          refineDiff K originalLines modifiedLines diff timeout cws = Some c
          /\ Forall (fun ic =>
                       validRangeMapping originalLines modifiedLines ic = true)
               (mappings c)).
Proof.
  intros Hno Hnm Hdiff.
  destruct (translateDiff_valid originalLines modifiedLines cws diff Hno Hnm
              Hdiff) as (slice1 & slice2 & Hs1 & Hs2 & Htranslate).
  exists slice1, slice2. split; [exact Hs1|]. split; [exact Hs2|].
  intros Hwithin. unfold refineDiff. rewrite Hs1, Hs2, !bind_Some.
  destruct (refinedSequenceDiffs K slice1 slice2 timeout) as [diffs hit].
  cbn [fst] in Hwithin.
  assert (Hmap : exists result,
            mapM (translateDiff slice1 slice2) diffs = Some result
            /\ Forall (fun ic =>
                         validRangeMapping originalLines modifiedLines ic = true)
                 result).
  { induction Hwithin as [|d diffs Hd _ (result & Hresult & Hvalid)].
    - exists []. split; [reflexivity | constructor].
    - destruct (Htranslate d Hd) as (ic & Hic & Hv).
      exists (ic :: result). rewrite mapM_cons_bind, Hic, bind_Some, Hresult.
      split; [reflexivity | by constructor]. }
  destruct Hmap as (result & -> & Hvalid). rewrite bind_Some.
  eexists; split; [reflexivity | exact Hvalid].
Qed.

(** [refineDiff] returns valid ranges: for a diff that lies within two
    documents that are not empty, whenever the diffs that come out of the
    kernel and the post-processors lie within the two slices, [refineDiff]
    returns, without throwing, range mappings whose start and end positions
    are positions of the documents, the condition on the inner changes that
    [computeDiff] asserts before it returns. *)
Theorem refineDiff_valid_ranges (K : Collaborators)
    (originalLines modifiedLines : list jsstring) (diff : SequenceDiff)
    (timeout : Timeout) (cws : bool) :
  originalLines <> [] -> modifiedLines <> [] ->
  diffWithin (arrlen originalLines) (arrlen modifiedLines) diff ->
  exists slice1 slice2,
    newLinesSliceCharSequence originalLines (seq1Range diff) cws = Some slice1
    /\ newLinesSliceCharSequence modifiedLines (seq2Range diff) cws
       = Some slice2
    /\ (Forall (diffWithin (LinesSliceCharSequence.length slice1)
                  (LinesSliceCharSequence.length slice2))
          (refinedSequenceDiffs K slice1 slice2 timeout).1 ->
        exists c,
          refineDiff K originalLines modifiedLines diff timeout cws = Some c
          /\ Forall (fun ic =>
                       validRangeMapping originalLines modifiedLines ic = true)
               (mappings c)).
Proof. apply refineDiff_valid. Qed.

Lemma refineDiff_valid_ranges_witness :
  exists c,
    refineDiff shortestEdits [codes "ab"; codes "cd"] [codes "ab"; codes "xd"]
      (sd 1 2 1 2) InfiniteTimeout true = Some c
    /\ mappings c = [rm 2 1 2 2 2 1 2 2]
    /\ Forall (fun ic =>
                 validRangeMapping [codes "ab"; codes "cd"]
                   [codes "ab"; codes "xd"] ic = true)
         (mappings c).
Proof.
  destruct (refineDiff_valid_ranges shortestEdits [codes "ab"; codes "cd"]
              [codes "ab"; codes "xd"] (sd 1 2 1 2) InfiniteTimeout true)
    as (slice1 & slice2 & Hs1 & Hs2 & Hvalid).
  - discriminate.
  - discriminate.
  - unfold diffWithin, arrlen. simpl. lia.
  - vm_compute in Hs1. injection Hs1 as <-.
    vm_compute in Hs2. injection Hs2 as <-.
    destruct Hvalid as (c & Hc & Hv).
    + vm_compute. repeat constructor; discriminate.
    + exists c. split; [exact Hc|]. split; [|exact Hv].
      vm_compute in Hc. by injection Hc as <-.
Defined.

Lemma validatePosition_line p lines :
  validatePosition p lines = true -> 1 <= lineNumber p <= arrlen lines.
Proof.
  unfold validatePosition.
  destruct (Z.ltb_spec (lineNumber p) 1); [discriminate|].
  destruct (Z.gtb_spec (lineNumber p) (arrlen lines)); [discriminate|]. lia.
Qed.

Lemma validateRange_true range lines :
  validateRange range lines = true
  <-> 1 <= startLineNumber range <= arrlen lines + 1
      /\ 1 <= endLineNumberExclusive range <= arrlen lines + 1.
Proof.
  unfold validateRange.
  destruct (Z.ltb_spec (startLineNumber range) 1),
    (Z.gtb_spec (startLineNumber range) (arrlen lines + 1)),
    (Z.ltb_spec (endLineNumberExclusive range) 1),
    (Z.gtb_spec (endLineNumberExclusive range) (arrlen lines + 1)); simpl;
    split; try discriminate; try lia; reflexivity.
Qed.

Lemma getLineRangeMapping_valid a originalLines modifiedLines d :
  getLineRangeMapping a originalLines modifiedLines = Some d ->
  validRangeMapping originalLines modifiedLines a = true ->
  validateRange (original d) originalLines = true
  /\ validateRange (modified d) modifiedLines = true
  /\ innerChanges d = [a].
Proof.
  intros Hd Hvalid.
  pose proof (getLineRangeMapping_deltas a originalLines modifiedLines)
    as Hdeltas.
  cbv zeta in Hdeltas. destruct Hdeltas as [Hdeltas _].
  destruct (Hdeltas d Hd) as (ds & de & Hds & Hde & Ho & Hm & _ & _ & Hinner).
  unfold validRangeMapping in Hvalid.
  rewrite !andb_true_iff in Hvalid. destruct Hvalid as [[[Hms Hme] Hos] Hoe].
  apply validatePosition_line in Hoe, Hos, Hms, Hme. simpl in *.
  rewrite !validateRange_true, Ho, Hm. simpl. repeat split; try lia. exact Hinner.
Qed.

Lemma last_elem_of {A} (l : list A) x : last l = Some x -> x ∈ l.
Proof.
  intros [l' ->]%last_Some_snoc. apply elem_of_app. right. left.
Qed.

Lemma changeOfGroup_valid originalLines modifiedLines g c :
  Forall (fun d : DetailedLineRangeMapping =>
            validateRange (original d) originalLines = true
            /\ validateRange (modified d) modifiedLines = true
            /\ exists a, innerChanges d = [a]
                         /\ validRangeMapping originalLines modifiedLines a
                            = true) g ->
  changeOfGroup g = Some c ->
  forallb (validRangeMapping originalLines modifiedLines) (innerChanges c)
  && validateRange (modified c) modifiedLines
  && validateRange (original c) originalLines = true.
Proof.
  intros Hg Hc.
  assert (Hinner : innerChanges c = concat (innerChanges <$> g)).
  { eapply changeOfGroup_inner; [|exact Hc].
    eapply Forall_impl; [exact Hg|]. intros d (_ & _ & a & Ha & _). eauto. }
  revert Hc. unfold changeOfGroup.
  destruct (head g) as [first|] eqn:Hfirst; [|discriminate]. rewrite bind_Some.
  destruct (last g) as [lastOfGroup|] eqn:Hlast; [|discriminate].
  rewrite bind_Some.
  destruct (mapM _ g) as [inner|]; [|discriminate]. rewrite bind_Some.
  intros [= <-]. simpl in *.
  apply head_Some_elem_of in Hfirst. apply last_elem_of in Hlast.
  pose proof (proj1 (Forall_forall _ _) Hg _ Hfirst) as (Hfo & Hfm & _).
  pose proof (proj1 (Forall_forall _ _) Hg _ Hlast) as (Hlo & Hlm & _).
  rewrite validateRange_true in Hfo, Hfm, Hlo, Hlm.
  rewrite !andb_true_iff, !validateRange_true. unfold LineRange.join. simpl.
  split; [split|]; [|lia|lia].
  rewrite Hinner. clear -Hg.
  induction Hg as [|d g (_ & _ & a & Ha & Hv) _ IH]; [reflexivity|].
  rewrite fmap_cons. simpl. rewrite Ha. simpl. by rewrite Hv, IH.
Qed.

Lemma lineRangeMappingFromRangeMappings_rangesAreValid
    (alignments : list RangeMapping) (originalLines modifiedLines : list jsstring)
    (dontAssertStartLine : bool) (changes : list DetailedLineRangeMapping) :
  Forall (fun a => validRangeMapping originalLines modifiedLines a = true)
    alignments ->
  lineRangeMappingFromRangeMappings alignments originalLines modifiedLines
    dontAssertStartLine = Some changes ->
  rangesAreValid changes originalLines modifiedLines = true.
Proof.
  intros Hvalid. unfold lineRangeMappingFromRangeMappings.
  destruct (mapM _ alignments) as [mapped|] eqn:Hmapped; [|discriminate].
  rewrite bind_Some. intros Hchanges.
  apply mapM_Some in Hmapped, Hchanges.
  assert (Hall : Forall (fun d : DetailedLineRangeMapping =>
                   validateRange (original d) originalLines = true
                   /\ validateRange (modified d) modifiedLines = true
                   /\ exists a, innerChanges d = [a]
                                /\ validRangeMapping originalLines
                                     modifiedLines a = true) mapped).
  { clear Hchanges. induction Hmapped as [|a d l k Hd _ IH]; [constructor|].
    apply Forall_cons in Hvalid as [Ha Hvalid].
    constructor; [|by apply IH].
    destruct (getLineRangeMapping_valid a originalLines modifiedLines d Hd Ha)
      as (Ho & Hm & Hinner).
    split; [exact Ho|]. split; [exact Hm|]. by exists a. }
  destruct (groupAdjacentBy_concat shouldBeGrouped mapped) as [Hconcat _].
  rewrite <- Hconcat in Hall. clear Hconcat Hmapped Hvalid.
  unfold rangesAreValid.
  induction Hchanges as [|g c groups changes' Hc _ IH]; [reflexivity|].
  rewrite concat_cons in Hall. apply Forall_app in Hall as [Hg Hall].
  simpl. rewrite (IH Hall), andb_true_r.
  exact (changeOfGroup_valid originalLines modifiedLines g c Hg Hc).
Qed.

(** Valid alignments give valid changes: when every alignment starts and
    ends at positions of the documents, the changes that
    [lineRangeMappingFromRangeMappings] returns satisfy what [computeDiff]
    asserts before it returns: the positions of their inner changes are valid
    and their line ranges lie between line [1] and the line past the last
    one. *)
Theorem lineRangeMappingFromRangeMappings_valid
    (alignments : list RangeMapping) (originalLines modifiedLines : list jsstring)
    (dontAssertStartLine : bool) (changes : list DetailedLineRangeMapping) :
  Forall (fun a => validRangeMapping originalLines modifiedLines a = true)
    alignments ->
  lineRangeMappingFromRangeMappings alignments originalLines modifiedLines
    dontAssertStartLine = Some changes ->
  rangesAreValid changes originalLines modifiedLines = true.
Proof. apply lineRangeMappingFromRangeMappings_rangesAreValid. Qed.

Lemma lineRangeMappingFromRangeMappings_valid_witness :
  lineRangeMappingFromRangeMappings
    [rm 1 1 1 2 1 1 1 2; rm 2 1 2 2 2 1 2 3; rm 4 1 4 2 4 1 4 1]
    [codes "a"; codes "b"; codes "c"; codes "d"]
    [codes "x"; codes "yz"; codes "c"; codes ""] false
  = Some [newDetailedLineRangeMapping (mkLineRange 1 3) (mkLineRange 1 3)
            [rm 1 1 1 2 1 1 1 2; rm 2 1 2 2 2 1 2 3];
          newDetailedLineRangeMapping (mkLineRange 4 5) (mkLineRange 4 5)
            [rm 4 1 4 2 4 1 4 1]]
  /\ rangesAreValid
       [newDetailedLineRangeMapping (mkLineRange 1 3) (mkLineRange 1 3)
          [rm 1 1 1 2 1 1 1 2; rm 2 1 2 2 2 1 2 3];
        newDetailedLineRangeMapping (mkLineRange 4 5) (mkLineRange 4 5)
          [rm 4 1 4 2 4 1 4 1]]
       [codes "a"; codes "b"; codes "c"; codes "d"]
       [codes "x"; codes "yz"; codes "c"; codes ""] = true.
Proof.
  split; [vm_compute; reflexivity|].
  apply (lineRangeMappingFromRangeMappings_valid
           [rm 1 1 1 2 1 1 1 2; rm 2 1 2 2 2 1 2 3; rm 4 1 4 2 4 1 4 1]
           [codes "a"; codes "b"; codes "c"; codes "d"]
           [codes "x"; codes "yz"; codes "c"; codes ""] false).
  - repeat constructor.
  - vm_compute. reflexivity.
Defined.

Lemma forEachM_invariant_elem {S A} (P : S -> Prop) (body : S -> A -> option S)
    xs :
  (forall s x s', x ∈ xs -> body s x = Some s' -> P s -> P s') ->
  forall s s', forEachM body s xs = Some s' -> P s -> P s'.
Proof.
  induction xs as [|x xs IH]; intros Hbody s s'; simpl.
  - by intros [= <-].
  - destruct (body s x) as [s1|] eqn:Hs1; [|discriminate]. simpl.
    intros Hs' Hs. eapply IH; [|exact Hs'|].
    + intros s0 x0 s0' Hx0. apply Hbody. by right.
    + eapply Hbody; [left | exact Hs1 | exact Hs].
Qed.

(** The constructor throws when the one line of its range does not
    exist. *)
Lemma newLinesSliceCharSequence_line_exists lines x cws s :
  0 <= x ->
  newLinesSliceCharSequence lines (mkOffsetRange x (x + 1)) cws = Some s ->
  x < arrlen lines.
Proof.
  intros Hx. unfold newLinesSliceCharSequence. simpl.
  set (trimFirst := (x >? 0) && (x + 1 >=? arrlen lines)).
  set (r := if trimFirst then mkOffsetRange (x - 1) (x + 1)
            else mkOffsetRange x (x + 1)).
  assert (Hr : exists k : nat,
            endExclusive r - start r = Z.of_nat (S k)
            /\ start r + Z.of_nat k = x).
  { subst r. destruct trimFirst; simpl; [exists 1%nat | exists 0%nat]; lia. }
  destruct Hr as (k & -> & Hk). rewrite seqZ_S, Hk, forEachM_app.
  destruct (forEachM _ _ (seqZ (start r) (Z.of_nat k))) as [b|];
    [|discriminate].
  rewrite bind_Some, forEachM_cons.
  destruct (LinesSliceCharSequence_line lines (start r) cws b x) as [b'|]
    eqn:Hb'; [|discriminate].
  intros _. unfold LinesSliceCharSequence_line in Hb'.
  destruct (at_index lines x) as [line|] eqn:Hline; [|discriminate].
  apply at_index_Some in Hline. lia.
Qed.

Section Walk.
Context (K : Collaborators) (originalLines modifiedLines : list jsstring)
  (timeout : Timeout) (cws : bool).

Hypothesis originalLines_not_empty : originalLines <> [].
Hypothesis modifiedLines_not_empty : modifiedLines <> [].

(** The diffs of two slices lie within the slices. *)
Hypothesis refined_within : forall slice1 slice2,
  Forall (diffWithin (LinesSliceCharSequence.length slice1)
            (LinesSliceCharSequence.length slice2))
    (refinedSequenceDiffs K slice1 slice2 timeout).1.

Lemma refineDiff_mappings_valid diff c :
  diffWithin (arrlen originalLines) (arrlen modifiedLines) diff ->
  refineDiff K originalLines modifiedLines diff timeout cws = Some c ->
  Forall (fun a => validRangeMapping originalLines modifiedLines a = true)
    (mappings c).
Proof.
  intros Hdiff Hc.
  destruct (refineDiff_valid K originalLines modifiedLines diff timeout cws
              originalLines_not_empty modifiedLines_not_empty Hdiff)
    as (slice1 & slice2 & _ & _ & Hvalid).
  destruct (Hvalid (refined_within slice1 slice2)) as (c' & Hc' & Hv).
  assert (c' = c) as -> by congruence. exact Hv.
Qed.

Lemma scanLine_valid w i w' :
  0 <= i -> scanLine K originalLines modifiedLines timeout cws w i = Some w' ->
  walk_valid originalLines modifiedLines w ->
  walk_valid originalLines modifiedLines w'.
Proof.
  intros Hi. unfold scanLine. destruct (bool_decide _); [|by intros [= <-]].
  destruct (refineDiff _ _ _ _ _ _) as [c|] eqn:Hc; [|discriminate].
  rewrite bind_Some. intros [= <-] (Hall & H1 & H2).
  split; [|simpl; lia]. simpl. apply Forall_app. split; [exact Hall|].
  eapply refineDiff_mappings_valid; [|exact Hc].
  revert Hc. unfold refineDiff. simpl.
  destruct (newLinesSliceCharSequence originalLines _ cws) as [slice1|] eqn:Hs1;
    [|discriminate].
  destruct (newLinesSliceCharSequence modifiedLines _ cws) as [slice2|] eqn:Hs2;
    [|discriminate].
  intros _.
  apply newLinesSliceCharSequence_line_exists in Hs1; [|lia].
  apply newLinesSliceCharSequence_line_exists in Hs2; [|lia].
  unfold diffWithin. simpl. lia.
Qed.

Lemma scanForWhitespaceChanges_valid w n w' :
  scanForWhitespaceChanges K originalLines modifiedLines timeout cws w n
  = Some w' ->
  walk_valid originalLines modifiedLines w ->
  walk_valid originalLines modifiedLines w'.
Proof.
  unfold scanForWhitespaceChanges. destruct (negb cws); [by intros [= <-]|].
  apply (forEachM_invariant_elem (walk_valid originalLines modifiedLines)).
  intros s x s' Hx. apply scanLine_valid.
  apply list_elem_of_lookup in Hx as [j Hj]. apply lookup_seqZ in Hj. lia.
Qed.

Lemma walkDiff_valid w diff w' :
  diffWithin (arrlen originalLines) (arrlen modifiedLines) diff ->
  walkDiff K originalLines modifiedLines timeout cws w diff = Some w' ->
  walk_valid originalLines modifiedLines w ->
  walk_valid originalLines modifiedLines w'.
Proof.
  intros Hdiff. unfold walkDiff.
  destruct (scanForWhitespaceChanges _ _ _ _ _ _ _) as [w1|] eqn:Hw1;
    [|discriminate]. rewrite bind_Some.
  destruct (refineDiff _ _ _ _ _ _) as [c|] eqn:Hc; [|discriminate].
  rewrite bind_Some. intros [= <-] Hw.
  destruct (scanForWhitespaceChanges_valid _ _ _ Hw1 Hw) as (Hall & _ & _).
  destruct Hdiff as [[? ?] [? ?]].
  split; [|simpl; lia]. simpl. apply Forall_app. split; [exact Hall|].
  eapply refineDiff_mappings_valid; [|exact Hc]. unfold diffWithin. lia.
Qed.

Lemma walk_alignments_valid diffs w1 w2 n :
  Forall (diffWithin (arrlen originalLines) (arrlen modifiedLines)) diffs ->
  forEachM (walkDiff K originalLines modifiedLines timeout cws)
    (mkWalk [] false 0 0) diffs = Some w1
  \/ forEachM (walkDiff K originalLines modifiedLines timeout cws)
       (mkWalk [] true 0 0) diffs = Some w1 ->
  scanForWhitespaceChanges K originalLines modifiedLines timeout cws w1 n
  = Some w2 ->
  Forall (fun a => validRangeMapping originalLines modifiedLines a = true)
    (walk_alignments w2).
Proof.
  intros Hdiffs Hw1 Hw2.
  assert (Hwalk : forall w0, walk_valid originalLines modifiedLines w0 ->
            forEachM (walkDiff K originalLines modifiedLines timeout cws) w0
              diffs = Some w1 ->
            walk_valid originalLines modifiedLines w1).
  { intros w0 Hw0 Hrun.
    eapply (forEachM_invariant_elem (walk_valid originalLines modifiedLines));
      [|exact Hrun|exact Hw0].
    intros s x s' Hx. apply walkDiff_valid.
    by eapply (proj1 (Forall_forall _ _) Hdiffs). }
  assert (Hvalid1 : walk_valid originalLines modifiedLines w1).
  { destruct Hw1 as [Hw1|Hw1]; (eapply Hwalk; [|exact Hw1]);
      (split; [constructor | simpl; lia]). }
  by destruct (scanForWhitespaceChanges_valid _ _ _ Hw2 Hvalid1).
Qed.
End Walk.

(** [computeDiff] returns valid ranges: on two documents of more than one
    line each, whenever the line alignments lie within the documents and the
    diffs of any two slices lie within the slices, the changes of every
    result of [computeDiff] satisfy what it asserts before it returns: the
    start and the end of every inner change are positions of the documents,
    and the line ranges of every change lie between line [1] and the line
    past the last one. *)
Theorem computeDiff_valid_ranges (K : Collaborators) (chrKeys : gmap char nat)
    (originalLines modifiedLines : list jsstring)
    (options : ILinesDiffComputerOptions) (d : LinesDiff) :
  let timeout :=
    if maxComputationTimeMs options =? 0 then InfiniteTimeout
    else newDateTimeout K (maxComputationTimeMs options) in
  let sequence1 :=
    mkLineSequence (hashLines ∅ originalLines).1 originalLines in
  let sequence2 :=
    mkLineSequence (hashLines (hashLines ∅ originalLines).2 modifiedLines).1
      modifiedLines in
  let result :=
    lineAlignmentResult K sequence1 sequence2 originalLines modifiedLines
      timeout in
  2 <= arrlen originalLines -> 2 <= arrlen modifiedLines ->
  Forall (diffWithin (arrlen originalLines) (arrlen modifiedLines))
    (lineAlignments K sequence1 sequence2 (result_diffs result)) ->
  (forall slice1 slice2,
     Forall (diffWithin (LinesSliceCharSequence.length slice1)
               (LinesSliceCharSequence.length slice2))
       (refinedSequenceDiffs K slice1 slice2 timeout).1) ->
  computeDiff K chrKeys originalLines modifiedLines options = Some d ->
  rangesAreValid (changes d) originalLines modifiedLines = true.
Proof.
  cbv zeta. intros Ho Hm Hlines Hslices.
  rewrite computeDiff_long by assumption. cbv zeta.
  destruct (forEachM _ _ _) as [w1|] eqn:Hw1; [|discriminate].
  rewrite bind_Some.
  destruct (scanForWhitespaceChanges _ _ _ _ _ _ _) as [w2|] eqn:Hw2;
    [|discriminate]. rewrite bind_Some.
  destruct (lineRangeMappingFromRangeMappings _ _ _ _) as [changes0|] eqn:Hchanges;
    [|discriminate]. rewrite bind_Some.
  destruct (if option_computeMoves options then _ else _) as [moved|];
    [|discriminate]. rewrite bind_Some.
  intros [= <-]. simpl.
  eapply lineRangeMappingFromRangeMappings_rangesAreValid; [|exact Hchanges].
  eapply (walk_alignments_valid K originalLines modifiedLines);
    [ intros ->; unfold arrlen in Ho; simpl in Ho; lia
    | intros ->; unfold arrlen in Hm; simpl in Hm; lia
    | exact Hslices | exact Hlines | | exact Hw2 ].
  destruct (result_hitTimeout _); [right | left]; exact Hw1.
Qed.

Lemma timedOut_refined slice1 slice2 timeout :
  (refinedSequenceDiffs timedOut slice1 slice2 timeout).1
  = [mkSequenceDiff (mkOffsetRange 0 (LinesSliceCharSequence.length slice1))
       (mkOffsetRange 0 (LinesSliceCharSequence.length slice2))].
Proof.
  unfold refinedSequenceDiffs. cbv zeta.
  assert (Hkernel : forall s1 s2 : LinesSliceCharSequence,
            result_diffs
              (if LinesSliceCharSequence.length s1
                  + LinesSliceCharSequence.length s2 <? 500
               then dynamicProgrammingDiffing_compute timedOut
                      (ofLinesSliceCharSequence s1)
                      (ofLinesSliceCharSequence s2) timeout None
               else myersDiffingAlgorithm_compute timedOut
                      (ofLinesSliceCharSequence s1)
                      (ofLinesSliceCharSequence s2) (Some timeout))
            = [mkSequenceDiff
                 (mkOffsetRange 0 (LinesSliceCharSequence.length s1))
                 (mkOffsetRange 0 (LinesSliceCharSequence.length s2))]).
  { intros s1 s2. by destruct (_ <? 500). }
  rewrite Hkernel. cbn [fst timedOut optimizeSequenceDiffs
    smoothenSequenceDiffs removeRandomMatches].
  unfold coverFullWords. cbn [foldl].
  unfold coverFullWords_diff, findWordContaining, LinesSliceCharSequence.length.
  cbn [seq1Range seq2Range start endExclusive].
  rewrite !Z.geb_leb, !Z.leb_refl, !orb_true_r. reflexivity.
Qed.

Lemma computeDiff_valid_ranges_witness :
  computeDiff timedOut ∅ [codes "a"; codes "b"] [codes "a"; codes "c"]
    (mkOptions false 1 false)
  = Some (mkLinesDiff
            [newDetailedLineRangeMapping (mkLineRange 1 3) (mkLineRange 1 3)
               [rm 1 1 2 2 1 1 2 2]]
            [] true)
  /\ rangesAreValid
       (changes
          (mkLinesDiff
             [newDetailedLineRangeMapping (mkLineRange 1 3) (mkLineRange 1 3)
                [rm 1 1 2 2 1 1 2 2]]
             [] true))
       [codes "a"; codes "b"] [codes "a"; codes "c"] = true.
Proof.
  split; [vm_compute; reflexivity|].
  apply (computeDiff_valid_ranges timedOut ∅ [codes "a"; codes "b"]
           [codes "a"; codes "c"] (mkOptions false 1 false)).
  - unfold arrlen; simpl; lia.
  - unfold arrlen; simpl; lia.
  - repeat constructor; vm_compute; congruence.
  - intros slice1 slice2. rewrite timedOut_refined.
    constructor; [|constructor].
    unfold LinesSliceCharSequence.length, arrlen, diffWithin. simpl. lia.
  - vm_compute. reflexivity.
Defined.
